(** * Projectile-motion physics core: PhysicsEngine, Projectile, TrajectoryPredictor

    Shallow embedding of the simulation core of the projectile-motion
    simulator (classes [PhysicsEngine], [Projectile] and the method
    [TrajectoryPredictor.calculateTrajectory]).

    Numbers.  JavaScript numbers are modelled by the real numbers [R] of the
    Standard Library: [Math.PI] is [PI], [Math.cos], [Math.sin], [Math.sqrt]
    and [Math.abs] are [cos], [sin], [sqrt] and [Rabs], and [e ** 2] is
    [e ^ 2].  The theorems therefore speak about the arithmetic the program
    text denotes; rounding, infinities and NaN are outside the model.

    Objects.  Every JavaScript object of the core is a record; a method is a
    function that takes the receiver [this] first and, when it assigns to
    [this], returns the updated receiver. *)

From Stdlib Require Import Reals Lra Lia List Bool Arith ZArith.
From Stdlib Require String.
Import ListNotations.

Open Scope R_scope.

(** ** Comparisons of numbers, as the booleans the program branches on *)

Definition num_lt (a b : R) : bool := if Rlt_dec a b then true else false.
Definition num_le (a b : R) : bool := if Rle_dec a b then true else false.
Definition num_gt (a b : R) : bool := num_lt b a.
(** [a !== b] on numbers. *)
Definition num_neq (a b : R) : bool := if Req_dec_T a b then false else true.

(** ** Plain data objects *)

(** [{x, y, vx, vy}] *)
Record State : Type := mkState { x : R; y : R; vx : R; vy : R }.

(** [{fx, fy}] *)
Record Force : Type := mkForce { fx : R; fy : R }.

(** [{x, y}], the objects stored in [trajectory] and returned by the
    predictor. *)
Record Point : Type := mkPoint { px : R; py : R }.

(** [state.y = v] *)
Definition set_y (s : State) (v : R) : State :=
  {| x := x s; y := v; vx := vx s; vy := vy s |}.

(** ** class PhysicsEngine *)

Record PhysicsEngine : Type := mkPhysicsEngine {
  AIR_DENSITY : R;
  DRAG_COEFFICIENT : R;
  dt : R
}.

(** [new PhysicsEngine()] *)
Definition newPhysicsEngine : PhysicsEngine :=
  {| AIR_DENSITY := 1.225; DRAG_COEFFICIENT := 0.47; dt := 0.016 |}.

Definition calculateNoAirResistance (v0 angle g t : R) : State :=
  let rad := angle * PI / 180 in
  let v0x := v0 * cos rad in
  let v0y := v0 * sin rad in
  let x' := v0x * t in
  let y' := v0y * t - 0.5 * g * t * t in
  let vx' := v0x in
  let vy' := v0y - g * t in
  {| x := x'; y := y'; vx := vx'; vy := vy' |}.

Definition calculateDragForce (this : PhysicsEngine) (vx vy diameter : R)
  : Force :=
  let v := sqrt (vx * vx + vy * vy) in
  let area := PI * (diameter / 2) ^ 2 in
  let dragMagnitude :=
    0.5 * AIR_DENSITY this * v * v * DRAG_COEFFICIENT this * area in
  let fx' := if num_gt v 0 then - dragMagnitude * (vx / v) else 0 in
  let fy' := if num_gt v 0 then - dragMagnitude * (vy / v) else 0 in
  {| fx := fx'; fy := fy' |}.

Definition calculateWindForce (this : PhysicsEngine) (windSpeed diameter : R)
  : Force :=
  let area := PI * (diameter / 2) ^ 2 in
  let windForce :=
    0.5 * AIR_DENSITY this * windSpeed * Rabs windSpeed *
    DRAG_COEFFICIENT this * area in
  {| fx := windForce; fy := 0 |}.

Definition integrateStep (this : PhysicsEngine) (state : State)
  (mass diameter g : R) (airResistance : bool) (windSpeed : R) : State :=
  let ax := 0 in
  let ay := - g in
  let '(ax, ay) :=
    if airResistance then
      let drag := calculateDragForce this (vx state) (vy state) diameter in
      (ax + fx drag / mass, ay + fy drag / mass)
    else (ax, ay) in
  let ax :=
    if num_neq windSpeed 0 then
      let wind := calculateWindForce this windSpeed diameter in
      ax + fx wind / mass
    else ax in
  {| x := x state + vx state * dt this;
     y := y state + vy state * dt this;
     vx := vx state + ax * dt this;
     vy := vy state + ay * dt this |}.

Definition calculateMaxRange (v0 angle g : R) : R :=
  let rad := angle * PI / 180 in
  (v0 * v0 * sin (2 * rad)) / g.

Definition calculateMaxHeight (v0 angle g : R) : R :=
  let rad := angle * PI / 180 in
  let v0y := v0 * sin rad in
  (v0y * v0y) / (2 * g).

Definition calculateFlightTime (v0 angle g : R) : R :=
  let rad := angle * PI / 180 in
  let v0y := v0 * sin rad in
  (2 * v0y) / g.

(** *** Division, instrumented

    In the program a division by zero does not fail, it yields an infinity
    or NaN, which [R] does not have.  To state that a function never
    performs such a division, [calculateDragForce_checked] is the same
    function with every division routed through [checked_div], which
    reports a zero divisor as [None]. *)

Definition checked_div (a b : R) : option R :=
  if Req_dec_T b 0 then None else Some (a / b).

Definition calculateDragForce_checked (this : PhysicsEngine)
  (vx vy diameter : R) : option Force :=
  let v := sqrt (vx * vx + vy * vy) in
  match checked_div diameter 2 with
  | None => None
  | Some half =>
    let area := PI * half ^ 2 in
    let dragMagnitude :=
      0.5 * AIR_DENSITY this * v * v * DRAG_COEFFICIENT this * area in
    let fx' :=
      if num_gt v 0
      then option_map (fun q => - dragMagnitude * q) (checked_div vx v)
      else Some 0 in
    let fy' :=
      if num_gt v 0
      then option_map (fun q => - dragMagnitude * q) (checked_div vy v)
      else Some 0 in
    match fx', fy' with
    | Some a, Some b => Some {| fx := a; fy := b |}
    | _, _ => None
    end
  end.

(** ** class Projectile *)

(** The [params] object handed to [new Projectile(params)] and to
    [calculateTrajectory(params)].  [windSpeed] is optional in the first and
    [windEnabled] is read by the second only.  [color] is used for drawing
    only and is left out. *)
Module Params.
Record t : Type := mk {
  velocity : R;
  angle : R;
  mass : R;
  diameter : R;
  gravity : R;
  airResistance : bool;
  windSpeed : option R;
  windEnabled : bool
}.
End Params.

Record Projectile : Type := mkProjectile {
  v0 : R;
  angle : R;
  mass : R;
  diameter : R;
  gravity : R;
  airResistance : bool;
  windSpeed : R;
  state : State;
  time : R;
  isFlying : bool;
  hasLanded : bool;
  trajectory : list Point;
  maxHeight : R;
  range : R;
  physics : PhysicsEngine;
  maxTrajectoryPoints : nat
}.

(** Assignments [this.f = v], one per field that a method assigns. *)

Definition set_state (p : Projectile) (s : State) : Projectile :=
  mkProjectile (v0 p) (angle p) (mass p) (diameter p) (gravity p)
    (airResistance p) (windSpeed p) s (time p) (isFlying p) (hasLanded p)
    (trajectory p) (maxHeight p) (range p) (physics p)
    (maxTrajectoryPoints p).

Definition set_time (p : Projectile) (t : R) : Projectile :=
  mkProjectile (v0 p) (angle p) (mass p) (diameter p) (gravity p)
    (airResistance p) (windSpeed p) (state p) t (isFlying p) (hasLanded p)
    (trajectory p) (maxHeight p) (range p) (physics p)
    (maxTrajectoryPoints p).

Definition set_isFlying (p : Projectile) (b : bool) : Projectile :=
  mkProjectile (v0 p) (angle p) (mass p) (diameter p) (gravity p)
    (airResistance p) (windSpeed p) (state p) (time p) b (hasLanded p)
    (trajectory p) (maxHeight p) (range p) (physics p)
    (maxTrajectoryPoints p).

Definition set_hasLanded (p : Projectile) (b : bool) : Projectile :=
  mkProjectile (v0 p) (angle p) (mass p) (diameter p) (gravity p)
    (airResistance p) (windSpeed p) (state p) (time p) (isFlying p) b
    (trajectory p) (maxHeight p) (range p) (physics p)
    (maxTrajectoryPoints p).

Definition set_trajectory (p : Projectile) (l : list Point) : Projectile :=
  mkProjectile (v0 p) (angle p) (mass p) (diameter p) (gravity p)
    (airResistance p) (windSpeed p) (state p) (time p) (isFlying p)
    (hasLanded p) l (maxHeight p) (range p) (physics p)
    (maxTrajectoryPoints p).

Definition set_maxHeight (p : Projectile) (h : R) : Projectile :=
  mkProjectile (v0 p) (angle p) (mass p) (diameter p) (gravity p)
    (airResistance p) (windSpeed p) (state p) (time p) (isFlying p)
    (hasLanded p) (trajectory p) h (range p) (physics p)
    (maxTrajectoryPoints p).

Definition set_range (p : Projectile) (r : R) : Projectile :=
  mkProjectile (v0 p) (angle p) (mass p) (diameter p) (gravity p)
    (airResistance p) (windSpeed p) (state p) (time p) (isFlying p)
    (hasLanded p) (trajectory p) (maxHeight p) r (physics p)
    (maxTrajectoryPoints p).

Definition reset (this : Projectile) : Projectile :=
  let rad := angle this * PI / 180 in
  let this := set_state this
    {| x := 0; y := 0;
       vx := v0 this * cos rad;
       vy := v0 this * sin rad |} in
  let this := set_time this 0 in
  let this := set_isFlying this false in
  let this := set_hasLanded this false in
  let this := set_trajectory this [] in
  let this := set_maxHeight this 0 in
  set_range this 0.

Definition launch (this : Projectile) : Projectile :=
  let this := reset this in
  set_isFlying this true.

(** The position object [{ x: this.state.x, y: this.state.y }]. *)
Definition position (p : Projectile) : Point :=
  {| px := x (state p); py := y (state p) |}.

(** The "Update physics" statement of [update()]: the state that the tick
    assigns to [this.state], before the landing test clamps it. *)
Definition physicsStep (this : Projectile) : State :=
  if airResistance this || num_neq (windSpeed this) 0 then
    integrateStep (physics this) (state this) (mass this) (diameter this)
      (gravity this) (airResistance this) (windSpeed this)
  else
    calculateNoAirResistance (v0 this) (angle this) (gravity this)
      (time this).

Definition update (this : Projectile) : Projectile :=
  if negb (isFlying this) || hasLanded this then this else
  let this :=
    if (length (trajectory this) <? maxTrajectoryPoints this)%nat
    then set_trajectory this (trajectory this ++ [position this])
    else this in
  let this := set_state this (physicsStep this) in
  let this := set_time this (time this + dt (physics this)) in
  let this :=
    if num_gt (y (state this)) (maxHeight this)
    then set_maxHeight this (y (state this))
    else this in
  if num_le (y (state this)) 0 && num_gt (time this) 0.01 then
    let this := set_state this (set_y (state this) 0) in
    let this := set_hasLanded this true in
    let this := set_isFlying this false in
    set_range this (x (state this))
  else this.

Definition getVelocity (this : Projectile) : R :=
  sqrt (vx (state this) ^ 2 + vy (state this) ^ 2).

(** [new Projectile(params)].  The constructor copies the parameters
    ([params.windSpeed || 0] for the wind), calls [reset()], and then assigns
    [physics], [trajectory] and [maxTrajectoryPoints]; [reset()] reads none
    of the three, so they are given their values at once. *)
Definition newProjectile (params : Params.t) : Projectile :=
  let this :=
    {| v0 := Params.velocity params;
       angle := Params.angle params;
       mass := Params.mass params;
       diameter := Params.diameter params;
       gravity := Params.gravity params;
       airResistance := Params.airResistance params;
       windSpeed := match Params.windSpeed params with
                    | Some w => w
                    | None => 0
                    end;
       state := {| x := 0; y := 0; vx := 0; vy := 0 |};
       time := 0;
       isFlying := false;
       hasLanded := false;
       trajectory := [];
       maxHeight := 0;
       range := 0;
       physics := newPhysicsEngine;
       maxTrajectoryPoints := 500 |} in
  let this := reset this in
  set_trajectory this [].

(** A caller's use of a projectile: a sequence of method calls. *)
Inductive Call : Type := Launch | Update | Reset.

Definition call (c : Call) (p : Projectile) : Projectile :=
  match c with
  | Launch => launch p
  | Update => update p
  | Reset => reset p
  end.

(** [run cs p]: the calls [cs], first to last, on [p]. *)
Definition run (cs : list Call) (p : Projectile) : Projectile :=
  fold_left (fun q c => call c q) cs p.

(** [n] consecutive [update()] calls. *)
Fixpoint ticks (n : nat) (p : Projectile) : Projectile :=
  match n with
  | O => p
  | S k => ticks k (update p)
  end.

(** A flight: construction, [launch()], then [n] ticks. *)
Definition flight (params : Params.t) (n : nat) : Projectile :=
  ticks n (launch (newProjectile params)).


(** ** class TrajectoryPredictor

    Only [physics] is read by [calculateTrajectory]; the [renderer] field is
    used for drawing only and is left out. *)

Record TrajectoryPredictor : Type := mkTrajectoryPredictor {
  predictorPhysics : PhysicsEngine
}.

Definition newTrajectoryPredictor : TrajectoryPredictor :=
  {| predictorPhysics := newPhysicsEngine |}.

(** [params.windSpeed !== 0], where [params.windSpeed] may be [undefined]. *)
Definition opt_neq0 (w : option R) : bool :=
  match w with
  | Some r => num_neq r 0
  | None => true
  end.

(** The value of the defaulted parameter [windSpeed = 0] of [integrateStep]
    for the argument [params.windEnabled ? params.windSpeed : 0]. *)
Definition windArgument (params : Params.t) : R :=
  match (if Params.windEnabled params
         then Params.windSpeed params else Some 0) with
  | Some w => w
  | None => 0
  end.

(** The body of the [for] loop of [calculateTrajectory] after the [break]
    test: the next value of the local [state]. *)
Definition predictorStep (this : TrajectoryPredictor) (params : Params.t)
  (state : State) (t : R) : State :=
  if Params.airResistance params
     || (Params.windEnabled params && opt_neq0 (Params.windSpeed params))
  then
    integrateStep (predictorPhysics this) state (Params.mass params)
      (Params.diameter params) (Params.gravity params)
      (Params.airResistance params) (windArgument params)
  else
    calculateNoAirResistance (Params.velocity params) (Params.angle params)
      (Params.gravity params) t.

(** The loop [for (let t = 0; t < maxTime; t += dt) { ... }], entered at the
    test [t < maxTime] with the locals [t], [state] and [points].  [fuel]
    bounds the number of times the test is evaluated; [None] means that the
    fuel ran out before the loop was left. *)
Fixpoint trajectoryLoop (fuel : nat) (this : TrajectoryPredictor)
  (params : Params.t) (dt maxTime t : R) (state : State)
  (points : list Point) : option (list Point) :=
  match fuel with
  | O => None
  | S fuel' =>
    if num_lt t maxTime then
      let points := points ++ [{| px := x state; py := y state |}] in
      if num_lt (y state) 0 && num_gt t 0.01 then Some points
      else
        let state := predictorStep this params state t in
        trajectoryLoop fuel' this params dt maxTime (t + dt) state points
    else Some points
  end.

Definition calculateTrajectory (fuel : nat) (this : TrajectoryPredictor)
  (params : Params.t) : option (list Point) :=
  let points := [] in
  let dt := 0.05 in
  let maxTime := 30 in
  let state :=
    {| x := 0; y := 0;
       vx := Params.velocity params
             * cos (Params.angle params * PI / 180);
       vy := Params.velocity params
             * sin (Params.angle params * PI / 180) |} in
  trajectoryLoop fuel this params dt maxTime 0 state points.

(** ** The statements of one [update()] tick

    Names for the values that the statements of a tick compute, used to
    state what a tick does. *)

(** The trajectory after the "Store trajectory point" statement. *)
Definition storedTrajectory (p : Projectile) : list Point :=
  if (length (trajectory p) <? maxTrajectoryPoints p)%nat
  then trajectory p ++ [position p]
  else trajectory p.

(** [maxHeight] after the "Track max height" statement. *)
Definition trackedMaxHeight (p : Projectile) : R :=
  if num_gt (y (physicsStep p)) (maxHeight p)
  then y (physicsStep p)
  else maxHeight p.

(** The landing test of a tick that starts in [p]. *)
Definition landsNow (p : Projectile) : bool :=
  num_le (y (physicsStep p)) 0 && num_gt (time p + dt (physics p)) 0.01.

(** A tick does something only when the projectile is flying and has not
    landed. *)
Definition active (p : Projectile) : bool :=
  isFlying p && negb (hasLanded p).

(** The [y] of the states that the physics steps of the next [n] ticks
    produce, in order; a tick that returns at once produces none. *)
Fixpoint observedHeights (n : nat) (p : Projectile) : list R :=
  match n with
  | O => []
  | S k =>
    (if active p then [y (physicsStep p)] else [])
    ++ observedHeights k (update p)
  end.

(** The two flags are not both set. *)
Definition exclusive (p : Projectile) : Prop :=
  ~ (isFlying p = true /\ hasLanded p = true).

(** Whoever has landed, landed at a time past the guard. *)
Definition landedPastGuard (p : Projectile) : Prop :=
  hasLanded p = true -> 0.01 < time p.

(** [pt] is the sample that a tick starting in [q] stores: the tick runs, the
    history is below its cap, and [pt] is the position of [q], the one the
    projectile has before the physics step. *)
Definition sampledAt (q : Projectile) (pt : Point) : Prop :=
  isFlying q = true /\ hasLanded q = false /\
  (length (trajectory q) < maxTrajectoryPoints q)%nat /\
  pt = position q.

(** ** Parameter sets *)

(** No wind reaches the projectile: [params.windSpeed] is absent or 0. *)
Definition windless (params : Params.t) : Prop :=
  match Params.windSpeed params with
  | Some w => w = 0
  | None => True
  end.

(** [params] with its [airResistance] flag set to [b]. *)
Definition withAirResistance (b : bool) (params : Params.t) : Params.t :=
  Params.mk (Params.velocity params) (Params.angle params)
    (Params.mass params) (Params.diameter params) (Params.gravity params)
    b (Params.windSpeed params) (Params.windEnabled params).

(** The launch that the application fires when no control has been touched
    (the initial [this.params] of the application, handed on by
    [createProjectile]): 15 m/s at 45 degrees under 9.81 m/s^2, a ball of
    1 kg and 0.5 m, no drag, no wind. *)
Definition defaultLaunch : Params.t :=
  Params.mk 15 45 1 0.5 9.81 false (Some 0) false.

(** The zero-angle launch: 10 m/s at 0 degrees under 9.81 m/s^2. *)
Definition zeroAngleLaunch : Params.t :=
  Params.mk 10 0 1 0.1 9.81 false (Some 0) false.

(** A slow lob: 0.1 m/s at 30 degrees, a ball of 1 kg and 0.1 m. *)
Definition slowLob : Params.t :=
  Params.mk 0.1 30 1 0.1 9.81 false (Some 0) false.

(** A ball released with drag at speed 0. *)
Definition standingStart : Params.t :=
  Params.mk 0 45 1 0.5 9.81 true (Some 0) false.

(** A slow vertical toss with drag: 0.05 m/s at 90 degrees. *)
Definition verticalToss : Params.t :=
  Params.mk 0.05 90 1 0.1 9.81 true (Some 0) false.

(** The projectile right after [new Projectile(params)] and [launch()],
    field by field (see [launch_newProjectile]). *)
Definition launched (params : Params.t) : Projectile :=
  mkProjectile (Params.velocity params) (Params.angle params)
    (Params.mass params) (Params.diameter params) (Params.gravity params)
    (Params.airResistance params)
    (match Params.windSpeed params with Some w => w | None => 0 end)
    (mkState 0 0
       (Params.velocity params * cos (Params.angle params * PI / 180))
       (Params.velocity params * sin (Params.angle params * PI / 180)))
    0 true false [] 0 0 newPhysicsEngine 500.


(** ** The force laws, in the specification's words *)

(** Drag force magnitude [Fd = 0.5 * rho_air * v^2 * Cd * A] with
    [rho_air = 1.225], [Cd = 0.47] and [A = pi * (diameter / 2)^2]. *)
Definition specDragMagnitude (v diameter : R) : R :=
  0.5 * 1.225 * v ^ 2 * 0.47 * (PI * (diameter / 2) ^ 2).

(** Wind force [Fw = 0.5 * rho_air * windSpeed * |windSpeed| * Cd * A]. *)
Definition specWindForce (windSpeed diameter : R) : R :=
  0.5 * 1.225 * windSpeed * Rabs windSpeed * 0.47
  * (PI * (diameter / 2) ^ 2).

(** The speed [v = sqrt (vx^2 + vy^2)]. *)
Definition speed (vx vy : R) : R := sqrt (vx ^ 2 + vy ^ 2).

(** Drag acceleration: magnitude [Fd / mass], direction opposite the unit
    vector of the velocity; nothing when the speed is 0. *)
Definition specDragAcceleration (vx vy mass diameter : R) : R * R :=
  let v := speed vx vy in
  if num_gt v 0 then
    (- (specDragMagnitude v diameter / mass) * (vx / v),
     - (specDragMagnitude v diameter / mass) * (vy / v))
  else (0, 0).

(** The acceleration [(ax, ay)] of the specification's force model: gravity
    always, drag only if enabled, wind, along x only, only if
    [windSpeed] is not 0. *)
Definition specAcceleration (vx vy mass diameter g : R)
  (dragEnabled : bool) (windSpeed : R) : R * R :=
  let drag :=
    if dragEnabled then specDragAcceleration vx vy mass diameter
    else (0, 0) in
  let wind :=
    if num_neq windSpeed 0 then specWindForce windSpeed diameter / mass
    else 0 in
  (fst drag + wind, - g + snd drag).

(** The Euler step that a tick of a projectile built from [params] takes
    from [s] when drag is on and no wind blows. *)
Definition dragStep (params : Params.t) (s : State) : State :=
  integrateStep newPhysicsEngine s (Params.mass params)
    (Params.diameter params) (Params.gravity params) true 0.

(** The rate [k] with which drag opposes a velocity of magnitude [v]: the
    drag acceleration is [-k * (vx, vy)], with
    [k = 0.5 * 1.225 * 0.47 * A * v / mass]. *)
Definition dragRate (v mass diameter : R) : R :=
  0.5 * 1.225 * 0.47 * (PI * (diameter / 2) ^ 2) * v / mass.

(** The slow lob with drag, and the same launch without. *)
Definition slowLobDrag : Params.t := withAirResistance true slowLob.
Definition slowLobFree : Params.t := withAirResistance false slowLob.

(** ** Euler steps that stay stable *)

(** The constant [kappa = 0.5 * 1.225 * 0.47 * A / mass] of the drag law:
    [dragRate v mass diameter = kappa * v]. *)
Definition dragConstant (mass diameter : R) : R :=
  0.5 * 1.225 * 0.47 * (PI * (diameter / 2) ^ 2) / mass.

(** [B] bounds the speed of the flight of [params] with drag: the launch
    speed is at most [B], and a step of 0.016 from a speed of at most [B]
    neither reverses the velocity nor exceeds [B]. *)
Definition stableBound (params : Params.t) (B : R) : Prop :=
  0 < Params.mass params /\
  0 <= Params.gravity params /\
  Params.velocity params <= B /\
  Params.gravity params * 0.016 <= B /\
  dragConstant (Params.mass params) (Params.diameter params) * B * 0.016
    < 1 /\
  Params.gravity params
    <= dragConstant (Params.mass params) (Params.diameter params)
       * (B - Params.gravity params * 0.016) ^ 2.

(** The velocity points forward and its magnitude is at most [B]. *)
Definition forward (B : R) (s : State) : Prop :=
  0 < vx s /\ speed (vx s) (vy s) <= B.

(** The default launch with the air-resistance box ticked. *)
Definition defaultDrag : Params.t := withAirResistance true defaultLaunch.

(** What every state of the flight of [params] with drag satisfies when [B]
    is a stable bound: the parameters and the engine are those of the
    launch, the velocity points forward within [B], [x] is not negative, and
    a landed projectile has a positive range. *)
Definition dragFlightInv (params : Params.t) (B : R) (p : Projectile)
  : Prop :=
  airResistance p = true /\ windSpeed p = 0 /\
  physics p = newPhysicsEngine /\
  mass p = Params.mass params /\
  diameter p = Params.diameter params /\
  gravity p = Params.gravity params /\
  forward B (state p) /\ 0 <= x (state p) /\
  (hasLanded p = true -> 0 < range p).

(** ** The application's energy read-outs

    [updateAnalysisDisplay()] of the application computes the potential
    energy of the current projectile (as [recordData(projectile)] does) and
    the highest potential energy of its flight; [Math.max(0, y)] is
    [Rmax 0 y]. *)

Definition potentialEnergy (p : Projectile) : R :=
  mass p * gravity p * Rmax 0 (y (state p)).

(** [maxPE] of [updateAnalysisDisplay()]. *)
Definition maxPE (p : Projectile) : R :=
  mass p * gravity p * maxHeight p.

(** ** What a projectile is set up with

    The fields that only the constructor assigns. *)
Definition setup (p : Projectile)
  : R * R * R * R * R * bool * R * PhysicsEngine * nat :=
  (v0 p, angle p, mass p, diameter p, gravity p, airResistance p,
   windSpeed p, physics p, maxTrajectoryPoints p).

(** [range] is the landing position's [x] once landed, and 0 before. *)
Definition rangeRecorded (p : Projectile) : Prop :=
  (hasLanded p = true ->
   isFlying p = false /\ y (state p) = 0 /\ range p = x (state p)) /\
  (hasLanded p = false -> range p = 0).

(** ** The predictor's loop, pass by pass *)

(** The local [state] at the start of pass [j] of the loop of
    [calculateTrajectory] when it is entered at loop time [t] with state [s]
    and no pass before [j] leaves it. *)
Fixpoint loopState (this : TrajectoryPredictor) (params : Params.t)
  (dt t : R) (s : State) (j : nat) : State :=
  match j with
  | O => s
  | S k =>
    loopState this params dt (t + dt) (predictorStep this params s t) k
  end.

(** The initial [state] of [calculateTrajectory]. *)
Definition predictorStart (params : Params.t) : State :=
  {| x := 0; y := 0;
     vx := Params.velocity params * cos (Params.angle params * PI / 180);
     vy := Params.velocity params * sin (Params.angle params * PI / 180) |}.

(** The point [{ x: state.x, y: state.y }] pushed for a state. *)
Definition pointOf (s : State) : Point := {| px := x s; py := y s |}.

(** [n] Euler steps with drag from [s]. *)
Fixpoint dragSteps (params : Params.t) (n : nat) (s : State) : State :=
  match n with
  | O => s
  | S k => dragSteps params k (dragStep params s)
  end.

(** ** class TargetSystem

    The [renderer] field and [draw()] serve drawing only and are left out.
    A target is the object [{x, y, radius, hit, points}]. *)

Module Target.
Record t : Type := mk {
  x : R;
  y : R;
  radius : R;
  hit : bool;
  points : R
}.
End Target.

(** [target.hit = b] *)
Definition setHit (target : Target.t) (b : bool) : Target.t :=
  Target.mk (Target.x target) (Target.y target) (Target.radius target) b
    (Target.points target).

Record TargetSystem : Type := mkTargetSystem {
  targets : list Target.t;
  score : R
}.

(** [new TargetSystem(renderer)] *)
Definition newTargetSystem : TargetSystem :=
  {| targets := []; score := 0 |}.

(** [Math.floor] *)
Definition floor (r : R) : R := IZR (Int_part r).

(** [addTarget(x, y, radius = 1)]; [None] is a missing third argument. *)
Definition addTarget (this : TargetSystem) (x y : R) (radius : option R)
  : TargetSystem :=
  let radius := match radius with Some r => r | None => 1 end in
  {| targets :=
       targets this
       ++ [{| Target.x := x; Target.y := y; Target.radius := radius;
              Target.hit := false;
              Target.points := floor (100 / radius) |}];
     score := score this |}.

(** The test [distance < target.radius + projectileRadius] of
    [checkHit]. *)
Definition inReach (target : Target.t)
  (projectileX projectileY projectileRadius : R) : bool :=
  let dx := projectileX - Target.x target in
  let dy := projectileY - Target.y target in
  let distance := sqrt (dx * dx + dy * dy) in
  num_lt distance (Target.radius target + projectileRadius).

(** The [for ... of this.targets] loop of [checkHit] over the targets not
    yet visited: [Some (targets', points)] when a target is hit, with the
    targets as the loop leaves them and the points to add to the score;
    [None] when the loop ends without a hit. *)
Fixpoint checkHitLoop (remaining : list Target.t)
  (projectileX projectileY projectileRadius : R)
  : option (list Target.t * R) :=
  match remaining with
  | [] => None
  | target :: rest =>
    if Target.hit target then
      match checkHitLoop rest projectileX projectileY projectileRadius with
      | Some (rest', pts) => Some (target :: rest', pts)
      | None => None
      end
    else if inReach target projectileX projectileY projectileRadius then
      Some (setHit target true :: rest, Target.points target)
    else
      match checkHitLoop rest projectileX projectileY projectileRadius with
      | Some (rest', pts) => Some (target :: rest', pts)
      | None => None
      end
  end.

(** [checkHit(projectileX, projectileY, projectileRadius)]: the returned
    boolean and the system after the call. *)
Definition checkHit (this : TargetSystem)
  (projectileX projectileY projectileRadius : R) : bool * TargetSystem :=
  match checkHitLoop (targets this) projectileX projectileY
          projectileRadius with
  | Some (targets', pts) =>
    (true, {| targets := targets'; score := score this + pts |})
  | None => (false, this)
  end.

(** [TargetSystem.reset()] *)
Definition resetTargets (this : TargetSystem) : TargetSystem :=
  {| targets := map (fun target => setHit target false) (targets this);
     score := 0 |}.

(** [TargetSystem.clear()] *)
Definition clearTargets (this : TargetSystem) : TargetSystem :=
  {| targets := []; score := 0 |}.

(** The loop of [createRandomTargets]: [count] more targets, where
    [random k] is the value of the [k]-th call of [Math.random()] from now
    on. *)
Fixpoint createRandomLoop (this : TargetSystem) (count : nat)
  (random : nat -> R) : TargetSystem :=
  match count with
  | O => this
  | S count' =>
    let x := 20 + random 0%nat * 60 in
    let y := 5 + random 1%nat * 20 in
    let radius := 0.5 + random 2%nat * 1.5 in
    createRandomLoop (addTarget this x y (Some radius)) count'
      (fun k => random (3 + k)%nat)
  end.

(** [createRandomTargets(count)] *)
Definition createRandomTargets (this : TargetSystem) (count : nat)
  (random : nat -> R) : TargetSystem :=
  let this := {| targets := []; score := score this |} in
  createRandomLoop this count random.

(** A use of a target system: a sequence of calls other than
    [createRandomTargets]. *)
Inductive TargetCall : Type :=
| AddTarget (x y : R) (radius : option R)
| CheckHit (projectileX projectileY projectileRadius : R)
| ResetTargets
| ClearTargets.

Definition targetCall (c : TargetCall) (this : TargetSystem)
  : TargetSystem :=
  match c with
  | AddTarget x y radius => addTarget this x y radius
  | CheckHit px py pr => snd (checkHit this px py pr)
  | ResetTargets => resetTargets this
  | ClearTargets => clearTargets this
  end.

Definition targetRun (cs : list TargetCall) (this : TargetSystem)
  : TargetSystem :=
  fold_left (fun s c => targetCall c s) cs this.

(** The points of the targets that are hit, added up. *)
Fixpoint hitPoints (ts : list Target.t) : R :=
  match ts with
  | [] => 0
  | t :: rest =>
    (if Target.hit t then Target.points t else 0) + hitPoints rest
  end.

(** [targets.filter(t => t.hit).length], as the animation loop counts the
    hit targets before and after [checkHit]. *)
Definition hitCount (ts : list Target.t) : nat :=
  length (filter Target.hit ts).

(** A target that a [checkHit] call would hit if it came to it: not hit
    yet, and in reach. *)
Definition hittable (target : Target.t)
  (projectileX projectileY projectileRadius : R) : bool :=
  negb (Target.hit target)
  && inReach target projectileX projectileY projectileRadius.

(** What [createRandomTargets] promises of a target when [Math.random()]
    keeps to [0 <= r < 1]. *)
Definition freshRandomTarget (t : Target.t) : Prop :=
  Target.hit t = false /\
  20 <= Target.x t < 80 /\ 5 <= Target.y t < 25 /\
  0.5 <= Target.radius t < 2 /\
  50 <= Target.points t <= 200.

(** ** Euler steps without drag *)

(** [n] calls of [integrateStep] in a row, each on the state the previous
    one returned. *)
Fixpoint eulerSteps (mass diameter g : R) (airResistance : bool)
  (windSpeed : R) (n : nat) (s : State) : State :=
  match n with
  | O => s
  | S k =>
    eulerSteps mass diameter g airResistance windSpeed k
      (integrateStep newPhysicsEngine s mass diameter g airResistance
         windSpeed)
  end.

(** The state [n] steps of 0.016 after [s] under the constant acceleration
    [(a, - g)], as the sums of the Euler scheme give it. *)
Definition eulerParabola (a g : R) (n : nat) (s : State) : State :=
  {| x := x s + INR n * vx s * 0.016
          + a * 0.016 * 0.016 * (INR n * (INR n - 1) / 2);
     y := y s + INR n * vy s * 0.016
          - g * 0.016 * 0.016 * (INR n * (INR n - 1) / 2);
     vx := vx s + INR n * a * 0.016;
     vy := vy s - INR n * g * 0.016 |}.

(** A launch with wind and without drag: 15 m/s at 45 degrees, a ball of
    1 kg and 0.5 m, a tailwind of 5 m/s. *)
Definition windyLaunch : Params.t :=
  Params.mk 15 45 1 0.5 9.81 false (Some 5) true.

(** ** class TapeMeasure

    The [renderer] field and [draw()] serve drawing only and are left out.
    [null] points are [None]. *)

Module TapeMeasure.
Record t : Type := mk {
  isActive : bool;
  startPoint : option Point;
  endPoint : option Point;
  isDragging : bool
}.

(** [new TapeMeasure(renderer)] *)
Definition new : t :=
  {| isActive := false; startPoint := None; endPoint := None;
     isDragging := false |}.

Definition start (this : t) (worldX worldY : R) : t :=
  {| isActive := true;
     startPoint := Some {| px := worldX; py := worldY |};
     endPoint := Some {| px := worldX; py := worldY |};
     isDragging := isDragging this |}.

Definition update (this : t) (worldX worldY : R) : t :=
  if isActive this then
    {| isActive := isActive this;
       startPoint := startPoint this;
       endPoint := Some {| px := worldX; py := worldY |};
       isDragging := isDragging this |}
  else this.

Definition finish (this : t) : t :=
  {| isActive := isActive this; startPoint := startPoint this;
     endPoint := endPoint this; isDragging := false |}.

Definition clear (this : t) : t :=
  {| isActive := false; startPoint := None; endPoint := None;
     isDragging := isDragging this |}.

(** The assignment [tapeMeasure.isDragging = true] that the application's
    mouse and touch handlers make after [start]. *)
Definition drag (this : t) : t :=
  {| isActive := isActive this; startPoint := startPoint this;
     endPoint := endPoint this; isDragging := true |}.

Definition getDistance (this : t) : R :=
  match startPoint this, endPoint this with
  | Some startPoint, Some endPoint =>
    let dx := px endPoint - px startPoint in
    let dy := py endPoint - py startPoint in
    sqrt (dx * dx + dy * dy)
  | _, _ => 0
  end.

(** A use of a tape measure: a sequence of calls. *)
Inductive Call : Type :=
| Start (worldX worldY : R)
| Update (worldX worldY : R)
| Finish
| Clear
| Drag.

Definition call (c : Call) (this : t) : t :=
  match c with
  | Start a b => start this a b
  | Update a b => update this a b
  | Finish => finish this
  | Clear => clear this
  | Drag => drag this
  end.

Definition run (cs : list Call) (this : t) : t :=
  fold_left (fun s c => call c s) cs this.
End TapeMeasure.

(** ** class Particle and class ParticleEmitter

    The fields [color] and [type] and the methods [draw(ctx)] serve drawing
    only and are left out.  [Math.random()] is a sequence [random] of
    values and the number [i] of calls made so far; a function that may
    call it returns the advanced [i] with its result. *)

(** The [config] object of [emit] and of [new Particle]: every field may be
    missing. *)
Module Config.
Record t : Type := mk {
  vx : option R;
  vy : option R;
  speed : option R;
  life : option R;
  size : option R;
  alpha : option R;
  gravity : option R;
  friction : option R;
  fadeRate : option R;
  shrinkRate : option R
}.
End Config.

(** [a || b] for an optional number [a] and a number [b]: [a] unless it
    is missing or 0. *)
Definition orElse (a : option R) (b : R) : R :=
  match a with
  | Some r => if Req_dec_T r 0 then b else r
  | None => b
  end.

(** [a || f(Math.random())]: [Math.random()] is called only when [a] is
    missing or 0. *)
Definition orRandom (a : option R) (f : R -> R) (random : nat -> R)
  (i : nat) : R * nat :=
  match a with
  | Some r => if Req_dec_T r 0 then (f (random i), S i) else (r, i)
  | None => (f (random i), S i)
  end.

Module Particle.
Record t : Type := mk {
  x : R;
  y : R;
  vx : R;
  vy : R;
  life : R;
  maxLife : R;
  size : R;
  alpha : R;
  gravity : R;
  friction : R;
  fadeRate : R;
  shrinkRate : R;
  rotation : R;
  rotationSpeed : R
}.

(** [new Particle(x, y, config)] *)
Definition new (x y : R) (config : Config.t) (random : nat -> R) (i : nat)
  : t * nat :=
  let '(vx, i) :=
    orRandom (Config.vx config) (fun r => (r - 0.5) * 2) random i in
  let '(vy, i) :=
    orRandom (Config.vy config) (fun r => (r - 0.5) * 2) random i in
  let rotation := random i * PI * 2 in
  let i := S i in
  let rotationSpeed := (random i - 0.5) * 0.2 in
  let i := S i in
  ({| x := x; y := y; vx := vx; vy := vy;
      life := orElse (Config.life config) 1.0;
      maxLife := orElse (Config.life config) 1.0;
      size := orElse (Config.size config) 3;
      alpha := orElse (Config.alpha config) 1.0;
      gravity := orElse (Config.gravity config) 0;
      friction := orElse (Config.friction config) 0.98;
      fadeRate := orElse (Config.fadeRate config) 0.02;
      shrinkRate := orElse (Config.shrinkRate config) 0.05;
      rotation := rotation;
      rotationSpeed := rotationSpeed |}, i).

(** The particle after [update(dt)]. *)
Definition update (this : t) (dt : R) : t :=
  let x := x this + vx this * dt in
  let y := y this + vy this * dt in
  let vy := vy this + gravity this * dt in
  let vx := vx this * friction this in
  let vy := vy * friction this in
  let life := life this - fadeRate this * dt in
  let alpha := Rmax 0 (life / maxLife this) in
  let size := Rmax 0.1 (size this - shrinkRate this * dt) in
  let rotation := rotation this + rotationSpeed this * dt in
  {| x := x; y := y; vx := vx; vy := vy; life := life;
     maxLife := maxLife this; size := size; alpha := alpha;
     gravity := gravity this; friction := friction this;
     fadeRate := fadeRate this; shrinkRate := shrinkRate this;
     rotation := rotation; rotationSpeed := rotationSpeed this |}.

(** [this.life > 0], the value that [update(dt)] returns, read off the
    particle that [update] leaves. *)
Definition alive (this : t) : bool := num_gt (life this) 0.
End Particle.

Module ParticleEmitter.
Record t : Type := mk {
  particles : list Particle.t;
  maxParticles : nat
}.

(** [new ParticleEmitter()] *)
Definition new : t := {| particles := []; maxParticles := 1000 |}.

(** [this.particles = l] *)
Definition setParticles (this : t) (l : list Particle.t) : t :=
  {| particles := l; maxParticles := maxParticles this |}.

(** [emit(x, y, count, config)]: the emitter after the loop and the number
    of [Math.random()] calls made. *)
Fixpoint emit (this : t) (x y : R) (count : nat) (config : Config.t)
  (random : nat -> R) (i : nat) : t * nat :=
  match count with
  | O => (this, i)
  | S count' =>
    let this :=
      if (maxParticles this <=? length (particles this))%nat
      then setParticles this (tl (particles this))
      else this in
    let '(vx, i) :=
      orRandom (Config.vx config)
        (fun r => (r - 0.5) * orElse (Config.speed config) 2) random i in
    let '(vy, i) :=
      orRandom (Config.vy config)
        (fun r => (r - 0.5) * orElse (Config.speed config) 2) random i in
    let particleConfig :=
      {| Config.vx := Some vx;
         Config.vy := Some vy;
         Config.speed := None;
         Config.life := Some (orElse (Config.life config) 1.0);
         Config.size := Some (orElse (Config.size config) 3);
         Config.alpha := Some (orElse (Config.alpha config) 1.0);
         Config.gravity := Some (orElse (Config.gravity config) 0);
         Config.friction := Some (orElse (Config.friction config) 0.98);
         Config.fadeRate := Some (orElse (Config.fadeRate config) 0.02);
         Config.shrinkRate :=
           Some (orElse (Config.shrinkRate config) 0.05) |} in
    let '(particle, i) := Particle.new x y particleConfig random i in
    let this := setParticles this (particles this ++ [particle]) in
    emit this x y count' config random i
  end.

(** [update(dt)]: every particle is updated, the ones whose [update]
    returned true are kept. *)
Definition update (this : t) (dt : R) : t :=
  setParticles this
    (filter Particle.alive
       (map (fun particle => Particle.update particle dt)
          (particles this))).

Definition clear (this : t) : t := setParticles this [].

Definition getCount (this : t) : nat := length (particles this).

(** [n] calls of [update(dt)]. *)
Fixpoint updates (n : nat) (this : t) (dt : R) : t :=
  match n with
  | O => this
  | S k => updates k (update this dt) dt
  end.
End ParticleEmitter.

(** The Euclidean distance between two points. *)
Definition pointDistance (a b : Point) : R :=
  sqrt ((px b - px a) * (px b - px a) + (py b - py a) * (py b - py a)).

(** A tape measure is either inactive with no points, or active with both
    points set. *)
Definition tapeConsistent (this : TapeMeasure.t) : Prop :=
  (TapeMeasure.isActive this = false /\
   TapeMeasure.startPoint this = None /\
   TapeMeasure.endPoint this = None) \/
  (TapeMeasure.isActive this = true /\
   exists a b : Point,
     TapeMeasure.startPoint this = Some a /\
     TapeMeasure.endPoint this = Some b).

(** [n] calls of [update(dt)] on one particle. *)
Fixpoint particleUpdates (n : nat) (p : Particle.t) (dt : R) : Particle.t :=
  match n with
  | O => p
  | S k => particleUpdates k (Particle.update p dt) dt
  end.

(** One [ParticleEmitter.update(dt)] on the list of particles, and [n] of
    them. *)
Definition ageParticles (dt : R) (l : list Particle.t) : list Particle.t :=
  filter Particle.alive (map (fun particle => Particle.update particle dt) l).

Fixpoint ageParticlesBy (n : nat) (dt : R) (l : list Particle.t)
  : list Particle.t :=
  match n with
  | O => l
  | S k => ageParticlesBy k dt (ageParticles dt l)
  end.

(** A particle sits at [(x, y)]. *)
Definition particleAt (x y : R) (p : Particle.t) : Prop :=
  Particle.x p = x /\ Particle.y p = y.

(** The life of a particle is positive at its birth and never above
    [maxLife], and it does not grow with a step [dt]. *)
Definition fading (dt : R) (p : Particle.t) : Prop :=
  0 < Particle.maxLife p /\
  Particle.life p <= Particle.maxLife p /\
  0 <= Particle.fadeRate p * dt.


(** ** class Renderer: the coordinate system (src/js/ui.js)

    Only the fields of the coordinate system are kept.  [originY] is
    [null] ([None]) after the constructor; in arithmetic [null] counts as 0
    ([numberOf]). *)

(** The number an operand stands for in arithmetic: [null] is 0. *)
Definition numberOf (a : option R) : R :=
  match a with
  | Some r => r
  | None => 0
  end.

Module Renderer.
Record t : Type := mk {
  canvasWidth : R;
  canvasHeight : R;
  scale : R;
  originX : R;
  originY : option R
}.

(** [resizeCanvas()], with the size of the parent element of the canvas. *)
Definition resizeCanvas (this : t) (clientWidth clientHeight : R) : t :=
  let width := clientWidth - 40 in
  let height := clientHeight - 40 in
  {| canvasWidth := width; canvasHeight := height;
     scale := scale this; originX := originX this;
     originY := Some (height - 80) |}.

(** [new Renderer(canvas)]: [resizeCanvas()] runs first, the assignments
    of [scale], [originX] and [originY = null] follow it. *)
Definition new (clientWidth clientHeight : R) : t :=
  let this :=
    resizeCanvas
      {| canvasWidth := 0; canvasHeight := 0; scale := 0; originX := 0;
         originY := None |} clientWidth clientHeight in
  {| canvasWidth := canvasWidth this; canvasHeight := canvasHeight this;
     scale := 10; originX := 80; originY := None |}.

Definition worldToScreen (this : t) (x y : R) : Point :=
  {| px := originX this + x * scale this;
     py := numberOf (originY this) - y * scale this |}.

Definition screenToWorld (this : t) (screenX screenY : R) : Point :=
  {| px := (screenX - originX this) / scale this;
     py := (numberOf (originY this) - screenY) / scale this |}.
End Renderer.



(** ** The tape-measure handlers of the application (src/js/main.js)

    The part of [ProjectileMotionApp] that the handlers of
    [initializeCanvasInteraction] and of the tape-measure checkbox read and
    write.  [screenX] and [screenY] are the coordinates of the pointer
    relative to the canvas. *)

Module App.
Record t : Type := mk {
  renderer : Renderer.t;
  tapeMeasure : TapeMeasure.t;
  tapeMeasureActive : bool
}.

Definition setTapeMeasure (this : t) (m : TapeMeasure.t) : t :=
  {| renderer := renderer this; tapeMeasure := m;
     tapeMeasureActive := tapeMeasureActive this |}.

(** The [change] handler of the checkbox. *)
Definition tapeMeasureChange (this : t) (checked : bool) : t :=
  {| renderer := renderer this;
     tapeMeasure :=
       if negb checked then TapeMeasure.clear (tapeMeasure this)
       else tapeMeasure this;
     tapeMeasureActive := checked |}.

Definition mousedown (this : t) (screenX screenY : R) : t :=
  if negb (tapeMeasureActive this) then this
  else
    let worldX :=
      (screenX - Renderer.originX (renderer this))
      / Renderer.scale (renderer this) in
    let worldY :=
      (numberOf (Renderer.originY (renderer this)) - screenY)
      / Renderer.scale (renderer this) in
    setTapeMeasure this
      (TapeMeasure.drag
         (TapeMeasure.start (tapeMeasure this) worldX worldY)).

Definition mousemove (this : t) (screenX screenY : R) : t :=
  if negb (tapeMeasureActive this)
     || negb (TapeMeasure.isDragging (tapeMeasure this))
  then this
  else
    let worldX :=
      (screenX - Renderer.originX (renderer this))
      / Renderer.scale (renderer this) in
    let worldY :=
      (numberOf (Renderer.originY (renderer this)) - screenY)
      / Renderer.scale (renderer this) in
    setTapeMeasure this
      (TapeMeasure.update (tapeMeasure this) worldX worldY).

Definition mouseup (this : t) : t :=
  if TapeMeasure.isDragging (tapeMeasure this)
  then setTapeMeasure this (TapeMeasure.finish (tapeMeasure this))
  else this.

(** Mouse moves to the given points, one after the other. *)
Definition mousemoves (ms : list (R * R)) (this : t) : t :=
  fold_left (fun s m => mousemove s (fst m) (snd m)) ms this.

(** The two screen points between which [TapeMeasure.draw()] draws its
    line: [worldToScreen] of the start and of the end point. *)
Definition drawnSegment (this : t) : option (Point * Point) :=
  if negb (TapeMeasure.isActive (tapeMeasure this)) then None
  else
    match TapeMeasure.startPoint (tapeMeasure this),
          TapeMeasure.endPoint (tapeMeasure this) with
    | Some a, Some b =>
      Some (Renderer.worldToScreen (renderer this) (px a) (py a),
            Renderer.worldToScreen (renderer this) (px b) (py b))
    | _, _ => None
    end.
End App.

(** ** class CameraSystem (src/js/sound.js) *)

Module CameraSystem.
Record t : Type := mk {
  canvasWidth : R;
  canvasHeight : R;
  zoom : R;
  targetZoom : R;
  offset : Point;
  targetOffset : Point;
  smoothing : R;
  autoTrack : bool
}.

(** [new CameraSystem(canvas)] *)
Definition new (width height : R) : t :=
  {| canvasWidth := width; canvasHeight := height;
     zoom := 1.0; targetZoom := 1.0;
     offset := {| px := 0; py := 0 |};
     targetOffset := {| px := 0; py := 0 |};
     smoothing := 0.1; autoTrack := true |}.

Definition update (this : t) : t :=
  {| canvasWidth := canvasWidth this; canvasHeight := canvasHeight this;
     zoom := zoom this + (targetZoom this - zoom this) * smoothing this;
     targetZoom := targetZoom this;
     offset :=
       {| px := px (offset this)
                + (px (targetOffset this) - px (offset this))
                  * smoothing this;
          py := py (offset this)
                + (py (targetOffset this) - py (offset this))
                  * smoothing this |};
     targetOffset := targetOffset this;
     smoothing := smoothing this; autoTrack := autoTrack this |}.

Definition setZoom (this : t) (z : R) : t :=
  {| canvasWidth := canvasWidth this; canvasHeight := canvasHeight this;
     zoom := zoom this;
     targetZoom := Rmax 0.5 (Rmin 2.0 z);
     offset := offset this; targetOffset := targetOffset this;
     smoothing := smoothing this; autoTrack := autoTrack this |}.

Definition setTargetOffset (this : t) (o : Point) : t :=
  {| canvasWidth := canvasWidth this; canvasHeight := canvasHeight this;
     zoom := zoom this; targetZoom := targetZoom this;
     offset := offset this; targetOffset := o;
     smoothing := smoothing this; autoTrack := autoTrack this |}.

Definition setOffset (this : t) (x y : R) : t :=
  setTargetOffset this {| px := x; py := y |}.

Definition trackProjectile (this : t) (projectileX projectileY : R) : t :=
  if negb (autoTrack this) then this
  else
    let screenX := projectileX - px (offset this) in
    let pan :=
      setTargetOffset this
        {| px := px (targetOffset this)
                 + (screenX - canvasWidth this * 0.5) * 0.1;
           py := py (targetOffset this) |} in
    if num_gt screenX (canvasWidth this * 0.7) then pan
    else if num_lt screenX (canvasWidth this * 0.3) then pan
    else this.

Definition reset (this : t) : t :=
  {| canvasWidth := canvasWidth this; canvasHeight := canvasHeight this;
     zoom := 1.0; targetZoom := 1.0;
     offset := {| px := 0; py := 0 |};
     targetOffset := {| px := 0; py := 0 |};
     smoothing := smoothing this; autoTrack := autoTrack this |}.

Inductive Call : Type :=
| Update
| SetZoom (z : R)
| SetOffset (x y : R)
| TrackProjectile (projectileX projectileY : R)
| Reset.

Definition call (c : Call) (this : t) : t :=
  match c with
  | Update => update this
  | SetZoom z => setZoom this z
  | SetOffset x y => setOffset this x y
  | TrackProjectile x y => trackProjectile this x y
  | Reset => reset this
  end.

Definition run (cs : list Call) (this : t) : t :=
  fold_left (fun s c => call c s) cs this.

(** [n] calls of [update()]. *)
Fixpoint updates (n : nat) (this : t) : t :=
  match n with
  | O => this
  | S k => updates k (update this)
  end.
End CameraSystem.

(** ** class Graph: the data and the horizontal axis (src/js/sound.js)

    The fields of the configuration that [addDataPoint] and [xToScreen]
    read and write, the data, and the plot width that [resizeCanvas]
    computes. *)

(** [Math.ceil] *)
Definition ceil (r : R) : R := - floor (- r).

Module Graph.
Record t : Type := mk {
  xMin : R;
  xMax : R;
  data : list Point;
  maxDataPoints : nat;
  marginLeft : R;
  plotWidth : R
}.

Definition addDataPoint (this : t) (x y : R) : t :=
  let data := data this ++ [{| px := x; py := y |}] in
  let data :=
    if (maxDataPoints this <? length data)%nat then tl data else data in
  let xMax :=
    if num_gt x (xMax this) then ceil (x / 5) * 5 else xMax this in
  {| xMin := xMin this; xMax := xMax; data := data;
     maxDataPoints := maxDataPoints this;
     marginLeft := marginLeft this; plotWidth := plotWidth this |}.

Definition clear (this : t) : t :=
  {| xMin := xMin this; xMax := xMax this; data := [];
     maxDataPoints := maxDataPoints this;
     marginLeft := marginLeft this; plotWidth := plotWidth this |}.

Definition xToScreen (this : t) (x : R) : R :=
  marginLeft this
  + ((x - xMin this) / (xMax this - xMin this)) * plotWidth this.

Inductive Call : Type :=
| AddDataPoint (x y : R)
| Clear.

Definition call (c : Call) (this : t) : t :=
  match c with
  | AddDataPoint x y => addDataPoint this x y
  | Clear => clear this
  end.

Definition run (cs : list Call) (this : t) : t :=
  fold_left (fun s c => call c s) cs this.
End Graph.

(** The data of a graph fit its horizontal axis and its capacity. *)
Definition graphFits (g : Graph.t) : Prop :=
  Graph.xMin g < Graph.xMax g /\
  Forall (fun p => px p <= Graph.xMax g) (Graph.data g) /\
  (length (Graph.data g) <= Graph.maxDataPoints g)%nat.

(** ** class Leaderboard (src/js/leaderboard.js)

    The item of [localStorage] is the list of entries that
    [getLeaderboard()] parses from it, the empty list when the item is
    missing.  The fields [timestamp] and [date] of an entry come from the
    clock and are left out.  [addScore] asks [prompt] for a name when it is
    given none; the answer is an argument here. *)

(** [Math.round], of the exact value of its argument. *)
Definition round (r : R) : R := floor (r + 0.5).

(** [array.findIndex(f)], -1 when no element satisfies [f]. *)
Fixpoint findIndex {A : Type} (f : A -> bool) (l : list A) : Z :=
  match l with
  | [] => (-1)%Z
  | a :: l' =>
    if f a then 0%Z
    else
      let i := findIndex f l' in
      if (i <? 0)%Z then (-1)%Z else (i + 1)%Z
  end.

Module Leaderboard.
Import String.

Record Entry : Type := mkEntry {
  name : String.string;
  score : R;
  targetsHit : R;
  totalTargets : R;
  accuracy : R
}.

Record t : Type := mk {
  storage : list Entry;
  maxEntries : nat
}.

(** [new Leaderboard()], over what [localStorage] holds. *)
Definition new (storage : list Entry) : t :=
  {| storage := storage; maxEntries := 10 |}.

Definition getLeaderboard (this : t) : list Entry := storage this.

Definition saveLeaderboard (this : t) (leaderboard : list Entry) : t :=
  {| storage := leaderboard; maxEntries := maxEntries this |}.

Definition clearLeaderboard (this : t) : t := saveLeaderboard this [].

(** A name that counts as given: neither [null] nor the empty string. *)
Definition given (s : option String.string) : option String.string :=
  match s with
  | Some s => if String.eqb s String.EmptyString then None else Some s
  | None => None
  end.

(** An element of the array that [addScore] sorts: an entry, and whether
    it is the object [entry] that this call has built (the entries parsed
    from the storage are other objects). *)
Definition Item : Type := (bool * Entry)%type.

(** [leaderboard.sort((a, b) => b.score - a.score)]: the sort is stable,
    so an element comes to stand before the elements after it that have no
    higher score. *)
Fixpoint insertByScore (e : Item) (l : list Item) : list Item :=
  match l with
  | [] => [e]
  | e' :: l' =>
    if num_le (score (snd e')) (score (snd e)) then e :: e' :: l'
    else e' :: insertByScore e l'
  end.

Fixpoint sortByScore (l : list Item) : list Item :=
  match l with
  | [] => []
  | e :: l' => insertByScore e (sortByScore l')
  end.

(** The object [entry] that [addScore] builds. *)
Definition newEntry (score targetsHit totalTargets : R)
  (playerName prompted : option String.string) : Entry :=
  let playerName :=
    match given playerName with
    | Some n => n
    | None =>
      match given prompted with
      | Some n => n
      | None => "Anonymous"%string
      end
    end in
  {| name := playerName; score := score; targetsHit := targetsHit;
     totalTargets := totalTargets;
     accuracy :=
       if num_gt totalTargets 0
       then round (targetsHit / totalTargets * 100) else 0 |}.

(** [addScore(score, targetsHit, totalTargets, playerName)]: the
    leaderboard after the call and the rank returned. *)
Definition addScore (this : t) (score targetsHit totalTargets : R)
  (playerName prompted : option String.string) : t * Z :=
  let entry :=
    newEntry score targetsHit totalTargets playerName prompted in
  let leaderboard := getLeaderboard this in
  let leaderboard := map (pair false) leaderboard ++ [(true, entry)] in
  let leaderboard := sortByScore leaderboard in
  let trimmed := firstn (maxEntries this) leaderboard in
  let this := saveLeaderboard this (map snd trimmed) in
  let rank := (findIndex fst trimmed + 1)%Z in
  (this, rank).

Definition getPlayerRank (this : t) (playerName : String.string) : Z :=
  let leaderboard := getLeaderboard this in
  let index := findIndex (fun e => String.eqb (name e) playerName)
                 leaderboard in
  if (0 <=? index)%Z then (index + 1)%Z else (-1)%Z.

Definition getTopScore (this : t) : R :=
  match getLeaderboard this with
  | e :: _ => score e
  | [] => 0
  end.

(** The scores submitted one after the other, each with the targets hit,
    the total of targets and the names. *)
Record Submission : Type := mkSubmission {
  subScore : R;
  subTargetsHit : R;
  subTotalTargets : R;
  subPlayerName : option String.string;
  subPrompted : option String.string
}.

Definition submit (s : Submission) (this : t) : t :=
  fst (addScore this (subScore s) (subTargetsHit s) (subTotalTargets s)
         (subPlayerName s) (subPrompted s)).

Definition submitAll (ss : list Submission) (this : t) : t :=
  fold_left (fun l s => submit s l) ss this.
End Leaderboard.

(** Scores fall (not strictly) along the list. *)
Fixpoint fallingScores (l : list Leaderboard.Entry) : Prop :=
  match l with
  | [] => True
  | e :: l' =>
    Forall (fun e' => Leaderboard.score e' <= Leaderboard.score e) l'
    /\ fallingScores l'
  end.

(** The number of entries whose score is at least [s]. *)
Definition countAtLeast (s : R) (l : list Leaderboard.Entry) : nat :=
  length (filter (fun e => num_le s (Leaderboard.score e)) l).
(** * Properties *)

(** ** Comparisons *)

Lemma num_lt_true (a b : R) : num_lt a b = true <-> a < b.
Proof.
  unfold num_lt. destruct (Rlt_dec a b); split; intros; auto; discriminate.
Qed.

Lemma num_lt_false (a b : R) : num_lt a b = false <-> b <= a.
Proof.
  unfold num_lt. destruct (Rlt_dec a b); split; intros; auto;
    try discriminate; lra.
Qed.

Lemma num_le_true (a b : R) : num_le a b = true <-> a <= b.
Proof.
  unfold num_le. destruct (Rle_dec a b); split; intros; auto; discriminate.
Qed.

Lemma num_le_false (a b : R) : num_le a b = false <-> b < a.
Proof.
  unfold num_le. destruct (Rle_dec a b); split; intros; auto;
    try discriminate; lra.
Qed.

Lemma num_gt_true (a b : R) : num_gt a b = true <-> b < a.
Proof. unfold num_gt. apply num_lt_true. Qed.

Lemma num_gt_false (a b : R) : num_gt a b = false <-> a <= b.
Proof. unfold num_gt. apply num_lt_false. Qed.

Lemma num_neq_true (a b : R) : num_neq a b = true <-> a <> b.
Proof.
  unfold num_neq. destruct (Req_dec_T a b); split; intros; auto;
    try discriminate; contradiction.
Qed.

Lemma num_neq_false (a b : R) : num_neq a b = false <-> a = b.
Proof.
  unfold num_neq. destruct (Req_dec_T a b); split; intros; auto;
    try discriminate; contradiction.
Qed.

(** ** One tick, case by case *)

Lemma update_idle (p : Projectile) :
  isFlying p = false \/ hasLanded p = true -> update p = p.
Proof.
  intros [H | H]; unfold update; rewrite H; auto.
  now rewrite orb_true_r.
Qed.

Lemma update_landing (p : Projectile) :
  isFlying p = true -> hasLanded p = false -> landsNow p = true ->
  update p =
  mkProjectile (v0 p) (angle p) (mass p) (diameter p) (gravity p)
    (airResistance p) (windSpeed p) (set_y (physicsStep p) 0)
    (time p + dt (physics p)) false true (storedTrajectory p)
    (trackedMaxHeight p) (x (physicsStep p)) (physics p)
    (maxTrajectoryPoints p).
Proof.
  intros Hf Hl. unfold landsNow, trackedMaxHeight, storedTrajectory, update.
  rewrite Hf, Hl. destruct p as [a b c d e f g s t fl ld tr mh rg ph cap].
  cbn [negb orb]. unfold physicsStep, position.
  destruct (length _ <? _)%nat; cbn -[integrateStep calculateNoAirResistance];
    destruct (num_gt _ mh); cbn -[integrateStep calculateNoAirResistance];
    intros ->; reflexivity.
Qed.

Lemma update_flying (p : Projectile) :
  isFlying p = true -> hasLanded p = false -> landsNow p = false ->
  update p =
  mkProjectile (v0 p) (angle p) (mass p) (diameter p) (gravity p)
    (airResistance p) (windSpeed p) (physicsStep p)
    (time p + dt (physics p)) true false (storedTrajectory p)
    (trackedMaxHeight p) (range p) (physics p)
    (maxTrajectoryPoints p).
Proof.
  intros Hf Hl. unfold landsNow, trackedMaxHeight, storedTrajectory, update.
  rewrite Hf, Hl. destruct p as [a b c d e f g s t fl ld tr mh rg ph cap].
  cbn [negb orb]. unfold physicsStep, position.
  cbn in Hf, Hl. subst fl ld.
  destruct (length _ <? _)%nat; cbn -[integrateStep calculateNoAirResistance];
    destruct (num_gt _ mh); cbn -[integrateStep calculateNoAirResistance];
    intros ->; reflexivity.
Qed.

(** ** Landing is terminal *)

Lemma ticks_idle (n : nat) (p : Projectile) :
  isFlying p = false \/ hasLanded p = true -> ticks n p = p.
Proof.
  intros H. induction n as [| n IH]; cbn [ticks]; auto.
  now rewrite (update_idle p H).
Qed.

(** C5.  Once [hasLanded] is true, [update()] returns the projectile
    unchanged, field for field, however often it is called; in particular
    [hasLanded] stays true, and a flight that lands on a tick keeps, under
    all further ticks, the values that this tick left. *)
Theorem landed_update_noop :
  (forall p : Projectile, hasLanded p = true ->
     update p = p /\
     forall n : nat, ticks n p = p /\ hasLanded (ticks n p) = true) /\
  (forall p : Projectile, hasLanded (update p) = true ->
     forall n : nat, ticks n (update p) = update p).
Proof.
  split.
  - intros p H. split.
    + apply update_idle. now right.
    + intros n. rewrite ticks_idle by now right. auto.
  - intros p H n. apply ticks_idle. now right.
Qed.

(** ** The flags *)

Lemma reset_flags (p : Projectile) :
  isFlying (reset p) = false /\ hasLanded (reset p) = false.
Proof. split; reflexivity. Qed.

Lemma launch_flags (p : Projectile) :
  isFlying (launch p) = true /\ hasLanded (launch p) = false.
Proof. split; reflexivity. Qed.

Lemma newProjectile_flags (params : Params.t) :
  isFlying (newProjectile params) = false /\
  hasLanded (newProjectile params) = false.
Proof. split; reflexivity. Qed.

Lemma update_exclusive (p : Projectile) : exclusive p -> exclusive (update p).
Proof.
  intros H.
  destruct (isFlying p) eqn:Hf; [destruct (hasLanded p) eqn:Hl |].
  - exfalso. apply H. now rewrite Hf, Hl.
  - destruct (landsNow p) eqn:Hn.
    + rewrite update_landing by assumption. intros [A _]. discriminate.
    + rewrite update_flying by assumption. intros [_ A]. discriminate.
  - rewrite update_idle by now left. exact H.
Qed.

Lemma call_exclusive (c : Call) (p : Projectile) :
  exclusive p -> exclusive (call c p).
Proof.
  destruct c; cbn [call]; intros H.
  - intros [_ A]. discriminate.
  - now apply update_exclusive.
  - intros [A _]. discriminate.
Qed.

Lemma run_exclusive (cs : list Call) :
  forall p : Projectile, exclusive p -> exclusive (run cs p).
Proof.
  induction cs as [| c cs IH]; intros p H; cbn; auto.
  apply IH. now apply call_exclusive.
Qed.

(** C7.  In every state reached from [new Projectile(params)] by any
    sequence of [launch()], [update()] and [reset()] calls, [isFlying] and
    [hasLanded] are not both true; and both are false right after
    construction and right after every [reset()]. *)
Theorem flags_mutually_exclusive :
  (forall (params : Params.t) (cs : list Call),
     ~ (isFlying (run cs (newProjectile params)) = true /\
        hasLanded (run cs (newProjectile params)) = true)) /\
  (forall params : Params.t,
     isFlying (newProjectile params) = false /\
     hasLanded (newProjectile params) = false) /\
  (forall (params : Params.t) (cs : list Call),
     isFlying (run (cs ++ [Reset]) (newProjectile params)) = false /\
     hasLanded (run (cs ++ [Reset]) (newProjectile params)) = false).
Proof.
  split; [| split].
  - intros params cs. apply run_exclusive. intros [A _]. discriminate.
  - apply newProjectile_flags.
  - intros params cs. unfold run. rewrite fold_left_app. cbn [fold_left call].
    apply reset_flags.
Qed.

Lemma landed_update_noop_witness :
  let p := mkProjectile 10 0 1 0.1 9.81 false 0 (mkState 0 0 10 0) 0.016
             false true [mkPoint 0 0] 0 0 newPhysicsEngine 500 in
  hasLanded p = true /\ update p = p.
Proof.
  intros p. split; [reflexivity |].
  exact (proj1 (proj1 landed_update_noop p eq_refl)).
Defined.

(** ** The landing test *)

Lemma landsNow_true (p : Projectile) :
  landsNow p = true <->
  y (physicsStep p) <= 0 /\ 0.01 < time p + dt (physics p).
Proof.
  unfold landsNow. rewrite andb_true_iff, num_le_true, num_gt_true. tauto.
Qed.

Lemma update_time (p : Projectile) :
  isFlying p = true -> hasLanded p = false ->
  time (update p) = time p + dt (physics p).
Proof.
  intros Hf Hl. destruct (landsNow p) eqn:Hn.
  - now rewrite update_landing.
  - now rewrite update_flying.
Qed.

Lemma update_hasLanded (p : Projectile) :
  isFlying p = true -> hasLanded p = false ->
  hasLanded (update p) = landsNow p.
Proof.
  intros Hf Hl. destruct (landsNow p) eqn:Hn.
  - now rewrite update_landing.
  - now rewrite update_flying.
Qed.

Lemma update_landedPastGuard (p : Projectile) :
  landedPastGuard p -> landedPastGuard (update p).
Proof.
  intros H.
  destruct (isFlying p) eqn:Hf; [destruct (hasLanded p) eqn:Hl |].
  - rewrite update_idle by now right. exact H.
  - intros A. rewrite update_hasLanded in A by assumption.
    rewrite update_time by assumption. now apply landsNow_true in A.
  - rewrite update_idle by now left. exact H.
Qed.

Lemma run_landedPastGuard (cs : list Call) :
  forall p : Projectile, landedPastGuard p -> landedPastGuard (run cs p).
Proof.
  induction cs as [| c cs IH]; intros p H; cbn; auto.
  apply IH. destruct c; cbn [call].
  - intros A. discriminate.
  - now apply update_landedPastGuard.
  - intros A. discriminate.
Qed.

(** C2.  A tick that starts flying (and not landed) ends with [hasLanded]
    true exactly when the state computed by the physics step has [y <= 0]
    and the advanced time [time + dt] exceeds 0.01; such a tick leaves
    [state.y = 0], [isFlying = false], and [range] equal to the [x] of that
    tick's state.  Hence no projectile, however it is driven, is landed at
    an elapsed time of 0.01 or less. *)
Theorem landing_test :
  (forall p : Projectile,
     isFlying p = true -> hasLanded p = false ->
     time (update p) = time p + dt (physics p) /\
     (hasLanded (update p) = true <->
      y (physicsStep p) <= 0 /\ 0.01 < time (update p)) /\
     (hasLanded (update p) = true ->
      y (state (update p)) = 0 /\
      isFlying (update p) = false /\
      x (state (update p)) = x (physicsStep p) /\
      range (update p) = x (state (update p)))) /\
  (forall (params : Params.t) (cs : list Call),
     hasLanded (run cs (newProjectile params)) = true ->
     0.01 < time (run cs (newProjectile params))).
Proof.
  split.
  - intros p Hf Hl. split; [now apply update_time |]. split.
    + rewrite update_time, update_hasLanded by assumption.
      apply landsNow_true.
    + rewrite update_hasLanded by assumption. intros Hn.
      rewrite update_landing by assumption. cbn. auto.
  - intros params cs. apply run_landedPastGuard. intros A. discriminate.
Qed.

(** ** maxHeight *)

Lemma trackedMaxHeight_Rmax (p : Projectile) :
  trackedMaxHeight p = Rmax (maxHeight p) (y (physicsStep p)).
Proof.
  unfold trackedMaxHeight, Rmax.
  destruct (num_gt _ _) eqn:H; destruct (Rle_dec _ _) as [L | L]; auto.
  - apply num_gt_true in H. lra.
  - apply num_gt_false in H. lra.
Qed.

Lemma update_maxHeight (p : Projectile) :
  isFlying p = true -> hasLanded p = false ->
  maxHeight (update p) = Rmax (maxHeight p) (y (physicsStep p)).
Proof.
  intros Hf Hl. rewrite <- trackedMaxHeight_Rmax.
  destruct (landsNow p) eqn:Hn.
  - now rewrite update_landing.
  - now rewrite update_flying.
Qed.

Lemma update_maxHeight_le (p : Projectile) :
  maxHeight p <= maxHeight (update p).
Proof.
  destruct (isFlying p) eqn:Hf; [destruct (hasLanded p) eqn:Hl |].
  - rewrite update_idle by now right. lra.
  - rewrite update_maxHeight by assumption. apply Rmax_l.
  - rewrite update_idle by now left. lra.
Qed.

Lemma fold_Rmax_shift (a b : R) (l : list R) :
  fold_right Rmax (Rmax a b) l = Rmax b (fold_right Rmax a l).
Proof.
  induction l as [| c l IH]; cbn.
  - apply Rmax_comm.
  - rewrite IH. rewrite !Rmax_assoc. f_equal. apply Rmax_comm.
Qed.

Lemma active_true (p : Projectile) :
  active p = true <-> isFlying p = true /\ hasLanded p = false.
Proof.
  unfold active. rewrite andb_true_iff, negb_true_iff. tauto.
Qed.

Lemma active_false (p : Projectile) :
  active p = false -> isFlying p = false \/ hasLanded p = true.
Proof.
  unfold active. rewrite andb_false_iff, negb_false_iff. tauto.
Qed.

Lemma ticks_maxHeight (n : nat) :
  forall p : Projectile,
    maxHeight (ticks n p) = fold_right Rmax (maxHeight p) (observedHeights n p).
Proof.
  induction n as [| n IH]; intros p; cbn [ticks observedHeights fold_right].
  - reflexivity.
  - rewrite IH. destruct (active p) eqn:Ha.
    + apply active_true in Ha. destruct Ha as [Hf Hl].
      rewrite update_maxHeight by assumption. cbn [app fold_right].
      apply fold_Rmax_shift.
    + apply active_false in Ha. now rewrite update_idle.
Qed.

(** C6.  No tick lowers [maxHeight]; and after any number of ticks of a
    flight, [maxHeight] is the maximum of the initial [y = 0] and of the [y]
    of every state that a physics step has produced so far, taken before the
    landing test clamps it. *)
Theorem maxHeight_monotone_and_maximal :
  (forall p : Projectile, maxHeight p <= maxHeight (update p)) /\
  (forall (params : Params.t) (n : nat),
     y (state (launch (newProjectile params))) = 0 /\
     maxHeight (flight params n) =
     fold_right Rmax 0
       (observedHeights n (launch (newProjectile params)))).
Proof.
  split.
  - apply update_maxHeight_le.
  - intros params n. split; [reflexivity |].
    unfold flight. now rewrite ticks_maxHeight.
Qed.

(** ** The trajectory history *)

Lemma update_trajectory (p : Projectile) :
  isFlying p = true -> hasLanded p = false ->
  trajectory (update p) = storedTrajectory p.
Proof.
  intros Hf Hl. destruct (landsNow p) eqn:Hn.
  - now rewrite update_landing.
  - now rewrite update_flying.
Qed.

Lemma update_cap (p : Projectile) :
  maxTrajectoryPoints (update p) = maxTrajectoryPoints p.
Proof.
  destruct (active p) eqn:Ha.
  - apply active_true in Ha. destruct Ha as [Hf Hl].
    destruct (landsNow p) eqn:Hn.
    + now rewrite update_landing.
    + now rewrite update_flying.
  - apply active_false in Ha. now rewrite update_idle.
Qed.

Lemma run_snoc (cs : list Call) (c : Call) (p : Projectile) :
  run (cs ++ [c]) p = call c (run cs p).
Proof. unfold run. now rewrite fold_left_app. Qed.

Lemma run_cap (params : Params.t) (cs : list Call) :
  maxTrajectoryPoints (run cs (newProjectile params)) = 500%nat.
Proof.
  induction cs as [| c cs IH] using rev_ind; [reflexivity |].
  rewrite run_snoc. destruct c; cbn [call].
  - exact IH.
  - now rewrite update_cap.
  - exact IH.
Qed.

Lemma storedTrajectory_length (p : Projectile) :
  (length (trajectory p) <= maxTrajectoryPoints p)%nat ->
  (length (storedTrajectory p) <= maxTrajectoryPoints p)%nat.
Proof.
  unfold storedTrajectory. intros H.
  destruct (Nat.ltb_spec (length (trajectory p)) (maxTrajectoryPoints p)).
  - rewrite length_app. cbn. lia.
  - exact H.
Qed.

Lemma run_trajectory_length (params : Params.t) (cs : list Call) :
  (length (trajectory (run cs (newProjectile params))) <= 500)%nat.
Proof.
  induction cs as [| c cs IH] using rev_ind; [cbn; lia |].
  rewrite run_snoc. destruct c; cbn [call].
  - cbn. lia.
  - destruct (active (run cs (newProjectile params))) eqn:Ha.
    + apply active_true in Ha. destruct Ha as [Hf Hl].
      rewrite update_trajectory by assumption.
      rewrite <- (run_cap params cs). apply storedTrajectory_length.
      now rewrite run_cap.
    + apply active_false in Ha. now rewrite update_idle.
  - cbn. lia.
Qed.

Lemma run_trajectory_origin (params : Params.t) (cs : list Call)
  (pt : Point) :
  In pt (trajectory (run cs (newProjectile params))) ->
  exists cs1 cs2 : list Call,
    cs = cs1 ++ Update :: cs2 /\
    sampledAt (run cs1 (newProjectile params)) pt.
Proof.
  induction cs as [| c cs IH] using rev_ind; [intros [] |].
  rewrite run_snoc. destruct c; cbn [call].
  - intros [].
  - set (q := run cs (newProjectile params)) in *.
    destruct (active q) eqn:Ha.
    + apply active_true in Ha. destruct Ha as [Hf Hl].
      rewrite update_trajectory by assumption. unfold storedTrajectory.
      destruct (Nat.ltb_spec (length (trajectory q)) (maxTrajectoryPoints q))
        as [Hlt | Hge].
      * intros Hin. apply in_app_or in Hin. destruct Hin as [Hin | Hin].
        -- destruct (IH Hin) as (cs1 & cs2 & E & S).
           exists cs1, (cs2 ++ [Update]). split; [| exact S].
           rewrite E. now rewrite <- app_assoc.
        -- destruct Hin as [<- | []].
           exists cs, []. split; [reflexivity |].
           unfold sampledAt. fold q. auto.
      * intros Hin. destruct (IH Hin) as (cs1 & cs2 & E & S).
        exists cs1, (cs2 ++ [Update]). split; [| exact S].
        rewrite E. now rewrite <- app_assoc.
    + apply active_false in Ha. rewrite update_idle by assumption.
      intros Hin. destruct (IH Hin) as (cs1 & cs2 & E & S).
      exists cs1, (cs2 ++ [Update]). split; [| exact S].
      rewrite E. now rewrite <- app_assoc.
  - intros [].
Qed.

(** ** The drag-free, wind-free path *)

Lemma State_eq (a b c d a' b' c' d' : R) :
  a = a' -> b = b' -> c = c' -> d = d' ->
  mkState a b c d = mkState a' b' c' d'.
Proof. now intros -> -> -> ->. Qed.

Lemma newProjectile_windSpeed (params : Params.t) :
  windless params -> windSpeed (newProjectile params) = 0.
Proof.
  unfold windless. cbn. destruct (Params.windSpeed params); auto.
Qed.

Lemma physicsStep_analytic (p : Projectile) :
  airResistance p = false -> windSpeed p = 0 ->
  physicsStep p =
  calculateNoAirResistance (v0 p) (angle p) (gravity p) (time p).
Proof.
  intros Ha Hw. unfold physicsStep. rewrite Ha, Hw.
  replace (num_neq 0 0) with false; [reflexivity |].
  symmetry. now apply num_neq_false.
Qed.

(** The state written by a drag-free tick is the closed form at the time the
    tick started, one [dt] before the time the tick leaves in [time]. *)
Lemma physicsStep_analytic_lag (p : Projectile) :
  isFlying p = true -> hasLanded p = false ->
  airResistance p = false -> windSpeed p = 0 ->
  physicsStep p =
  calculateNoAirResistance (v0 p) (angle p) (gravity p)
    (time (update p) - dt (physics p)).
Proof.
  intros Hf Hl Ha Hw. rewrite update_time by assumption.
  rewrite physicsStep_analytic by assumption. f_equal. ring.
Qed.

Lemma calculateNoAirResistance_0 (v a g : R) :
  calculateNoAirResistance v a g 0 =
  mkState 0 0 (v * cos (a * PI / 180)) (v * sin (a * PI / 180)).
Proof. unfold calculateNoAirResistance. apply State_eq; ring. Qed.


Lemma launch_newProjectile (params : Params.t) :
  launch (newProjectile params) = launched params.
Proof. reflexivity. Qed.

Lemma launched_windSpeed (params : Params.t) :
  windless params -> windSpeed (launched params) = 0.
Proof.
  unfold windless, launched. cbn [windSpeed].
  destruct (Params.windSpeed params); auto.
Qed.

Lemma analytic_first_tick_lands (params : Params.t) :
  Params.airResistance params = false -> windless params ->
  landsNow (launched params) = true.
Proof.
  intros Ha Hw. apply landsNow_true.
  rewrite physicsStep_analytic;
    [| exact Ha | now apply launched_windSpeed].
  unfold launched.
  cbn [time physics v0 angle gravity].
  rewrite calculateNoAirResistance_0. cbn [y dt newPhysicsEngine]. lra.
Qed.

Lemma flight_0 (params : Params.t) : flight params 0 = launched params.
Proof. reflexivity. Qed.

Lemma flight_1 (params : Params.t) :
  flight params 1 = update (launched params).
Proof. reflexivity. Qed.

Lemma ticks_S (n : nat) (p : Projectile) :
  ticks (S n) p = ticks n (update p).
Proof. reflexivity. Qed.

Lemma ticks_snoc (n : nat) :
  forall p : Projectile, ticks (S n) p = update (ticks n p).
Proof.
  induction n as [| n IH]; intros p; [reflexivity |].
  rewrite ticks_S. rewrite IH. reflexivity.
Qed.

Lemma flight_S (params : Params.t) (n : nat) :
  flight params (S n) = update (flight params n).
Proof. unfold flight. apply ticks_snoc. Qed.

Lemma analytic_first_tick (params : Params.t) :
  Params.airResistance params = false -> windless params ->
  flight params 1 =
  mkProjectile (Params.velocity params) (Params.angle params)
    (Params.mass params) (Params.diameter params) (Params.gravity params)
    false 0
    (mkState 0 0
       (Params.velocity params * cos (Params.angle params * PI / 180))
       (Params.velocity params * sin (Params.angle params * PI / 180)))
    0.016 false true [mkPoint 0 0] 0 0 newPhysicsEngine 500.
Proof.
  intros Ha Hw. rewrite flight_1.
  rewrite update_landing;
    [| reflexivity | reflexivity | now apply analytic_first_tick_lands].
  rewrite trackedMaxHeight_Rmax.
  rewrite physicsStep_analytic;
    [| exact Ha | now apply launched_windSpeed].
  rewrite (launched_windSpeed params Hw).
  unfold storedTrajectory, position, launched.
  cbn [time physics v0 angle gravity mass diameter airResistance windSpeed
       maxHeight maxTrajectoryPoints trajectory length state app].
  rewrite calculateNoAirResistance_0. cbn [x y set_y vx vy dt newPhysicsEngine].
  rewrite Ha. replace (0 <? 500)%nat with true by reflexivity.
  f_equal.
  - ring.
  - unfold Rmax. destruct (Rle_dec 0 0); reflexivity.
Qed.

Lemma flight_landed_stays (params : Params.t) (k : nat) :
  hasLanded (flight params k) = true ->
  forall n : nat, flight params (n + k) = flight params k.
Proof.
  intros H. induction n as [| n IH]; [reflexivity |].
  rewrite Nat.add_succ_l, flight_S, IH. apply update_idle. now right.
Qed.

Lemma analytic_flight_landed (params : Params.t) (n : nat) :
  Params.airResistance params = false -> windless params ->
  flight params (S n) = flight params 1.
Proof.
  intros Ha Hw. replace (S n) with (n + 1)%nat by lia.
  apply flight_landed_stays. now rewrite analytic_first_tick.
Qed.

(** ** The force model and the Euler step *)

Lemma speed_eq (vx vy : R) : speed vx vy = sqrt (vx * vx + vy * vy).
Proof. unfold speed. f_equal. ring. Qed.

Lemma speed_nonneg (vx vy : R) : 0 <= speed vx vy.
Proof. unfold speed. apply sqrt_pos. Qed.

Lemma speed_sqr (vx vy : R) : speed vx vy * speed vx vy = vx * vx + vy * vy.
Proof.
  rewrite speed_eq. apply sqrt_sqrt. nra.
Qed.

Lemma specDragMagnitude_nonneg (v d : R) : 0 <= specDragMagnitude v d.
Proof.
  unfold specDragMagnitude. pose proof PI_RGT_0 as HP.
  assert (0 <= v ^ 2) by (apply pow2_ge_0).
  assert (0 <= (d / 2) ^ 2) by (apply pow2_ge_0).
  assert (0 <= PI * (d / 2) ^ 2) by nra.
  nra.
Qed.

Lemma calculateDragForce_still (vx vy d : R) :
  speed vx vy = 0 ->
  calculateDragForce newPhysicsEngine vx vy d = mkForce 0 0.
Proof.
  intros H. unfold calculateDragForce. rewrite <- speed_eq, H.
  replace (num_gt 0 0) with false; [reflexivity |].
  symmetry. apply num_gt_false. lra.
Qed.

Lemma calculateDragForce_moving (vx vy d : R) :
  0 < speed vx vy ->
  calculateDragForce newPhysicsEngine vx vy d =
  mkForce (- specDragMagnitude (speed vx vy) d * (vx / speed vx vy))
          (- specDragMagnitude (speed vx vy) d * (vy / speed vx vy)).
Proof.
  intros H. unfold calculateDragForce. rewrite <- speed_eq.
  replace (num_gt (speed vx vy) 0) with true
    by (symmetry; now apply num_gt_true).
  unfold specDragMagnitude. cbn [AIR_DENSITY DRAG_COEFFICIENT newPhysicsEngine].
  f_equal; ring.
Qed.

Lemma checked_div_nonzero (a b : R) : b <> 0 -> checked_div a b = Some (a / b).
Proof.
  intros H. unfold checked_div. destruct (Req_dec_T b 0); [contradiction |].
  reflexivity.
Qed.

Lemma calculateDragForce_checked_total (vx vy d : R) :
  calculateDragForce_checked newPhysicsEngine vx vy d =
  Some (calculateDragForce newPhysicsEngine vx vy d).
Proof.
  unfold calculateDragForce_checked, calculateDragForce.
  rewrite checked_div_nonzero by lra.
  destruct (num_gt (sqrt (vx * vx + vy * vy)) 0) eqn:Hv.
  - apply num_gt_true in Hv.
    rewrite !checked_div_nonzero by lra. reflexivity.
  - reflexivity.
Qed.

Lemma opposed_magnitude (M vx vy : R) :
  0 <= M -> 0 < speed vx vy ->
  sqrt ((- M * (vx / speed vx vy)) ^ 2 + (- M * (vy / speed vx vy)) ^ 2) = M.
Proof.
  intros HM Hv. pose proof (speed_sqr vx vy) as E.
  set (v := speed vx vy) in *.
  replace ((- M * (vx / v)) ^ 2 + (- M * (vy / v)) ^ 2)
    with (M * M * ((vx * vx + vy * vy) / (v * v))) by (field; lra).
  rewrite <- E. replace (M * M * (v * v / (v * v))) with (M * M)
    by (field; lra).
  now apply sqrt_square.
Qed.

(** C8.  [calculateDragForce] returns a force for every [(vx, vy,
    diameter)] without ever dividing by zero; at speed 0 the force is exactly
    [(0, 0)]; at a positive speed [v] its magnitude is
    [0.5 * 1.225 * v^2 * 0.47 * pi * (diameter/2)^2] and it is a
    non-negative multiple of the reversed velocity vector. *)
Theorem calculateDragForce_guarded (vx vy d : R) :
  calculateDragForce_checked newPhysicsEngine vx vy d =
    Some (calculateDragForce newPhysicsEngine vx vy d) /\
  (speed vx vy = 0 \/ 0 < speed vx vy) /\
  (speed vx vy = 0 ->
   calculateDragForce newPhysicsEngine vx vy d = mkForce 0 0) /\
  (0 < speed vx vy ->
   sqrt (fx (calculateDragForce newPhysicsEngine vx vy d) ^ 2
         + fy (calculateDragForce newPhysicsEngine vx vy d) ^ 2)
     = specDragMagnitude (speed vx vy) d /\
   exists k : R,
     0 <= k /\
     fx (calculateDragForce newPhysicsEngine vx vy d) = - k * vx /\
     fy (calculateDragForce newPhysicsEngine vx vy d) = - k * vy).
Proof.
  split; [apply calculateDragForce_checked_total |].
  split; [pose proof (speed_nonneg vx vy); lra |].
  split; [apply calculateDragForce_still |].
  intros Hv. rewrite calculateDragForce_moving by assumption. cbn [fx fy].
  pose proof (specDragMagnitude_nonneg (speed vx vy) d) as HM.
  split.
  - now apply opposed_magnitude.
  - exists (specDragMagnitude (speed vx vy) d / speed vx vy). split.
    + apply Rmult_le_pos; [exact HM |].
      apply Rlt_le. now apply Rinv_0_lt_compat.
    + split; field; lra.
Qed.

Lemma speed_3_4 : speed 3 4 = 5.
Proof.
  unfold speed. replace (3 ^ 2 + 4 ^ 2) with (5 * 5) by ring.
  apply sqrt_square. lra.
Qed.

Lemma calculateDragForce_guarded_witness :
  0 < speed 3 4 /\
  sqrt (fx (calculateDragForce newPhysicsEngine 3 4 0.1) ^ 2
        + fy (calculateDragForce newPhysicsEngine 3 4 0.1) ^ 2)
    = specDragMagnitude (speed 3 4) 0.1.
Proof.
  assert (H : 0 < speed 3 4) by (rewrite speed_3_4; lra).
  split; [exact H |].
  exact (proj1 (proj2 (proj2 (proj2 (calculateDragForce_guarded 3 4 0.1))) H)).
Defined.

Lemma integrateStep_drag_still (s : State) (m d : R) :
  speed (vx s) (vy s) = 0 ->
  calculateDragForce newPhysicsEngine (vx s) (vy s) d = mkForce 0 0 /\
  specDragAcceleration (vx s) (vy s) m d = (0, 0).
Proof.
  intros H. split; [now apply calculateDragForce_still |].
  unfold specDragAcceleration. rewrite H.
  replace (num_gt 0 0) with false; [reflexivity |].
  symmetry. apply num_gt_false. lra.
Qed.

Lemma specDragAcceleration_moving (vx vy m d : R) :
  0 < speed vx vy ->
  specDragAcceleration vx vy m d =
  (- (specDragMagnitude (speed vx vy) d / m) * (vx / speed vx vy),
   - (specDragMagnitude (speed vx vy) d / m) * (vy / speed vx vy)).
Proof.
  intros H. unfold specDragAcceleration.
  replace (num_gt (speed vx vy) 0) with true
    by (symmetry; now apply num_gt_true).
  reflexivity.
Qed.

Lemma integrateStep_spec (s : State) (m d g : R) (air : bool) (w : R) :
  integrateStep newPhysicsEngine s m d g air w =
  mkState (x s + vx s * 0.016) (y s + vy s * 0.016)
    (vx s + fst (specAcceleration (vx s) (vy s) m d g air w) * 0.016)
    (vy s + snd (specAcceleration (vx s) (vy s) m d g air w) * 0.016).
Proof.
  unfold integrateStep, specAcceleration, calculateWindForce, specWindForce.
  cbn [AIR_DENSITY DRAG_COEFFICIENT dt newPhysicsEngine fx].
  destruct air.
  - destruct (Rle_lt_or_eq_dec 0 _ (speed_nonneg (vx s) (vy s))) as [Hv | Hv].
    + rewrite calculateDragForce_moving by assumption.
      rewrite specDragAcceleration_moving by assumption.
      cbn [fx fy fst snd].
      destruct (num_neq w 0); apply State_eq; unfold Rdiv; ring.
    + symmetry in Hv.
      destruct (integrateStep_drag_still s m d Hv) as [-> ->].
      cbn [fx fy fst snd].
      destruct (num_neq w 0); apply State_eq; unfold Rdiv; ring.
  - cbn [fst snd].
    destruct (num_neq w 0); apply State_eq; unfold Rdiv; ring.
Qed.

(** C3.  [integrateStep] is one forward-Euler step of 0.016: positions
    advance by the current velocity, velocities by the acceleration of the
    specification's force model, which is [-g] along y, plus the drag
    acceleration if and only if [airResistance] is true, plus the wind
    acceleration along x if and only if [windSpeed] is not 0.  The drag
    acceleration has magnitude [0.5 * 1.225 * v^2 * 0.47 * A / mass] and is a
    non-positive multiple of the velocity; the wind acceleration is
    [0.5 * 1.225 * windSpeed * |windSpeed| * 0.47 * A / mass]. *)
Theorem integrateStep_forward_euler
  (s : State) (m d g : R) (air : bool) (w : R) :
  integrateStep newPhysicsEngine s m d g air w =
    mkState (x s + vx s * 0.016) (y s + vy s * 0.016)
      (vx s + fst (specAcceleration (vx s) (vy s) m d g air w) * 0.016)
      (vy s + snd (specAcceleration (vx s) (vy s) m d g air w) * 0.016) /\
  specAcceleration (vx s) (vy s) m d g false 0 = (0 + 0, - g + 0) /\
  specAcceleration (vx s) (vy s) m d g true 0 =
    (fst (specDragAcceleration (vx s) (vy s) m d) + 0,
     - g + snd (specDragAcceleration (vx s) (vy s) m d)) /\
  (w <> 0 ->
   specAcceleration (vx s) (vy s) m d g air w =
     (fst (if air then specDragAcceleration (vx s) (vy s) m d else (0, 0))
      + 0.5 * 1.225 * w * Rabs w * 0.47 * (PI * (d / 2) ^ 2) / m,
      - g
      + snd (if air then specDragAcceleration (vx s) (vy s) m d
             else (0, 0)))) /\
  (0 < m -> 0 < speed (vx s) (vy s) ->
   sqrt (fst (specDragAcceleration (vx s) (vy s) m d) ^ 2
         + snd (specDragAcceleration (vx s) (vy s) m d) ^ 2)
     = 0.5 * 1.225 * speed (vx s) (vy s) ^ 2 * 0.47
       * (PI * (d / 2) ^ 2) / m /\
   exists k : R,
     0 <= k /\
     fst (specDragAcceleration (vx s) (vy s) m d) = - k * vx s /\
     snd (specDragAcceleration (vx s) (vy s) m d) = - k * vy s).
Proof.
  split; [apply integrateStep_spec |].
  assert (Z : num_neq 0 0 = false) by now apply num_neq_false.
  split; [unfold specAcceleration; now rewrite Z |].
  split; [unfold specAcceleration; now rewrite Z |].
  split.
  - intros Hw. unfold specAcceleration, specWindForce.
    replace (num_neq w 0) with true by (symmetry; now apply num_neq_true).
    reflexivity.
  - intros Hm Hv. rewrite specDragAcceleration_moving by assumption.
    cbn [fst snd].
    pose proof (specDragMagnitude_nonneg (speed (vx s) (vy s)) d) as HM.
    assert (HA : 0 <= specDragMagnitude (speed (vx s) (vy s)) d / m).
    { apply Rmult_le_pos; [exact HM |].
      apply Rlt_le. now apply Rinv_0_lt_compat. }
    split.
    + rewrite opposed_magnitude by assumption. reflexivity.
    + exists (specDragMagnitude (speed (vx s) (vy s)) d / m
              / speed (vx s) (vy s)).
      split.
      * apply Rmult_le_pos; [exact HA |].
        apply Rlt_le. now apply Rinv_0_lt_compat.
      * split; field; lra.
Qed.

Lemma integrateStep_forward_euler_witness :
  (2 <> 0 /\ 0 < 1 /\ 0 < speed 3 4) /\
  integrateStep newPhysicsEngine (mkState 0 0 3 4) 1 0.1 9.81 true 2 =
    mkState (0 + 3 * 0.016) (0 + 4 * 0.016)
      (3 + fst (specAcceleration 3 4 1 0.1 9.81 true 2) * 0.016)
      (4 + snd (specAcceleration 3 4 1 0.1 9.81 true 2) * 0.016) /\
  sqrt (fst (specDragAcceleration 3 4 1 0.1) ^ 2
        + snd (specDragAcceleration 3 4 1 0.1) ^ 2)
    = 0.5 * 1.225 * speed 3 4 ^ 2 * 0.47 * (PI * (0.1 / 2) ^ 2) / 1.
Proof.
  assert (Hw : 2 <> 0) by lra.
  assert (Hm : 0 < 1) by lra.
  assert (Hv : 0 < speed 3 4) by (rewrite speed_3_4; lra).
  pose proof (integrateStep_forward_euler (mkState 0 0 3 4) 1 0.1 9.81 true 2)
    as (E & _ & _ & _ & M).
  split; [auto |]. split; [exact E |].
  exact (proj1 (M Hm Hv)).
Defined.

(** ** The trajectory predictor *)

Lemma trajectoryLoop_app (this : TrajectoryPredictor) (params : Params.t)
  (dt maxTime : R) (fuel : nat) :
  forall (t : R) (s : State) (pts : list Point),
    trajectoryLoop fuel this params dt maxTime t s pts =
    option_map (app pts) (trajectoryLoop fuel this params dt maxTime t s []).
Proof.
  induction fuel as [| fuel IH]; intros t s pts; cbn [trajectoryLoop].
  - reflexivity.
  - destruct (num_lt t maxTime); [| cbn; now rewrite app_nil_r].
    destruct (num_lt (y s) 0 && num_gt t 0.01); [reflexivity |].
    rewrite (IH _ _ (pts ++ _)), (IH _ _ ([] ++ _)).
    destruct (trajectoryLoop fuel this params dt maxTime _ _ []); cbn;
      [| reflexivity].
    now rewrite <- app_assoc.
Qed.

Lemma last_cons_nonempty (pt d : Point) (pts : list Point) :
  pts <> [] -> last (pt :: pts) d = last pts d.
Proof. destruct pts; [contradiction | reflexivity]. Qed.

Lemma trajectoryLoop_run (this : TrajectoryPredictor) (params : Params.t)
  (dt maxTime : R) (d0 : Point) :
  0 < dt ->
  forall (m : nat) (t : R) (s : State),
    t = maxTime - dt * INR m ->
    exists pts : list Point,
      (forall fuel : nat, (m < fuel)%nat ->
         trajectoryLoop fuel this params dt maxTime t s [] = Some pts) /\
      (length pts <= m)%nat /\
      (m <> 0%nat -> pts <> []) /\
      (forall j : nat, (S j < length pts)%nat ->
         ~ (py (nth j pts d0) < 0 /\ 0.01 < t + dt * INR j)) /\
      ((length pts < m)%nat ->
         py (last pts d0) < 0 /\
         0.01 < t + dt * INR (length pts - 1)).
Proof.
  intros Hdt. induction m as [| m IH]; intros t s Ht.
  - exists []. cbn [INR] in Ht.
    split; [| split; [| split; [| split]]].
    + intros [| fuel] Hf; [lia |]. cbn [trajectoryLoop].
      replace (num_lt t maxTime) with false; [reflexivity |].
      symmetry. apply num_lt_false. lra.
    + cbn. lia.
    + intros H. now contradiction H.
    + intros j H. cbn in H. lia.
    + intros H. cbn in H. lia.
  - assert (Hlt : num_lt t maxTime = true).
    { apply num_lt_true. rewrite Ht. pose proof (pos_INR m) as Hm.
      rewrite S_INR. nra. }
    destruct (num_lt (y s) 0 && num_gt t 0.01) eqn:Hb.
    + exists [mkPoint (x s) (y s)].
      apply andb_true_iff in Hb as Hb'. destruct Hb' as [Hy Hg].
      apply num_lt_true in Hy. apply num_gt_true in Hg.
      split; [| split; [| split; [| split]]].
      * intros [| fuel] Hf; [lia |]. cbn [trajectoryLoop app].
        now rewrite Hlt, Hb.
      * cbn. lia.
      * discriminate.
      * intros j H. cbn in H. lia.
      * intros _. cbn [last py length Nat.sub INR]. split; lra.
    + destruct (IH (t + dt) (predictorStep this params s t))
        as (pts & Hrun & Hlen & Hne & Hstop & Hlast).
      { rewrite Ht, S_INR. ring. }
      exists (mkPoint (x s) (y s) :: pts).
      split; [| split; [| split; [| split]]].
      * intros [| fuel] Hf; [lia |]. cbn [trajectoryLoop app].
        rewrite Hlt, Hb. rewrite trajectoryLoop_app.
        rewrite Hrun by lia. reflexivity.
      * cbn. lia.
      * discriminate.
      * intros j Hj [Hy Hg]. destruct j as [| j].
        -- cbn [nth py INR] in *. apply andb_false_iff in Hb.
           destruct Hb as [Hb | Hb].
           ++ apply num_lt_false in Hb. lra.
           ++ apply num_gt_false in Hb. lra.
        -- cbn [nth length] in *. apply (Hstop j); [lia |].
           split; [exact Hy |]. rewrite S_INR in Hg. lra.
      * intros H. cbn [length] in H.
        assert (Hm : (length pts < m)%nat) by lia.
        assert (Hp : pts <> []) by (apply Hne; lia).
        destruct (Hlast Hm) as [Hy Hg].
        rewrite last_cons_nonempty by assumption.
        split; [exact Hy |].
        destruct pts as [| q pts]; [contradiction |].
        cbn [length Nat.sub] in *. rewrite Nat.sub_0_r in *.
        rewrite S_INR. lra.
Qed.

(** C9.  [calculateTrajectory] terminates on every parameter set: once the
    fuel exceeds 600 the loop is left with the same sequence of points,
    whatever the fuel.  The sequence has at least 1 and at most 600 points;
    no point but the last has [y < 0] at a loop time [0.05 * j > 0.01]; and
    when fewer than 600 points are returned the last one has, so the loop was
    left through the [break].  The function reads its [params] and the
    predictor's own physics engine and returns the points: no projectile is
    among its inputs or its results. *)
Theorem calculateTrajectory_terminates
  (this : TrajectoryPredictor) (params : Params.t) :
  exists pts : list Point,
    (forall fuel : nat, (600 < fuel)%nat ->
       calculateTrajectory fuel this params = Some pts) /\
    (1 <= length pts <= 600)%nat /\
    (forall j : nat, (S j < length pts)%nat ->
       ~ (py (nth j pts (mkPoint 0 0)) < 0 /\ 0.01 < 0.05 * INR j)) /\
    ((length pts < 600)%nat ->
       py (last pts (mkPoint 0 0)) < 0 /\
       0.01 < 0.05 * INR (length pts - 1)).
Proof.
  destruct (trajectoryLoop_run this params 0.05 30 (mkPoint 0 0)
              ltac:(lra) 600 0
              (mkState 0 0
                 (Params.velocity params
                  * cos (Params.angle params * PI / 180))
                 (Params.velocity params
                  * sin (Params.angle params * PI / 180))))
    as (pts & Hrun & Hlen & Hne & Hstop & Hlast).
  { replace (INR 600) with 600 by (rewrite INR_IZR_INZ; reflexivity). lra. }
  exists pts. split; [| split; [| split]].
  - intros fuel Hf. unfold calculateTrajectory. now apply Hrun.
  - split; [| exact Hlen].
    assert (pts <> []) by (apply Hne; lia).
    destruct pts; [contradiction | cbn; lia].
  - intros j Hj. specialize (Hstop j Hj).
    now rewrite Rplus_0_l in Hstop.
  - intros H. specialize (Hlast H). now rewrite Rplus_0_l in Hlast.
Qed.

(** ** The default launch, without drag *)

Lemma defaultLaunch_first_tick :
  flight defaultLaunch 1 =
  mkProjectile 15 45 1 0.5 9.81 false 0
    (mkState 0 0 (15 * cos (45 * PI / 180)) (15 * sin (45 * PI / 180)))
    0.016 false true [mkPoint 0 0] 0 0 newPhysicsEngine 500.
Proof.
  rewrite analytic_first_tick; [reflexivity | reflexivity |].
  unfold windless, defaultLaunch. cbn [Params.windSpeed]. reflexivity.
Qed.

Lemma trig_45 :
  0.5 < cos (45 * PI / 180) /\ 0.5 < sin (45 * PI / 180).
Proof.
  replace (45 * PI / 180) with (PI / 4) by field.
  rewrite cos_PI4, sin_PI4.
  assert (H2 : 0 < sqrt 2) by (apply sqrt_lt_R0; lra).
  assert (Hs : sqrt 2 * sqrt 2 = 2) by (apply sqrt_sqrt; lra).
  assert (Hlt : sqrt 2 < 2) by nra.
  assert (Hinv : 1 / sqrt 2 = sqrt 2 / 2) by (field_simplify_eq; lra).
  rewrite Hinv. split; nra.
Qed.

(** The default launch, 15 m/s at 45 degrees without drag or wind: after
    the first [update()] the projectile is landed at the launch point,
    [state.x = 0], [state.y = 0], [range = 0], with [time = 0.016], while
    the closed form at that [time] puts it in the air, at positive [x] and
    positive [y]. *)
Lemma default_flight_lands_on_first_tick :
  airResistance (flight defaultLaunch 1) = false /\
  windSpeed (flight defaultLaunch 1) = 0 /\
  hasLanded (flight defaultLaunch 1) = true /\
  time (flight defaultLaunch 1) = 0.016 /\
  x (state (flight defaultLaunch 1)) = 0 /\
  y (state (flight defaultLaunch 1)) = 0 /\
  range (flight defaultLaunch 1) = 0 /\
  0 < x (calculateNoAirResistance 15 45 9.81
           (time (flight defaultLaunch 1))) /\
  0 < y (calculateNoAirResistance 15 45 9.81
           (time (flight defaultLaunch 1))).
Proof.
  rewrite defaultLaunch_first_tick.
  cbn [airResistance windSpeed hasLanded time state x y range].
  repeat (split; [reflexivity |]).
  unfold calculateNoAirResistance. cbn [x y].
  destruct trig_45 as [Hc Hs]. split; nra.
Qed.



(** ** Drag flights that land on their second tick *)

Lemma physicsStep_drag (p : Projectile) :
  airResistance p = true ->
  physicsStep p =
  integrateStep (physics p) (state p) (mass p) (diameter p) (gravity p)
    true (windSpeed p).
Proof. intros H. unfold physicsStep. now rewrite H. Qed.

Lemma storedTrajectory_below (p : Projectile) :
  (length (trajectory p) < maxTrajectoryPoints p)%nat ->
  storedTrajectory p = trajectory p ++ [position p].
Proof.
  intros H. unfold storedTrajectory.
  now destruct (Nat.ltb_spec (length (trajectory p)) (maxTrajectoryPoints p));
    [| lia].
Qed.

Lemma drag_two_ticks (params : Params.t) :
  Params.airResistance params = true -> windless params ->
  0 < y (dragStep params (state (launched params))) ->
  y (dragStep params (dragStep params (state (launched params)))) <= 0 ->
  flight params 2 =
  mkProjectile (Params.velocity params) (Params.angle params)
    (Params.mass params) (Params.diameter params) (Params.gravity params)
    true 0
    (set_y (dragStep params (dragStep params (state (launched params)))) 0)
    (0 + 0.016 + 0.016) false true
    [mkPoint 0 0;
     mkPoint (x (dragStep params (state (launched params))))
             (y (dragStep params (state (launched params))))]
    (Rmax (Rmax 0 (y (dragStep params (state (launched params)))))
          (y (dragStep params (dragStep params (state (launched params))))))
    (x (dragStep params (dragStep params (state (launched params)))))
    newPhysicsEngine 500.
Proof.
  intros Ha Hw Hy1 Hy2.
  set (s1 := dragStep params (state (launched params))) in *.
  set (s2 := dragStep params s1) in *.
  assert (E1 : physicsStep (launched params) = s1).
  { rewrite physicsStep_drag by exact Ha.
    rewrite (launched_windSpeed params Hw). reflexivity. }
  assert (N1 : landsNow (launched params) = false).
  { unfold landsNow. rewrite E1.
    replace (num_le (y s1) 0) with false; [reflexivity |].
    symmetry. now apply num_le_false. }
  rewrite flight_S, flight_1.
  rewrite (update_flying (launched params) eq_refl eq_refl N1).
  rewrite trackedMaxHeight_Rmax, E1.
  rewrite storedTrajectory_below by (cbn; lia).
  rewrite (launched_windSpeed params Hw).
  unfold position, launched.
  cbn [v0 angle mass diameter gravity airResistance time trajectory
       maxHeight range physics maxTrajectoryPoints state x y app].
  rewrite Ha.
  match goal with |- update ?p = _ => set (p1 := p) end.
  assert (E2 : physicsStep p1 = s2).
  { rewrite physicsStep_drag by reflexivity. reflexivity. }
  assert (N2 : landsNow p1 = true).
  { apply landsNow_true. rewrite E2. split; [exact Hy2 |].
    unfold p1. cbn [time physics dt newPhysicsEngine]. lra. }
  rewrite (update_landing p1 eq_refl eq_refl N2).
  rewrite trackedMaxHeight_Rmax, E2.
  rewrite storedTrajectory_below by (cbn; lia).
  unfold position, p1.
  cbn [v0 angle mass diameter gravity airResistance windSpeed time
       trajectory maxHeight range physics maxTrajectoryPoints state x y app
       dt newPhysicsEngine].
  reflexivity.
Qed.

Lemma launch_speed (v r : R) : 0 <= v -> speed (v * cos r) (v * sin r) = v.
Proof.
  intros H. rewrite speed_eq.
  replace (v * cos r * (v * cos r) + v * sin r * (v * sin r))
    with (v * v * ((sin r)² + (cos r)²)) by (unfold Rsqr; ring).
  rewrite sin2_cos2, Rmult_1_r. now apply sqrt_square.
Qed.

Lemma specDragAcceleration_rate (vx vy m d : R) :
  m <> 0 -> 0 < speed vx vy ->
  specDragAcceleration vx vy m d =
  (- dragRate (speed vx vy) m d * vx, - dragRate (speed vx vy) m d * vy).
Proof.
  intros Hm Hv. rewrite specDragAcceleration_moving by assumption.
  unfold specDragMagnitude, dragRate. f_equal; field; lra.
Qed.

Lemma dragRate_bounds (v m d : R) :
  0 < v -> 0 < m -> 0 <= dragRate v m d <= 1.2 * (d * d) * v / m.
Proof.
  intros Hv Hm. unfold dragRate.
  pose proof PI_RGT_0 as P0. pose proof PI_4 as P4.
  assert (Hd : 0 <= d * d) by nra.
  assert (Hq : 0 < v / m) by (apply Rdiv_lt_0_compat; assumption).
  replace (0.5 * 1.225 * 0.47 * (PI * (d / 2) ^ 2) * v / m)
    with (0.5 * 1.225 * 0.47 / 4 * (PI * (d * d)) * (v / m))
    by (field; lra).
  replace (1.2 * (d * d) * v / m) with (1.2 * (d * d) * (v / m))
    by (field; lra).
  assert (0 <= PI * (d * d) <= 4 * (d * d)) by nra.
  split; nra.
Qed.

Lemma dragStep_launch (params : Params.t) :
  0 < Params.mass params -> 0 < Params.velocity params ->
  dragStep params (state (launched params)) =
  mkState
    (0 + Params.velocity params * cos (Params.angle params * PI / 180)
         * 0.016)
    (0 + Params.velocity params * sin (Params.angle params * PI / 180)
         * 0.016)
    (Params.velocity params * cos (Params.angle params * PI / 180)
     + (- dragRate (Params.velocity params) (Params.mass params)
            (Params.diameter params)
        * (Params.velocity params * cos (Params.angle params * PI / 180))
        + 0) * 0.016)
    (Params.velocity params * sin (Params.angle params * PI / 180)
     + (- Params.gravity params
        + - dragRate (Params.velocity params) (Params.mass params)
              (Params.diameter params)
          * (Params.velocity params
             * sin (Params.angle params * PI / 180))) * 0.016).
Proof.
  intros Hm Hv. unfold dragStep. rewrite integrateStep_spec.
  unfold launched. cbn [state x y vx vy].
  unfold specAcceleration.
  replace (num_neq 0 0) with false by (symmetry; now apply num_neq_false).
  rewrite specDragAcceleration_rate;
    [| lra | rewrite launch_speed; lra].
  rewrite launch_speed by lra. cbn [fst snd]. reflexivity.
Qed.

Lemma integrateStep_x (this : PhysicsEngine) (s : State) (m d g : R)
  (air : bool) (w : R) :
  x (integrateStep this s m d g air w) = x s + vx s * dt this.
Proof.
  unfold integrateStep. destruct air; destruct (num_neq w 0); reflexivity.
Qed.

Lemma integrateStep_y (this : PhysicsEngine) (s : State) (m d g : R)
  (air : bool) (w : R) :
  y (integrateStep this s m d g air w) = y s + vy s * dt this.
Proof.
  unfold integrateStep. destruct air; destruct (num_neq w 0); reflexivity.
Qed.

Lemma dragStep_x (params : Params.t) (s : State) :
  x (dragStep params s) = x s + vx s * 0.016.
Proof. unfold dragStep. now rewrite integrateStep_x. Qed.

Lemma dragStep_y (params : Params.t) (s : State) :
  y (dragStep params s) = y s + vy s * 0.016.
Proof. unfold dragStep. now rewrite integrateStep_y. Qed.

Lemma drag_flight_second_tick (params : Params.t) :
  Params.airResistance params = true -> windless params ->
  0 < Params.mass params -> 0 < Params.velocity params ->
  0 < y (dragStep params (state (launched params))) ->
  y (dragStep params (dragStep params (state (launched params)))) <= 0 ->
  hasLanded (flight params 2) = true /\
  isFlying (flight params 2) = false /\
  y (state (flight params 2)) = 0 /\
  x (state (flight params 2)) = range (flight params 2) /\
  range (flight params 2) =
    x (dragStep params (state (launched params)))
    + vx (dragStep params (state (launched params))) * 0.016 /\
  trajectory (flight params 2) =
    [mkPoint 0 0;
     mkPoint (x (dragStep params (state (launched params))))
             (y (dragStep params (state (launched params))))].
Proof.
  intros Ha Hw Hm Hv Hy1 Hy2.
  rewrite (drag_two_ticks params Ha Hw Hy1 Hy2).
  cbn [hasLanded isFlying state set_y x y range trajectory].
  do 4 (split; [reflexivity |]).
  split; [| reflexivity].
  now rewrite dragStep_x.
Qed.

Lemma trig_30 :
  0 < cos (30 * PI / 180) /\ sin (30 * PI / 180) = 1 / 2.
Proof.
  replace (30 * PI / 180) with (PI / 6) by field.
  rewrite cos_PI6, sin_PI6. split; [| reflexivity].
  assert (0 < sqrt 3) by (apply sqrt_lt_R0; lra). lra.
Qed.

Lemma trig_90 :
  cos (90 * PI / 180) = 0 /\ sin (90 * PI / 180) = 1.
Proof.
  replace (90 * PI / 180) with (PI / 2) by field.
  split; [apply cos_PI2 | apply sin_PI2].
Qed.

Lemma slowLobDrag_launch_step :
  exists c k : R,
    0 < c /\ 0 <= k <= 0.0012 /\
    dragStep slowLobDrag (state (launched slowLobDrag)) =
    mkState (0 + 0.1 * c * 0.016) (0 + 0.1 * (1 / 2) * 0.016)
      (0.1 * c + (- k * (0.1 * c) + 0) * 0.016)
      (0.1 * (1 / 2) + (- (9.81) + - k * (0.1 * (1 / 2))) * 0.016).
Proof.
  destruct trig_30 as [Hc Hs].
  exists (cos (30 * PI / 180)), (dragRate 0.1 1 0.1).
  split; [exact Hc |]. split.
  - pose proof (dragRate_bounds 0.1 1 0.1 ltac:(lra) ltac:(lra)). lra.
  - rewrite dragStep_launch;
      unfold slowLobDrag, slowLob, withAirResistance;
      cbn [Params.mass Params.velocity Params.angle Params.diameter
           Params.gravity]; try lra.
    rewrite Hs. reflexivity.
Qed.

Lemma slowLobDrag_second_tick :
  hasLanded (flight slowLobDrag 2) = true /\
  0 < range (flight slowLobDrag 2).
Proof.
  destruct slowLobDrag_launch_step as (c & k & Hc & Hk & E).
  assert (Hy1 : 0 < y (dragStep slowLobDrag (state (launched slowLobDrag)))).
  { rewrite E. cbn [y]. lra. }
  assert (Hy2 : y (dragStep slowLobDrag
                     (dragStep slowLobDrag (state (launched slowLobDrag))))
                <= 0).
  { unfold dragStep at 1. rewrite integrateStep_y. rewrite E.
    cbn [y vy dt newPhysicsEngine]. nra. }
  destruct (drag_flight_second_tick slowLobDrag eq_refl eq_refl
              ltac:(cbn; lra) ltac:(cbn; lra) Hy1 Hy2)
    as (Hl & _ & _ & _ & Hr & _).
  split; [exact Hl |]. rewrite Hr, E. cbn [x vx]. nra.
Qed.

(** ** Range with and without drag *)

Lemma dragfree_range_zero (params : Params.t) (n : nat) :
  Params.airResistance params = false -> windless params ->
  range (flight params n) = 0.
Proof.
  intros Ha Hw. destruct n as [| n].
  - now rewrite flight_0.
  - rewrite analytic_flight_landed, analytic_first_tick by assumption.
    reflexivity.
Qed.

(** The slow lob, 0.1 m/s at 30 degrees with a ball of 1 kg and 0.1 m under
    9.81 m/s^2, no wind, traced tick by tick: from the second tick on both
    flights are landed, the flight without drag has range 0 and the flight
    with drag has a range above it. *)
Lemma slow_lob_ranges (n : nat) :
  hasLanded (flight slowLobDrag (n + 2)) = true /\
  hasLanded (flight slowLobFree (n + 2)) = true /\
  range (flight slowLobFree (n + 2)) = 0 /\
  range (flight slowLobFree (n + 2)) < range (flight slowLobDrag (n + 2)).
Proof.
  destruct slowLobDrag_second_tick as [Hl Hr].
  rewrite (flight_landed_stays slowLobDrag 2 Hl n).
  replace (n + 2)%nat with (S (n + 1)) by lia.
  rewrite (analytic_flight_landed slowLobFree (n + 1) eq_refl eq_refl).
  rewrite (analytic_first_tick slowLobFree eq_refl eq_refl).
  cbn [hasLanded range].
  split; [exact Hl |]. split; [reflexivity |]. split; [reflexivity |].
  exact Hr.
Qed.

(** ** The landing position and the history *)

Lemma verticalToss_launch_step :
  exists k : R,
    0 <= k /\
    dragStep verticalToss (state (launched verticalToss)) =
    mkState (0 + 0.05 * 0 * 0.016) (0 + 0.05 * 1 * 0.016)
      (0.05 * 0 + (- k * (0.05 * 0) + 0) * 0.016)
      (0.05 * 1 + (- (9.81) + - k * (0.05 * 1)) * 0.016).
Proof.
  destruct trig_90 as [Hc Hs].
  exists (dragRate 0.05 1 0.1). split.
  - pose proof (dragRate_bounds 0.05 1 0.1 ltac:(lra) ltac:(lra)). lra.
  - rewrite dragStep_launch;
      unfold verticalToss;
      cbn [Params.mass Params.velocity Params.angle Params.diameter
           Params.gravity]; try lra.
    rewrite Hc, Hs. reflexivity.
Qed.

Lemma verticalToss_second_tick :
  hasLanded (flight verticalToss 2) = true /\
  y (state (flight verticalToss 2)) = 0 /\
  x (state (flight verticalToss 2)) = range (flight verticalToss 2) /\
  range (flight verticalToss 2) = 0 /\
  trajectory (flight verticalToss 2) = [mkPoint 0 0; mkPoint 0 0.0008].
Proof.
  destruct verticalToss_launch_step as (k & Hk & E).
  assert (Hy1 : 0 < y (dragStep verticalToss (state (launched verticalToss)))).
  { rewrite E. cbn [y]. lra. }
  assert (Hy2 : y (dragStep verticalToss
                     (dragStep verticalToss (state (launched verticalToss))))
                <= 0).
  { unfold dragStep at 1. rewrite integrateStep_y. rewrite E.
    cbn [y vy dt newPhysicsEngine]. nra. }
  destruct (drag_flight_second_tick verticalToss eq_refl eq_refl
              ltac:(cbn; lra) ltac:(cbn; lra) Hy1 Hy2)
    as (Hl & _ & Hy & Hx & Hr & Ht).
  split; [exact Hl |]. split; [exact Hy |]. split; [exact Hx |].
  split.
  - rewrite Hr, E. cbn [x vx]. lra.
  - rewrite Ht, E. cbn [x y]. f_equal. f_equal. f_equal; lra.
Qed.

(** In exact arithmetic, where [cos (pi / 2)] is 0, the slow vertical toss
    with drag lands on its second tick at [x = range = 0], [y = 0]; the
    history then holds the two start-of-tick positions [(0, 0)] and
    [(0, 0.0008)], and the first of them is the landing position. *)
Lemma verticalToss_landing_position_is_recorded :
  hasLanded (flight verticalToss 2) = true /\
  position (flight verticalToss 2)
    = mkPoint (range (flight verticalToss 2)) 0 /\
  In (mkPoint (range (flight verticalToss 2)) 0)
     (trajectory (flight verticalToss 2)).
Proof.
  destruct verticalToss_second_tick as (Hl & Hy & Hx & Hr & Ht).
  split; [exact Hl |]. split.
  - unfold position. now rewrite Hy, Hx.
  - rewrite Ht, Hr. now left.
Qed.

Lemma drag_first_tick (params : Params.t) :
  Params.airResistance params = true -> windless params ->
  y (dragStep params (state (launched params))) <= 0 ->
  flight params 1 =
  mkProjectile (Params.velocity params) (Params.angle params)
    (Params.mass params) (Params.diameter params) (Params.gravity params)
    true 0
    (set_y (dragStep params (state (launched params))) 0)
    (0 + 0.016) false true [mkPoint 0 0]
    (Rmax 0 (y (dragStep params (state (launched params)))))
    (x (dragStep params (state (launched params))))
    newPhysicsEngine 500.
Proof.
  intros Ha Hw Hy1.
  set (s1 := dragStep params (state (launched params))) in *.
  assert (E1 : physicsStep (launched params) = s1).
  { rewrite physicsStep_drag by exact Ha.
    rewrite (launched_windSpeed params Hw). reflexivity. }
  assert (N1 : landsNow (launched params) = true).
  { apply landsNow_true. rewrite E1. split; [exact Hy1 |].
    unfold launched. cbn [time physics dt newPhysicsEngine]. lra. }
  rewrite flight_1.
  rewrite (update_landing (launched params) eq_refl eq_refl N1).
  rewrite trackedMaxHeight_Rmax, E1.
  rewrite storedTrajectory_below by (cbn; lia).
  rewrite (launched_windSpeed params Hw).
  unfold position, launched.
  cbn [v0 angle mass diameter gravity airResistance time trajectory
       maxHeight range physics maxTrajectoryPoints state x y app
       dt newPhysicsEngine].
  rewrite Ha. reflexivity.
Qed.

Lemma standingStart_first_tick :
  flight standingStart 1 =
  mkProjectile 0 45 1 0.5 9.81 true 0
    (set_y (dragStep standingStart (state (launched standingStart))) 0)
    (0 + 0.016) false true [mkPoint 0 0]
    (Rmax 0 (y (dragStep standingStart (state (launched standingStart)))))
    (x (dragStep standingStart (state (launched standingStart))))
    newPhysicsEngine 500 /\
  x (dragStep standingStart (state (launched standingStart))) = 0.
Proof.
  assert (Hx : x (dragStep standingStart (state (launched standingStart)))
               = 0).
  { rewrite dragStep_x. unfold launched, standingStart.
    cbn [state x vx Params.velocity]. ring. }
  assert (Hy : y (dragStep standingStart (state (launched standingStart)))
               = 0).
  { rewrite dragStep_y. unfold launched, standingStart.
    cbn [state y vy Params.velocity]. ring. }
  split; [| exact Hx].
  rewrite (drag_first_tick standingStart eq_refl eq_refl); [reflexivity |].
  rewrite Hy. lra.
Qed.

(** C10 (counterexample).  A ball launched with drag at speed 0 lands on
    its first tick where it stands, [x = range = 0], [y = 0], and the
    history holds the start-of-tick position [(0, 0)], which is the landing
    position. *)
Lemma landing_position_is_recorded :
  hasLanded (flight standingStart 1) = true /\
  position (flight standingStart 1)
    = mkPoint (range (flight standingStart 1)) 0 /\
  In (mkPoint (range (flight standingStart 1)) 0)
     (trajectory (flight standingStart 1)).
Proof.
  destruct standingStart_first_tick as [E Hx]. rewrite E.
  cbn [hasLanded range trajectory]. unfold position.
  cbn [state set_y x y]. rewrite Hx.
  split; [reflexivity |]. split; [reflexivity |]. now left.
Qed.

Lemma run_cons (c : Call) (cs : list Call) (p : Projectile) :
  run (c :: cs) p = run cs (call c p).
Proof. reflexivity. Qed.

Lemma run_updates (n : nat) :
  forall p : Projectile, run (repeat Update n) p = ticks n p.
Proof.
  induction n as [| n IH]; intros p; [reflexivity |].
  cbn [repeat]. rewrite run_cons, ticks_S. apply IH.
Qed.

Lemma run_flight (params : Params.t) (n : nat) :
  run (Launch :: repeat Update n) (newProjectile params) = flight params n.
Proof. rewrite run_cons. unfold flight. apply run_updates. Qed.

(** ** Instances *)

Lemma landing_test_witness :
  isFlying (launched zeroAngleLaunch) = true /\
  hasLanded (launched zeroAngleLaunch) = false /\
  (hasLanded (update (launched zeroAngleLaunch)) = true <->
   y (physicsStep (launched zeroAngleLaunch)) <= 0 /\
   0.01 < time (update (launched zeroAngleLaunch))).
Proof.
  split; [reflexivity |]. split; [reflexivity |].
  exact (proj1 (proj2 (proj1 landing_test (launched zeroAngleLaunch)
                         eq_refl eq_refl))).
Defined.

(** The zero-angle launch lands on its first tick, when [time] is 0.016. *)
Lemma zeroAngleLaunch_first_tick :
  hasLanded (flight zeroAngleLaunch 1) = true /\
  time (flight zeroAngleLaunch 1) = 0.016 /\
  range (flight zeroAngleLaunch 1) = 0.
Proof.
  rewrite (analytic_first_tick zeroAngleLaunch eq_refl eq_refl).
  repeat split.
Qed.

Lemma calculateTrajectory_terminates_witness :
  (600 < 601)%nat /\
  exists pts : list Point,
    calculateTrajectory 601 newTrajectoryPredictor defaultLaunch
      = Some pts /\
    (length pts <= 600)%nat.
Proof.
  assert (H : (600 < 601)%nat) by lia.
  split; [exact H |].
  destruct (calculateTrajectory_terminates newTrajectoryPredictor
              defaultLaunch) as (pts & Hrun & Hlen & _).
  exists pts. split; [exact (Hrun 601%nat H) | exact (proj2 Hlen)].
Defined.

(** ** Stable flights with drag *)

Lemma dragRate_constant (v m d : R) :
  dragRate v m d = dragConstant m d * v.
Proof. unfold dragRate, dragConstant. unfold Rdiv. ring. Qed.

Lemma dragConstant_nonneg (m d : R) : 0 < m -> 0 <= dragConstant m d.
Proof.
  intros Hm. unfold dragConstant. pose proof PI_RGT_0 as P0.
  assert (0 <= (d / 2) ^ 2) by apply pow2_ge_0.
  apply Rmult_le_pos; [nra |]. apply Rlt_le. now apply Rinv_0_lt_compat.
Qed.

Lemma forward_speed_pos (B : R) (s : State) :
  forward B s -> 0 < speed (vx s) (vy s).
Proof.
  intros [Hx _]. rewrite speed_eq. apply sqrt_lt_R0. nra.
Qed.

Lemma dragStep_fields (params : Params.t) (s : State) :
  0 < Params.mass params -> 0 < speed (vx s) (vy s) ->
  dragStep params s =
  mkState (x s + vx s * 0.016) (y s + vy s * 0.016)
    (vx s
     + (- dragRate (speed (vx s) (vy s)) (Params.mass params)
            (Params.diameter params) * vx s + 0) * 0.016)
    (vy s
     + (- Params.gravity params
        + - dragRate (speed (vx s) (vy s)) (Params.mass params)
              (Params.diameter params) * vy s) * 0.016).
Proof.
  intros Hm Hv. unfold dragStep. rewrite integrateStep_spec.
  unfold specAcceleration.
  replace (num_neq 0 0) with false by (symmetry; now apply num_neq_false).
  rewrite specDragAcceleration_rate by lra. cbn [fst snd]. reflexivity.
Qed.

Lemma speed_le (B vx vy : R) :
  0 <= B -> vx * vx + vy * vy <= B * B -> speed vx vy <= B.
Proof.
  intros HB H. rewrite speed_eq. rewrite <- (sqrt_square B HB).
  now apply sqrt_le_1_alt.
Qed.

Lemma forward_step (params : Params.t) (B : R) (s : State) :
  stableBound params B -> forward B s -> forward B (dragStep params s).
Proof.
  intros (Hm & Hg & _ & HgB & Hk & Hq) F.
  pose proof (forward_speed_pos B s F) as Hv. destruct F as [Hx HB].
  rewrite dragStep_fields by assumption.
  rewrite dragRate_constant.
  pose proof (dragConstant_nonneg _ (Params.diameter params) Hm) as Hc.
  pose proof (speed_sqr (vx s) (vy s)) as E.
  set (kappa := dragConstant (Params.mass params) (Params.diameter params))
    in *.
  set (v := speed (vx s) (vy s)) in *.
  set (g := Params.gravity params) in *.
  set (a := 1 - 0.016 * (kappa * v)).
  assert (Ha : 0 < a <= 1).
  { unfold a. split; [| nra].
    assert (kappa * v <= kappa * B) by nra. nra. }
  unfold forward. cbn [vx vy]. split.
  - replace (vx s + (- (kappa * v) * vx s + 0) * 0.016) with (a * vx s)
      by (unfold a; ring).
    apply Rmult_lt_0_compat; lra.
  - replace (vx s + (- (kappa * v) * vx s + 0) * 0.016) with (a * vx s)
      by (unfold a; ring).
    replace (vy s + (- g + - (kappa * v) * vy s) * 0.016)
      with (a * vy s - 0.016 * g) by (unfold a; ring).
    assert (Hvy : 0 <= v + vy s) by nra.
    set (w := a * v + 0.016 * g).
    assert (Hw0 : 0 <= w) by (unfold w; nra).
    assert (HwB : w <= B).
    { destruct (Rle_dec v (B - g * 0.016)) as [L | L].
      - unfold w. nra.
      - assert (Hlow : B - g * 0.016 < v) by lra.
        assert (Hsq : (B - g * 0.016) ^ 2 <= v * v) by nra.
        assert (Hkv : g <= kappa * (v * v)) by nra.
        unfold w, a. nra. }
    apply speed_le; [lra |].
    assert (Hsq : a * vx s * (a * vx s)
                  + (a * vy s - 0.016 * g) * (a * vy s - 0.016 * g)
                  <= w * w).
    { replace (a * vx s * (a * vx s)
               + (a * vy s - 0.016 * g) * (a * vy s - 0.016 * g))
        with (a * a * (vx s * vx s + vy s * vy s)
              - 2 * a * 0.016 * g * vy s + 0.016 * g * (0.016 * g))
        by ring.
      rewrite <- E. unfold w.
      assert (0 <= 2 * a * 0.016 * g * (v + vy s)).
      { apply Rmult_le_pos; [| exact Hvy].
        apply Rmult_le_pos; [nra | exact Hg]. }
      nra. }
    nra.
Qed.

Lemma physicsStep_dragStep (params : Params.t) (B : R) (p : Projectile) :
  dragFlightInv params B p -> physicsStep p = dragStep params (state p).
Proof.
  intros (Ha & Hw & Hp & Hm & Hd & Hg & _).
  rewrite physicsStep_drag by exact Ha.
  now rewrite Hw, Hp, Hm, Hd, Hg.
Qed.

Lemma update_dragFlightInv (params : Params.t) (B : R) (p : Projectile) :
  stableBound params B ->
  dragFlightInv params B p -> dragFlightInv params B (update p).
Proof.
  intros HS J. destruct (active p) eqn:Hact.
  - apply active_true in Hact. destruct Hact as [Hf Hl].
    pose proof (physicsStep_dragStep params B p J) as E.
    destruct J as (Ha & Hw & Hp & Hm & Hd & Hg & F & Hx & _).
    pose proof (forward_step params B (state p) HS F) as F'.
    assert (Hx' : 0 < x (dragStep params (state p))).
    { rewrite dragStep_x. destruct F as [Hvx _]. nra. }
    destruct (landsNow p) eqn:Hn.
    + rewrite update_landing by assumption. rewrite E.
      unfold dragFlightInv.
      cbn [airResistance windSpeed physics mass diameter gravity state
           hasLanded range].
      repeat (split; [assumption |]).
      split; [cbn [set_y x]; lra |]. intros _. exact Hx'.
    + rewrite update_flying by assumption. rewrite E.
      unfold dragFlightInv.
      cbn [airResistance windSpeed physics mass diameter gravity state
           hasLanded range].
      repeat (split; [assumption |]).
      split; [lra |]. intros A. discriminate.
  - apply active_false in Hact. now rewrite update_idle.
Qed.

Lemma launched_dragFlightInv (params : Params.t) (B : R) :
  Params.airResistance params = true -> windless params ->
  stableBound params B ->
  0 < Params.velocity params ->
  0 < cos (Params.angle params * PI / 180) ->
  dragFlightInv params B (launched params).
Proof.
  intros Ha Hw (Hm & Hg & HvB & _) Hv Hc. unfold dragFlightInv.
  split; [exact Ha |]. split; [now apply launched_windSpeed |].
  unfold launched.
  cbn [physics mass diameter gravity state x vx vy hasLanded range].
  repeat (split; [reflexivity |]).
  split; [| split; [lra | intros A; discriminate]].
  unfold forward. cbn [vx vy]. split.
  - now apply Rmult_lt_0_compat.
  - rewrite launch_speed; lra.
Qed.

Lemma flight_dragFlightInv (params : Params.t) (B : R) :
  Params.airResistance params = true -> windless params ->
  stableBound params B ->
  0 < Params.velocity params ->
  0 < cos (Params.angle params * PI / 180) ->
  forall n : nat, dragFlightInv params B (flight params n).
Proof.
  intros Ha Hw HS Hv Hc. induction n as [| n IH].
  - rewrite flight_0. now apply launched_dragFlightInv.
  - rewrite flight_S. now apply update_dragFlightInv.
Qed.

(** With drag, a stable bound, and a launch that points forward, a landed
    projectile has a positive range. *)
Lemma drag_range_positive (params : Params.t) (B : R) (n : nat) :
  Params.airResistance params = true -> windless params ->
  stableBound params B ->
  0 < Params.velocity params ->
  0 < cos (Params.angle params * PI / 180) ->
  hasLanded (flight params n) = true -> 0 < range (flight params n).
Proof.
  intros Ha Hw HS Hv Hc.
  destruct (flight_dragFlightInv params B Ha Hw HS Hv Hc n)
    as (_ & _ & _ & _ & _ & _ & _ & _ & H).
  exact H.
Qed.

(** ** Stable flights with drag come down *)

Lemma drag_tick_flying (params : Params.t) (B : R) (p : Projectile) :
  stableBound params B -> dragFlightInv params B p ->
  isFlying p = true -> hasLanded p = false ->
  hasLanded (update p) = false -> 0 <= time p ->
  isFlying (update p) = true /\
  0 <= time (update p) /\
  y (state (update p)) = y (state p) + vy (state p) * 0.016 /\
  0 < y (state (update p)) /\
  exists a : R,
    0 < a <= 1 /\
    vy (state (update p))
      = a * vy (state p) - Params.gravity params * 0.016.
Proof.
  intros HS J Hf Hl Hl' Ht.
  pose proof (physicsStep_dragStep params B p J) as E.
  rewrite update_hasLanded in Hl' by assumption.
  assert (Hy : 0 < y (physicsStep p)).
  { unfold landsNow in Hl'. apply andb_false_iff in Hl'.
    destruct Hl' as [A | A].
    - now apply num_le_false in A.
    - apply num_gt_false in A.
      destruct J as (_ & _ & Hp & _). rewrite Hp in A.
      cbn [dt newPhysicsEngine] in A. lra. }
  rewrite update_flying by assumption.
  cbn [isFlying time state].
  destruct J as (_ & _ & Hp & _ & _ & _ & F & _).
  destruct HS as (Hm & Hg & _ & HgB & Hk & _).
  pose proof (forward_speed_pos B (state p) F) as Hv.
  destruct F as [_ HB].
  split; [reflexivity |]. split.
  { rewrite Hp. cbn [dt newPhysicsEngine]. lra. }
  split; [rewrite E; apply dragStep_y |].
  split; [exact Hy |].
  rewrite E, dragStep_fields by assumption. cbn [vy].
  rewrite dragRate_constant.
  pose proof (dragConstant_nonneg _ (Params.diameter params) Hm) as Hc.
  set (kappa := dragConstant (Params.mass params) (Params.diameter params))
    in *.
  set (v := speed (vx (state p)) (vy (state p))) in *.
  exists (1 - 0.016 * (kappa * v)). split.
  - assert (kappa * v <= kappa * B) by nra. split; nra.
  - ring.
Qed.

Lemma landed_stays_landed (params : Params.t) (n : nat) :
  hasLanded (flight params (S n)) = false ->
  hasLanded (flight params n) = false.
Proof.
  intros H. destruct (hasLanded (flight params n)) eqn:E; [| reflexivity].
  rewrite flight_S, update_idle in H by now right. congruence.
Qed.

Lemma drag_flight_descends (params : Params.t) (B U : R) (N : nat) :
  Params.airResistance params = true -> windless params ->
  stableBound params B ->
  0 < Params.velocity params ->
  0 < cos (Params.angle params * PI / 180) ->
  0 < Params.gravity params ->
  0 <= U ->
  Params.velocity params * sin (Params.angle params * PI / 180) <= U ->
  U + Params.gravity params * 0.016
    <= INR N * (Params.gravity params * 0.016) ->
  forall n : nat,
    hasLanded (flight params n) = false ->
    isFlying (flight params n) = true /\
    0 <= time (flight params n) /\
    vy (state (flight params n))
      <= Rmax (U - INR n * (Params.gravity params * 0.016))
              (- (Params.gravity params * 0.016)) /\
    y (state (flight params n)) <= 0.016 * U * INR n /\
    ((N <= n)%nat ->
     y (state (flight params n))
       <= 0.016 * (U * INR N
                   - Params.gravity params * 0.016 * (INR n - INR N))) /\
    ((1 <= n)%nat -> 0 < y (state (flight params n))).
Proof.
  intros Ha Hw HS Hv Hc Hg HU Hvy HN.
  set (G := Params.gravity params * 0.016) in *.
  assert (HG : 0 < G) by (unfold G; lra).
  induction n as [| n IH]; intros Hl.
  - rewrite flight_0. unfold launched. cbn [isFlying time state vy y INR].
    split; [reflexivity |]. split; [lra |]. split.
    { eapply Rle_trans; [exact Hvy |]. rewrite Rmult_0_l, Rminus_0_r.
      apply Rmax_l. }
    split; [lra |]. split; [| lia].
    intros HN0. assert (N = 0)%nat by lia. subst N. cbn [INR] in *. lra.
  - pose proof (landed_stays_landed params n Hl) as Hl0.
    destruct (IH Hl0) as (Hf & Ht & Hv1 & Hy1 & Hy2 & _).
    pose proof (flight_dragFlightInv params B Ha Hw HS Hv Hc n) as J.
    rewrite flight_S in Hl |- *.
    destruct (drag_tick_flying params B (flight params n) HS J Hf Hl0 Hl Ht)
      as (Hf' & Ht' & Ey & Hy' & a & Hab & Ev).
    fold G in Ev.
    set (vyn := vy (state (flight params n))) in *.
    set (yn := y (state (flight params n))) in *.
    assert (HvU : vyn <= U).
    { eapply Rle_trans; [exact Hv1 |]. apply Rmax_lub; [| lra].
      pose proof (pos_INR n). nra. }
    rewrite S_INR.
    split; [exact Hf' |]. split; [exact Ht' |]. split.
    { rewrite Ev. destruct (Rle_dec 0 vyn) as [P | P].
      - assert (a * vyn <= vyn) by nra.
        eapply Rle_trans; [| apply Rmax_l].
        assert (vyn <= U - INR n * G \/ vyn <= - G) as [Q | Q].
        { unfold Rmax in Hv1. destruct (Rle_dec _ _); auto. }
        + lra.
        + lra.
      - assert (a * vyn <= 0) by nra.
        eapply Rle_trans; [| apply Rmax_r]. lra. }
    split; [rewrite Ey; nra |]. split; [| intros _; exact Hy'].
    intros HNn. rewrite Ey.
    destruct (Nat.eq_dec N (S n)) as [-> | Hne].
    + rewrite S_INR. nra.
    + assert (HNn' : (N <= n)%nat) by lia.
      specialize (Hy2 HNn').
      assert (Hvg : vyn <= - G).
      { eapply Rle_trans; [exact Hv1 |]. apply Rmax_lub; [| lra].
        apply le_INR in HNn'. nra. }
      nra.
Qed.

(** A stable flight with drag, launched forward under positive gravity, has
    landed after [N + K] ticks, where [N] ticks use up the launch's upward
    velocity and [K] more bring the height down to the ground. *)
Lemma drag_flight_lands (params : Params.t) (B U : R) (N K : nat) :
  Params.airResistance params = true -> windless params ->
  stableBound params B ->
  0 < Params.velocity params ->
  0 < cos (Params.angle params * PI / 180) ->
  0 < Params.gravity params ->
  0 <= U ->
  Params.velocity params * sin (Params.angle params * PI / 180) <= U ->
  U + Params.gravity params * 0.016
    <= INR N * (Params.gravity params * 0.016) ->
  U * INR N <= Params.gravity params * 0.016 * INR K ->
  (1 <= N + K)%nat ->
  hasLanded (flight params (N + K)) = true.
Proof.
  intros Ha Hw HS Hv Hc Hg HU Hvy HN HK H1.
  destruct (hasLanded (flight params (N + K))) eqn:Hl; [reflexivity |].
  destruct (drag_flight_descends params B U N Ha Hw HS Hv Hc Hg HU Hvy HN
              (N + K) Hl) as (_ & _ & _ & _ & Hy2 & Hy0).
  specialize (Hy2 ltac:(lia)). specialize (Hy0 H1).
  rewrite plus_INR in Hy2. exfalso. nra.
Qed.

(** ** The default launch, with and without drag *)

Lemma PI_gt_3 : 3 < PI.
Proof. pose proof PI2_3_2. lra. Qed.

Lemma defaultDrag_stable : stableBound defaultDrag 100.
Proof.
  unfold stableBound, defaultDrag, withAirResistance, defaultLaunch,
    dragConstant.
  cbn [Params.mass Params.gravity Params.velocity Params.diameter].
  pose proof PI_gt_3 as P3. pose proof PI_4 as P4.
  repeat split; try lra; nra.
Qed.

Lemma defaultDrag_cos : 0 < cos (Params.angle defaultDrag * PI / 180).
Proof.
  unfold defaultDrag, withAirResistance, defaultLaunch. cbn [Params.angle].
  destruct trig_45. lra.
Qed.

Lemma INR_97 : INR 97 = 97.
Proof. rewrite INR_IZR_INZ. reflexivity. Qed.

Lemma INR_96 : INR 96 = 96.
Proof. rewrite INR_IZR_INZ. reflexivity. Qed.

Lemma defaultDrag_lands :
  hasLanded (flight defaultDrag (97 + 97 * 96)) = true.
Proof.
  apply (drag_flight_lands defaultDrag 100 15 97 (97 * 96)).
  - reflexivity.
  - reflexivity.
  - exact defaultDrag_stable.
  - cbn. lra.
  - exact defaultDrag_cos.
  - cbn. lra.
  - lra.
  - unfold defaultDrag, withAirResistance, defaultLaunch.
    cbn [Params.velocity Params.angle].
    pose proof (SIN_bound (45 * PI / 180)). lra.
  - unfold defaultDrag, withAirResistance, defaultLaunch.
    cbn [Params.gravity]. rewrite INR_97. lra.
  - unfold defaultDrag, withAirResistance, defaultLaunch.
    cbn [Params.gravity]. rewrite mult_INR, INR_97, INR_96. lra.
  - lia.
Qed.

Lemma analytic_flight_after_launch (params : Params.t) (k : nat) :
  Params.airResistance params = false -> windless params ->
  (1 <= k)%nat -> flight params k = flight params 1.
Proof.
  intros Ha Hw Hk. destruct k as [| k]; [lia |].
  now apply analytic_flight_landed.
Qed.

(** C4 (what the program does).  The default launch, 15 m/s at 45 degrees
    with a ball of 1 kg and 0.5 m under 9.81 m/s^2, no wind, fired once
    with drag and once without: after [97 + 97 * 96] ticks, and for ever
    after, both flights are landed, the flight without drag has range 0 and
    the flight with drag has a range above it. *)
Theorem default_drag_range_exceeds_dragfree_range (n : nat) :
  defaultDrag = withAirResistance true defaultLaunch /\
  hasLanded (flight defaultDrag (n + (97 + 97 * 96))) = true /\
  hasLanded (flight defaultLaunch (n + (97 + 97 * 96))) = true /\
  range (flight defaultLaunch (n + (97 + 97 * 96))) = 0 /\
  range (flight defaultLaunch (n + (97 + 97 * 96)))
    < range (flight defaultDrag (n + (97 + 97 * 96))).
Proof.
  pose proof defaultDrag_lands as Hl.
  pose proof (drag_range_positive defaultDrag 100 (97 + 97 * 96)
                eq_refl eq_refl defaultDrag_stable
                ltac:(cbn; lra) defaultDrag_cos Hl) as Hr.
  rewrite (flight_landed_stays defaultDrag _ Hl n).
  rewrite (analytic_flight_after_launch defaultLaunch
             (n + (97 + 97 * 96)) eq_refl eq_refl ltac:(lia)).
  rewrite (analytic_first_tick defaultLaunch eq_refl eq_refl).
  cbn [hasLanded range].
  split; [reflexivity |]. split; [exact Hl |].
  split; [reflexivity |]. split; [reflexivity |]. exact Hr.
Qed.

(** * Further properties *)

(** ** The closed form and its read-outs *)

Lemma flight_angle_double (a : R) :
  sin (2 * (a * PI / 180)) = 2 * sin (a * PI / 180) * cos (a * PI / 180).
Proof. apply sin_2a. Qed.

(** X1.  Under a gravity other than 0, the closed form taken at
    [calculateFlightTime] is back on the ground, [y = 0], at
    [x = calculateMaxRange]. *)
Theorem closed_form_at_flight_time (v0 a g : R) :
  g <> 0 ->
  y (calculateNoAirResistance v0 a g (calculateFlightTime v0 a g)) = 0 /\
  x (calculateNoAirResistance v0 a g (calculateFlightTime v0 a g))
    = calculateMaxRange v0 a g.
Proof.
  intros Hg.
  unfold calculateNoAirResistance, calculateFlightTime, calculateMaxRange.
  cbn [x y]. rewrite flight_angle_double.
  replace 0.5 with (/ 2) by lra. split; field; exact Hg.
Qed.

Lemma closed_form_at_flight_time_witness :
  9.81 <> 0 /\
  y (calculateNoAirResistance 15 45 9.81 (calculateFlightTime 15 45 9.81))
    = 0.
Proof.
  assert (H : 9.81 <> 0) by lra.
  split; [exact H |]. exact (proj1 (closed_form_at_flight_time 15 45 9.81 H)).
Defined.

(** X2.  Under a positive gravity the closed form never rises above
    [calculateMaxHeight], and it is at that height, with [vy = 0], at half
    the flight time. *)
Theorem closed_form_apex (v0 a g : R) :
  0 < g ->
  (forall t : R,
     y (calculateNoAirResistance v0 a g t) <= calculateMaxHeight v0 a g) /\
  y (calculateNoAirResistance v0 a g (calculateFlightTime v0 a g / 2))
    = calculateMaxHeight v0 a g /\
  vy (calculateNoAirResistance v0 a g (calculateFlightTime v0 a g / 2)) = 0.
Proof.
  intros Hg.
  unfold calculateNoAirResistance, calculateFlightTime, calculateMaxHeight.
  cbn [y vy]. set (u := v0 * sin (a * PI / 180)).
  replace 0.5 with (/ 2) by lra.
  assert (Hg0 : g <> 0) by lra.
  split; [| split; field; exact Hg0].
  intros t.
  assert (E : u * u / (2 * g) - (u * t - / 2 * g * t * t)
              = (u - g * t) * (u - g * t) / (2 * g)) by (field; lra).
  assert (0 <= (u - g * t) * (u - g * t) / (2 * g)).
  { apply Rmult_le_pos; [apply Rle_0_sqr |].
    apply Rlt_le, Rinv_0_lt_compat. lra. }
  lra.
Qed.

Lemma closed_form_apex_witness :
  0 < 9.81 /\
  vy (calculateNoAirResistance 15 45 9.81
        (calculateFlightTime 15 45 9.81 / 2)) = 0.
Proof.
  assert (H : 0 < 9.81) by lra.
  split; [exact H |].
  exact (proj2 (proj2 (closed_form_apex 15 45 9.81 H))).
Defined.

(** X3.  [calculateMaxRange] is the same for an angle and for its
    complement to 90 degrees, and under a positive gravity no angle gives
    more than 45 degrees does. *)
Theorem calculateMaxRange_angles (v0 a g : R) :
  calculateMaxRange v0 (90 - a) g = calculateMaxRange v0 a g /\
  (0 < g -> calculateMaxRange v0 a g <= calculateMaxRange v0 45 g) /\
  calculateMaxRange v0 45 g = v0 * v0 / g.
Proof.
  unfold calculateMaxRange. split; [| split].
  - replace (2 * ((90 - a) * PI / 180)) with (PI - 2 * (a * PI / 180))
      by field.
    now rewrite sin_PI_x.
  - intros Hg.
    replace (2 * (45 * PI / 180)) with (PI / 2) by field.
    rewrite sin_PI2.
    pose proof (SIN_bound (2 * (a * PI / 180))) as [_ Hs].
    apply Rmult_le_compat_r; [apply Rlt_le, Rinv_0_lt_compat; exact Hg |].
    nra.
  - replace (2 * (45 * PI / 180)) with (PI / 2) by field.
    rewrite sin_PI2. now rewrite Rmult_1_r.
Qed.

Lemma calculateMaxRange_angles_witness :
  0 < 9.81 /\ calculateMaxRange 15 30 9.81 <= calculateMaxRange 15 45 9.81.
Proof.
  assert (H : 0 < 9.81) by lra.
  split; [exact H |].
  exact (proj1 (proj2 (calculateMaxRange_angles 15 30 9.81)) H).
Defined.

(** ** The life cycle of a projectile *)

Lemma update_setup (p : Projectile) : setup (update p) = setup p.
Proof.
  destruct (active p) eqn:Ha.
  - apply active_true in Ha. destruct Ha as [Hf Hl].
    destruct (landsNow p) eqn:Hn.
    + now rewrite update_landing.
    + now rewrite update_flying.
  - apply active_false in Ha. now rewrite update_idle.
Qed.

Lemma call_setup (c : Call) (p : Projectile) : setup (call c p) = setup p.
Proof.
  destruct c; cbn [call]; [reflexivity | apply update_setup | reflexivity].
Qed.

Lemma run_setup (cs : list Call) (p : Projectile) :
  setup (run cs p) = setup p.
Proof.
  induction cs as [| c cs IH] using rev_ind; [reflexivity |].
  rewrite run_snoc, call_setup. exact IH.
Qed.

Lemma reset_by_setup (p q : Projectile) :
  setup p = setup q -> reset p = reset q.
Proof.
  destruct p, q. unfold setup. cbn. intros H. injection H as -> -> -> -> -> -> -> -> ->.
  reflexivity.
Qed.

Lemma reset_newProjectile (params : Params.t) :
  reset (newProjectile params) = newProjectile params.
Proof.
  unfold newProjectile.
  cbv [reset set_state set_time set_isFlying set_hasLanded set_trajectory
       set_maxHeight set_range v0 angle mass diameter gravity airResistance
       windSpeed state time isFlying hasLanded trajectory maxHeight range
       physics maxTrajectoryPoints].
  reflexivity.
Qed.

Lemma launch_reset (p : Projectile) :
  launch p = set_isFlying (reset p) true.
Proof. reflexivity. Qed.

(** X5.  Whatever has been done to a projectile since its construction,
    [reset()] puts it back, field for field, into the state in which the
    constructor left it, and [launch()] into the state of a first launch. *)
Theorem reset_restores_construction (params : Params.t) (cs : list Call) :
  reset (run cs (newProjectile params)) = newProjectile params /\
  launch (run cs (newProjectile params)) = launch (newProjectile params).
Proof.
  assert (E : reset (run cs (newProjectile params)) = newProjectile params).
  { rewrite (reset_by_setup _ (newProjectile params)) by apply run_setup.
    apply reset_newProjectile. }
  split; [exact E |].
  rewrite !launch_reset. f_equal. rewrite E.
  symmetry. apply reset_newProjectile.
Qed.

Lemma update_rangeRecorded (p : Projectile) :
  rangeRecorded p -> rangeRecorded (update p).
Proof.
  intros H. destruct (active p) eqn:Ha.
  - apply active_true in Ha. destruct Ha as [Hf Hl].
    destruct (landsNow p) eqn:Hn.
    + rewrite update_landing by assumption. unfold rangeRecorded.
      cbn [hasLanded range state set_y x y isFlying]. split; [auto |].
      intros A. discriminate.
    + rewrite update_flying by assumption. unfold rangeRecorded.
      cbn [hasLanded range]. split; [intros A; discriminate |].
      intros _. now apply (proj2 H).
  - apply active_false in Ha. now rewrite update_idle.
Qed.

(** X6.  In every state reached from construction by [launch()],
    [update()] and [reset()] calls: a landed projectile is not flying, lies
    on the ground ([state.y = 0]) and its [range] is its [state.x]; a
    projectile that has not landed has [range = 0]. *)
Theorem range_is_landing_position (params : Params.t) (cs : list Call) :
  (hasLanded (run cs (newProjectile params)) = true ->
   isFlying (run cs (newProjectile params)) = false /\
   y (state (run cs (newProjectile params))) = 0 /\
   range (run cs (newProjectile params))
     = x (state (run cs (newProjectile params)))) /\
  (hasLanded (run cs (newProjectile params)) = false ->
   range (run cs (newProjectile params)) = 0).
Proof.
  induction cs as [| c cs IH] using rev_ind.
  - split; [intros A; discriminate | reflexivity].
  - rewrite run_snoc. destruct c; cbn [call].
    + split; [intros A; discriminate | reflexivity].
    + now apply update_rangeRecorded.
    + split; [intros A; discriminate | reflexivity].
Qed.

Lemma range_is_landing_position_witness :
  hasLanded (run [Launch; Update] (newProjectile defaultLaunch)) = true /\
  range (run [Launch; Update] (newProjectile defaultLaunch))
    = x (state (run [Launch; Update] (newProjectile defaultLaunch))).
Proof.
  assert (H : hasLanded (run [Launch; Update] (newProjectile defaultLaunch))
              = true).
  { change [Launch; Update] with (Launch :: repeat Update 1).
    rewrite (run_flight defaultLaunch 1).
    now rewrite defaultLaunch_first_tick. }
  split; [exact H |].
  exact (proj2 (proj2 (proj1 (range_is_landing_position defaultLaunch
                                [Launch; Update]) H))).
Defined.

Lemma flight_setup (params : Params.t) (n : nat) :
  setup (flight params n) = setup (launched params).
Proof.
  induction n as [| n IH]; [now rewrite flight_0 |].
  now rewrite flight_S, update_setup.
Qed.

Lemma flight_physics (params : Params.t) (n : nat) :
  physics (flight params n) = newPhysicsEngine /\
  maxTrajectoryPoints (flight params n) = 500%nat.
Proof.
  pose proof (flight_setup params n) as H. unfold setup in H.
  injection H as _ _ _ _ _ _ _ Hp Hc. now rewrite Hp, Hc.
Qed.

Lemma airborne_isFlying (params : Params.t) (n : nat) :
  hasLanded (flight params n) = false -> isFlying (flight params n) = true.
Proof.
  induction n as [| n IH]; intros Hl; [now rewrite flight_0 |].
  pose proof (landed_stays_landed params n Hl) as Hl0.
  specialize (IH Hl0). rewrite flight_S in Hl |- *.
  rewrite update_hasLanded in Hl by assumption.
  now rewrite update_flying.
Qed.

(** X7.  While a flight has not landed, every tick so far has run: the
    projectile is flying, [time] is 0.016 times the number of ticks, and
    [trajectory] holds one sample per tick up to its cap of 500. *)
Theorem airborne_flight_counts_ticks (params : Params.t) (n : nat) :
  hasLanded (flight params n) = false ->
  isFlying (flight params n) = true /\
  time (flight params n) = 0.016 * INR n /\
  length (trajectory (flight params n)) = Nat.min n 500.
Proof.
  induction n as [| n IH]; intros Hl.
  - rewrite flight_0. unfold launched.
    cbn [isFlying time trajectory length INR]. repeat split. ring.
  - pose proof (landed_stays_landed params n Hl) as Hl0.
    destruct (IH Hl0) as (Hf & Ht & Hlen).
    destruct (flight_physics params n) as [Hp Hc].
    rewrite flight_S in Hl |- *.
    rewrite update_hasLanded in Hl by assumption.
    rewrite update_flying by assumption.
    cbn [isFlying time trajectory]. split; [reflexivity |]. split.
    + rewrite Ht, Hp, S_INR. cbn [dt newPhysicsEngine]. ring.
    + unfold storedTrajectory. rewrite Hc, Hlen.
      destruct (Nat.ltb_spec (Nat.min n 500) 500).
      * rewrite length_app, Hlen. cbn [length]. lia.
      * rewrite Hlen. lia.
Qed.

Lemma slowLobDrag_first_tick_airborne :
  hasLanded (flight slowLobDrag 1) = false.
Proof.
  destruct slowLobDrag_launch_step as (c & k & Hc & Hk & E).
  rewrite flight_1, update_hasLanded by reflexivity.
  unfold landsNow. rewrite physicsStep_drag by reflexivity.
  change (integrateStep (physics (launched slowLobDrag))
            (state (launched slowLobDrag)) (mass (launched slowLobDrag))
            (diameter (launched slowLobDrag))
            (gravity (launched slowLobDrag)) true
            (windSpeed (launched slowLobDrag)))
    with (dragStep slowLobDrag (state (launched slowLobDrag))).
  rewrite E. cbn [y].
  replace (num_le (0 + 0.1 * (1 / 2) * 0.016) 0) with false; [reflexivity |].
  symmetry. apply num_le_false. lra.
Qed.

Lemma airborne_flight_counts_ticks_witness :
  hasLanded (flight slowLobDrag 1) = false /\
  time (flight slowLobDrag 1) = 0.016 * INR 1.
Proof.
  split; [exact slowLobDrag_first_tick_airborne |].
  exact (proj1 (proj2 (airborne_flight_counts_ticks slowLobDrag 1
                         slowLobDrag_first_tick_airborne))).
Defined.

(** ** The history of a flight and its landing position *)

Lemma reset_history (p : Projectile) :
  time (reset p) = 0 /\ trajectory (reset p) = [] /\
  hasLanded (reset p) = false /\ position (reset p) = mkPoint 0 0.
Proof. destruct p. repeat split. Qed.

Lemma launch_history (p : Projectile) :
  time (launch p) = 0 /\ trajectory (launch p) = [] /\
  hasLanded (launch p) = false /\ position (launch p) = mkPoint 0 0.
Proof. destruct p. repeat split. Qed.

Lemma run_physics (params : Params.t) (cs : list Call) :
  physics (run cs (newProjectile params)) = newPhysicsEngine.
Proof.
  pose proof (run_setup cs (newProjectile params)) as H. unfold setup in H.
  injection H as _ _ _ _ _ _ _ Hp _. rewrite Hp. reflexivity.
Qed.

(** What the history of a projectile holds: the launch point [(0, 0)],
    sampled by the first tick after a launch, and positions above the
    ground, sampled by the ticks that follow a tick without landing. *)
Lemma run_history (params : Params.t) (cs : list Call) :
  0 <= time (run cs (newProjectile params)) /\
  Forall (fun pt => pt = mkPoint 0 0 \/ 0 < py pt)
    (trajectory (run cs (newProjectile params))) /\
  (hasLanded (run cs (newProjectile params)) = false ->
   position (run cs (newProjectile params)) = mkPoint 0 0 \/
   0 < y (state (run cs (newProjectile params)))) /\
  (hasLanded (run cs (newProjectile params)) = true ->
   position (run cs (newProjectile params))
   = mkPoint (range (run cs (newProjectile params))) 0) /\
  (In (mkPoint 0 0) (trajectory (run cs (newProjectile params))) \/
   (trajectory (run cs (newProjectile params)) = [] /\
    position (run cs (newProjectile params)) = mkPoint 0 0 /\
    hasLanded (run cs (newProjectile params)) = false)).
Proof.
  induction cs as [| c cs (Ht & Hs & Ha & Hr & Ho)] using rev_ind.
  - change (run [] (newProjectile params)) with (newProjectile params).
    rewrite <- (reset_newProjectile params).
    destruct (reset_history (newProjectile params)) as (E1 & E2 & E3 & E4).
    rewrite E1, E2, E3, E4.
    split; [lra |]. split; [constructor |].
    split; [intros _; now left |]. split; [discriminate |].
    right. repeat split.
  - rewrite run_snoc.
    pose proof (run_physics params cs) as Hp.
    pose proof (run_cap params cs) as Hc.
    set (p := run cs (newProjectile params)) in *.
    destruct c; cbn [call].
    + destruct (launch_history p) as (E1 & E2 & E3 & E4).
      rewrite E1, E2, E3, E4.
      split; [lra |]. split; [constructor |].
      split; [intros _; now left |]. split; [discriminate |].
      right. repeat split.
    + destruct (active p) eqn:Hact.
      * apply active_true in Hact. destruct Hact as [Hf Hl].
        specialize (Ha Hl).
        assert (Hst : Forall (fun pt => pt = mkPoint 0 0 \/ 0 < py pt)
                        (storedTrajectory p)).
        { unfold storedTrajectory.
          destruct (_ <? _)%nat; [| exact Hs].
          apply Forall_app. split; [exact Hs |].
          constructor; [| constructor].
          destruct Ha as [E | E]; [now left | right].
          unfold position. cbn [py]. exact E. }
        assert (Hin : In (mkPoint 0 0) (storedTrajectory p)).
        { unfold storedTrajectory. destruct Ho as [Ho | (E & Epos & _)].
          - destruct (_ <? _)%nat; [apply in_or_app; now left | exact Ho].
          - rewrite E, Hc. cbn [length app Nat.ltb Nat.leb].
            rewrite Epos. now left. }
        destruct (landsNow p) eqn:Hn.
        -- rewrite (update_landing _ Hf Hl Hn).
           unfold position. cbn [time trajectory hasLanded state range].
           rewrite Hp. cbn [dt newPhysicsEngine set_y x y].
           split; [lra |]. split; [exact Hst |].
           split; [discriminate |]. split; [reflexivity |].
           now left.
        -- rewrite (update_flying _ Hf Hl Hn).
           unfold position. cbn [time trajectory hasLanded state range].
           rewrite Hp. cbn [dt newPhysicsEngine].
           split; [lra |]. split; [exact Hst |].
           split; [| split; [discriminate | now left]].
           intros _. right.
           unfold landsNow in Hn. rewrite Hp in Hn.
           cbn [dt newPhysicsEngine] in Hn.
           apply andb_false_iff in Hn. destruct Hn as [Hn | Hn].
           ++ now apply num_le_false in Hn.
           ++ apply num_gt_false in Hn. lra.
      * apply active_false in Hact. rewrite update_idle by exact Hact.
        repeat split; assumption.
    + destruct (reset_history p) as (E1 & E2 & E3 & E4).
      rewrite E1, E2, E3, E4.
      split; [lra |]. split; [constructor |].
      split; [intros _; now left |]. split; [discriminate |].
      right. repeat split.
Qed.

(** C10 (amended).  Every element of [trajectory] is the position that the
    projectile had at the start of an [update()] tick that ran while fewer
    than 500 points were stored; [trajectory] never holds more than 500
    points; and whenever the projectile has landed, after whatever calls of
    [launch()], [update()] and [reset()], the clamped landing position
    ([y = 0], [x = range]) is an element of [trajectory] only when
    [range = 0], that is, when the projectile has come down at the [x] of
    the launch point, whose position [(0, 0)] the first tick has stored:
    with a range other than 0 the landing position is never an element. *)
Theorem trajectory_holds_tick_start_positions :
  (forall (params : Params.t) (cs : list Call) (pt : Point),
     In pt (trajectory (run cs (newProjectile params))) ->
     exists cs1 cs2 : list Call,
       cs = cs1 ++ Update :: cs2 /\
       isFlying (run cs1 (newProjectile params)) = true /\
       hasLanded (run cs1 (newProjectile params)) = false /\
       (length (trajectory (run cs1 (newProjectile params))) < 500)%nat /\
       pt = position (run cs1 (newProjectile params))) /\
  (forall (params : Params.t) (cs : list Call),
     (length (trajectory (run cs (newProjectile params))) <= 500)%nat) /\
  (forall (params : Params.t) (cs : list Call),
     hasLanded (run cs (newProjectile params)) = true ->
     position (run cs (newProjectile params))
     = mkPoint (range (run cs (newProjectile params))) 0 /\
     (In (mkPoint (range (run cs (newProjectile params))) 0)
         (trajectory (run cs (newProjectile params)))
      <-> range (run cs (newProjectile params)) = 0)).
Proof.
  split; [| split].
  - intros params cs pt Hin.
    destruct (run_trajectory_origin params cs pt Hin)
      as (cs1 & cs2 & E & Hf & Hl & Hlen & Hp).
    exists cs1, cs2. rewrite run_cap in Hlen. auto.
  - apply run_trajectory_length.
  - intros params cs Hl.
    destruct (run_history params cs) as (_ & Hs & _ & Hr & Ho).
    split; [exact (Hr Hl) |]. split.
    + intros Hin. rewrite Forall_forall in Hs.
      destruct (Hs _ Hin) as [E | E].
      * now injection E.
      * cbn [py] in E. lra.
    + intros E. rewrite E.
      destruct Ho as [Ho | (_ & _ & Hl')]; [exact Ho | congruence].
Qed.

Lemma trajectory_holds_tick_start_positions_witness :
  (In (mkPoint 0 0)
      (trajectory (run [Launch; Update] (newProjectile zeroAngleLaunch))) /\
   exists cs1 cs2 : list Call,
     [Launch; Update] = cs1 ++ Update :: cs2 /\
     mkPoint 0 0 = position (run cs1 (newProjectile zeroAngleLaunch))) /\
  (hasLanded (run [Launch; Update; Update] (newProjectile slowLobDrag))
   = true /\
   range (run [Launch; Update; Update] (newProjectile slowLobDrag)) <> 0 /\
   ~ In (mkPoint
           (range (run [Launch; Update; Update] (newProjectile slowLobDrag)))
           0)
       (trajectory
          (run [Launch; Update; Update] (newProjectile slowLobDrag)))).
Proof.
  split.
  - assert (H : In (mkPoint 0 0)
                  (trajectory
                     (run [Launch; Update] (newProjectile zeroAngleLaunch)))).
    { change [Launch; Update] with (Launch :: repeat Update 1).
      rewrite (run_flight zeroAngleLaunch 1).
      rewrite (analytic_first_tick zeroAngleLaunch eq_refl eq_refl).
      now left. }
    split; [exact H |].
    destruct (proj1 trajectory_holds_tick_start_positions
                zeroAngleLaunch [Launch; Update] (mkPoint 0 0) H)
      as (cs1 & cs2 & E & _ & _ & _ & Hp).
    exists cs1, cs2. auto.
  - change [Launch; Update; Update] with (Launch :: repeat Update 2).
    destruct slowLobDrag_second_tick as [Hl Hr].
    rewrite <- (run_flight slowLobDrag 2) in Hl, Hr.
    split; [exact Hl |]. split; [lra |].
    intros Hin.
    destruct (proj2 (proj2 trajectory_holds_tick_start_positions)
                slowLobDrag (Launch :: repeat Update 2) Hl) as [_ [H _]].
    apply H in Hin. lra.
Defined.

(** ** The potential energy on display *)

Lemma reset_heights (p : Projectile) :
  maxHeight (reset p) = 0 /\ y (state (reset p)) = 0.
Proof. destruct p. split; reflexivity. Qed.

Lemma launch_heights (p : Projectile) :
  maxHeight (launch p) = 0 /\ y (state (launch p)) = 0.
Proof. destruct p. split; reflexivity. Qed.

(** [maxHeight] is never negative and never below the height of the
    projectile. *)
Lemma run_maxHeight (params : Params.t) (cs : list Call) :
  0 <= maxHeight (run cs (newProjectile params)) /\
  y (state (run cs (newProjectile params)))
  <= maxHeight (run cs (newProjectile params)).
Proof.
  induction cs as [| c cs [H0 Hy]] using rev_ind.
  - change (run [] (newProjectile params)) with (newProjectile params).
    rewrite <- (reset_newProjectile params).
    destruct (reset_heights (newProjectile params)) as [E1 E2].
    rewrite E1, E2. lra.
  - rewrite run_snoc. set (p := run cs (newProjectile params)) in *.
    destruct c; cbn [call].
    + destruct (launch_heights p) as [E1 E2]. rewrite E1, E2. lra.
    + destruct (active p) eqn:Hact.
      * apply active_true in Hact. destruct Hact as [Hf Hl].
        pose proof (Rmax_l (maxHeight p) (y (physicsStep p))) as Ml.
        pose proof (Rmax_r (maxHeight p) (y (physicsStep p))) as Mr.
        destruct (landsNow p) eqn:Hn.
        -- rewrite (update_landing _ Hf Hl Hn).
           cbn [maxHeight state set_y y].
           rewrite trackedMaxHeight_Rmax. lra.
        -- rewrite (update_flying _ Hf Hl Hn). cbn [maxHeight state].
           rewrite trackedMaxHeight_Rmax. lra.
      * apply active_false in Hact. rewrite update_idle by exact Hact.
        split; assumption.
    + destruct (reset_heights p) as [E1 E2]. rewrite E1, E2. lra.
Qed.

(** X4.  Whatever has been called on a projectile ([launch()],
    [update()], [reset()]), with mass times gravity not negative, the
    potential energy that the analysis display computes for it is not
    negative and never above the maximal potential energy that the display
    computes from [maxHeight]; for [maxHeight] is never below the height of
    the projectile, nor below 0. *)
Theorem potential_energy_below_max (params : Params.t) (cs : list Call) :
  0 <= Params.mass params * Params.gravity params ->
  0 <= potentialEnergy (run cs (newProjectile params))
    <= maxPE (run cs (newProjectile params)) /\
  0 <= maxHeight (run cs (newProjectile params)) /\
  y (state (run cs (newProjectile params)))
  <= maxHeight (run cs (newProjectile params)).
Proof.
  intros Hmg. destruct (run_maxHeight params cs) as [H0 Hy].
  split; [| split; assumption].
  pose proof (run_setup cs (newProjectile params)) as Hs.
  unfold setup in Hs. injection Hs as _ _ Hm _ Hg _ _ _ _.
  unfold potentialEnergy, maxPE. rewrite Hm, Hg.
  change (mass (newProjectile params)) with (Params.mass params).
  change (gravity (newProjectile params)) with (Params.gravity params).
  set (p := run cs (newProjectile params)) in *.
  assert (Hr : 0 <= Rmax 0 (y (state p)) <= maxHeight p).
  { split; [apply Rmax_l | apply Rmax_lub; assumption]. }
  set (h := Rmax 0 (y (state p))) in *.
  set (k := Params.mass params * Params.gravity params) in *.
  split; nra.
Qed.

Lemma potential_energy_below_max_witness :
  0 <= Params.mass slowLobDrag * Params.gravity slowLobDrag /\
  potentialEnergy (run [Launch; Update] (newProjectile slowLobDrag))
  <= maxPE (run [Launch; Update] (newProjectile slowLobDrag)).
Proof.
  assert (H : 0 <= Params.mass slowLobDrag * Params.gravity slowLobDrag).
  { unfold slowLobDrag, slowLob, withAirResistance.
    cbn [Params.mass Params.gravity]. lra. }
  split; [exact H |].
  exact (proj2 (proj1 (potential_energy_below_max slowLobDrag
                         [Launch; Update] H))).
Defined.

(** ** The predicted path, point by point *)

Lemma trajectoryLoop_points (this : TrajectoryPredictor) (params : Params.t)
  (dt maxTime : R) (d0 : Point) (fuel : nat) :
  forall (t : R) (s : State) (pts : list Point),
    trajectoryLoop fuel this params dt maxTime t s [] = Some pts ->
    forall j : nat, (j < length pts)%nat ->
      nth j pts d0 = pointOf (loopState this params dt t s j).
Proof.
  induction fuel as [| fuel IH]; intros t s pts; cbn [trajectoryLoop].
  - discriminate.
  - destruct (num_lt t maxTime).
    + destruct (num_lt (y s) 0 && num_gt t 0.01).
      * intros [= <-] j Hj. cbn [app length] in Hj.
        assert (j = 0)%nat by lia. subst j. reflexivity.
      * rewrite trajectoryLoop_app.
        destruct (trajectoryLoop fuel this params dt maxTime (t + dt)
                    (predictorStep this params s t) []) as [rest |] eqn:E;
          [| discriminate].
        cbn [option_map app]. intros [= <-] j Hj.
        destruct j as [| j]; [reflexivity |].
        cbn [nth loopState]. apply (IH _ _ _ E). cbn [length] in Hj. lia.
    + intros [= <-] j Hj. cbn in Hj. lia.
Qed.

Lemma calculateTrajectory_points (this : TrajectoryPredictor)
  (params : Params.t) (fuel : nat) (pts : list Point) (d0 : Point) :
  calculateTrajectory fuel this params = Some pts ->
  forall j : nat, (j < length pts)%nat ->
    nth j pts d0
    = pointOf (loopState this params 0.05 0 (predictorStart params) j).
Proof.
  unfold calculateTrajectory. intros H.
  exact (trajectoryLoop_points this params 0.05 30 d0 fuel 0
           (predictorStart params) pts H).
Qed.

Lemma predictorStep_analytic (this : TrajectoryPredictor)
  (params : Params.t) (s : State) (t : R) :
  Params.airResistance params = false ->
  Params.windEnabled params = false \/ Params.windSpeed params = Some 0 ->
  predictorStep this params s t =
  calculateNoAirResistance (Params.velocity params) (Params.angle params)
    (Params.gravity params) t.
Proof.
  intros Ha Hw. unfold predictorStep. rewrite Ha.
  assert (Z : Params.windEnabled params
              && opt_neq0 (Params.windSpeed params) = false).
  { destruct Hw as [-> | ->]; [reflexivity |].
    cbn [opt_neq0]. replace (num_neq 0 0) with false.
    - apply andb_false_r.
    - symmetry. now apply num_neq_false. }
  now rewrite Z.
Qed.

Lemma loopState_analytic (this : TrajectoryPredictor) (params : Params.t)
  (dt : R) :
  Params.airResistance params = false ->
  Params.windEnabled params = false \/ Params.windSpeed params = Some 0 ->
  forall (j : nat) (t : R) (s : State),
    loopState this params dt t s (S j) =
    calculateNoAirResistance (Params.velocity params) (Params.angle params)
      (Params.gravity params) (t + dt * INR j).
Proof.
  intros Ha Hw. induction j as [| j IH]; intros t s.
  - cbn [loopState INR]. rewrite predictorStep_analytic by assumption.
    f_equal. ring.
  - change (loopState this params dt t s (S (S j)))
      with (loopState this params dt (t + dt)
              (predictorStep this params s t) (S j)).
    rewrite IH. f_equal. rewrite (S_INR j). ring.
Qed.

(** X8.  Without drag and wind, whatever [calculateTrajectory] returns
    starts with the launch point twice: its first point is [(0, 0)], and its
    point number [j + 1] is the closed-form position at loop time
    [0.05 * j], one pass behind the loop time at which it is pushed. *)
Theorem dragfree_prediction_lags_closed_form
  (this : TrajectoryPredictor) (params : Params.t) (fuel : nat)
  (pts : list Point) :
  Params.airResistance params = false ->
  Params.windEnabled params = false \/ Params.windSpeed params = Some 0 ->
  calculateTrajectory fuel this params = Some pts ->
  nth 0 pts (mkPoint 0 0) = mkPoint 0 0 /\
  forall j : nat, (S j < length pts)%nat ->
    nth (S j) pts (mkPoint 0 0)
    = pointOf (calculateNoAirResistance (Params.velocity params)
                 (Params.angle params) (Params.gravity params)
                 (0.05 * INR j)).
Proof.
  intros Ha Hw H. split.
  - destruct pts as [| p pts]; [reflexivity |].
    rewrite (calculateTrajectory_points this params fuel _ _ H 0%nat)
      by (cbn; lia).
    reflexivity.
  - intros j Hj.
    rewrite (calculateTrajectory_points this params fuel _ _ H (S j) Hj).
    rewrite loopState_analytic by assumption. f_equal. f_equal. ring.
Qed.

Lemma calculateTrajectory_returns (this : TrajectoryPredictor)
  (params : Params.t) :
  exists pts : list Point,
    pts <> [] /\
    forall fuel : nat, (600 < fuel)%nat ->
      calculateTrajectory fuel this params = Some pts.
Proof.
  destruct (trajectoryLoop_run this params 0.05 30 (mkPoint 0 0)
              ltac:(lra) 600 0 (predictorStart params))
    as (pts & Hrun & _ & Hne & _).
  { replace (INR 600) with 600 by (rewrite INR_IZR_INZ; reflexivity). lra. }
  exists pts. split; [apply Hne; lia |].
  intros fuel Hf. unfold calculateTrajectory. now apply Hrun.
Qed.

Lemma dragfree_prediction_lags_closed_form_witness :
  exists pts : list Point,
    calculateTrajectory 601 newTrajectoryPredictor defaultLaunch = Some pts /\
    nth 0 pts (mkPoint 0 0) = mkPoint 0 0.
Proof.
  destruct (calculateTrajectory_returns newTrajectoryPredictor defaultLaunch)
    as (pts & _ & Hrun).
  exists pts. split; [apply Hrun; lia |].
  exact (proj1 (dragfree_prediction_lags_closed_form newTrajectoryPredictor
                  defaultLaunch 601 pts eq_refl (or_introl eq_refl)
                  (Hrun 601%nat ltac:(lia)))).
Defined.

Lemma windArgument_windless (params : Params.t) :
  windless params -> windArgument params = 0.
Proof.
  unfold windless, windArgument.
  destruct (Params.windEnabled params); [| reflexivity].
  destruct (Params.windSpeed params); auto.
Qed.

Lemma predictorStep_drag (params : Params.t) (s : State) (t : R) :
  Params.airResistance params = true -> windless params ->
  predictorStep newTrajectoryPredictor params s t = dragStep params s.
Proof.
  intros Ha Hw. unfold predictorStep. rewrite Ha.
  rewrite (windArgument_windless params Hw). reflexivity.
Qed.

Lemma loopState_drag (params : Params.t) (dt : R) :
  Params.airResistance params = true -> windless params ->
  forall (j : nat) (t : R) (s : State),
    loopState newTrajectoryPredictor params dt t s j = dragSteps params j s.
Proof.
  intros Ha Hw. induction j as [| j IH]; intros t s; [reflexivity |].
  cbn [loopState dragSteps]. rewrite predictorStep_drag by assumption.
  apply IH.
Qed.

Lemma dragSteps_snoc (params : Params.t) (n : nat) :
  forall s : State,
    dragSteps params (S n) s = dragStep params (dragSteps params n s).
Proof.
  induction n as [| n IH]; intros s; [reflexivity |].
  change (dragSteps params (S (S n)) s)
    with (dragSteps params (S n) (dragStep params s)).
  rewrite IH. reflexivity.
Qed.

Lemma physicsStep_dragStep_flight (params : Params.t) (n : nat) :
  Params.airResistance params = true -> windless params ->
  physicsStep (flight params n) = dragStep params (state (flight params n)).
Proof.
  intros Ha Hw. pose proof (flight_setup params n) as H.
  unfold setup in H. injection H as _ _ Hm Hd Hg Hair Hws Hp _.
  assert (Hw0 : windSpeed (flight params n) = 0)
    by (rewrite Hws; exact (launched_windSpeed params Hw)).
  rewrite physicsStep_drag by (rewrite Hair; exact Ha).
  rewrite Hm, Hd, Hg, Hw0, Hp. reflexivity.
Qed.

Lemma airborne_drag_state (params : Params.t) :
  Params.airResistance params = true -> windless params ->
  forall n : nat,
    hasLanded (flight params n) = false ->
    state (flight params n)
    = dragSteps params n (state (launched params)).
Proof.
  intros Ha Hw. induction n as [| n IH]; intros Hl.
  - now rewrite flight_0.
  - pose proof (landed_stays_landed params n Hl) as Hl0.
    pose proof (airborne_isFlying params n Hl0) as Hf.
    rewrite dragSteps_snoc, <- (IH Hl0).
    rewrite <- physicsStep_dragStep_flight by assumption.
    rewrite flight_S in Hl |- *.
    rewrite update_hasLanded in Hl by assumption.
    now rewrite update_flying.
Qed.

(** X9.  With drag and no wind the predictor takes the very Euler steps of
    0.016 that [update()] takes, although its loop time advances by 0.05:
    whatever [calculateTrajectory] returns, its point number [j] is the
    position of the live flight after [j] ticks, for every [j] at which that
    flight has not yet landed. *)
Theorem drag_prediction_follows_ticks (params : Params.t) (fuel : nat)
  (pts : list Point) (j : nat) :
  Params.airResistance params = true -> windless params ->
  calculateTrajectory fuel newTrajectoryPredictor params = Some pts ->
  (j < length pts)%nat ->
  hasLanded (flight params j) = false ->
  nth j pts (mkPoint 0 0) = position (flight params j).
Proof.
  intros Ha Hw H Hj Hl.
  rewrite (calculateTrajectory_points _ params fuel _ _ H j Hj).
  rewrite loopState_drag by assumption.
  unfold position. rewrite (airborne_drag_state params Ha Hw j Hl).
  reflexivity.
Qed.

Lemma num_lt_yes (a b : R) : a < b -> num_lt a b = true.
Proof. apply num_lt_true. Qed.

Lemma num_gt_no (a b : R) : a <= b -> num_gt a b = false.
Proof. apply num_gt_false. Qed.

Lemma calculateTrajectory_length (this : TrajectoryPredictor)
  (params : Params.t) (fuel : nat) (pts : list Point) :
  calculateTrajectory fuel this params = Some pts -> (1 < length pts)%nat.
Proof.
  unfold calculateTrajectory.
  destruct fuel as [| [| fuel]]; cbn [trajectoryLoop].
  - discriminate.
  - rewrite (num_lt_yes 0 30) by lra.
    rewrite (num_gt_no 0 0.01) by lra. rewrite andb_false_r. discriminate.
  - rewrite (num_lt_yes 0 30) by lra.
    rewrite (num_gt_no 0 0.01) by lra. rewrite andb_false_r.
    rewrite (num_lt_yes (0 + 0.05) 30) by lra.
    destruct (num_lt _ 0 && num_gt (0 + 0.05) 0.01).
    + intros [= <-]. cbn. lia.
    + rewrite trajectoryLoop_app.
      destruct (trajectoryLoop fuel _ _ _ _ _ _ []); [| discriminate].
      cbn [option_map]. intros [= <-]. cbn [length]. lia.
Qed.

(** X10.  Whatever [calculateTrajectory] returns has at least two points
    (so the [points.length < 2] guard of [drawPrediction] never fires): the
    first pass cannot leave the loop, because its loop time 0 is not above
    0.01. *)
Theorem prediction_has_two_points (this : TrajectoryPredictor)
  (params : Params.t) (fuel : nat) (pts : list Point) :
  calculateTrajectory fuel this params = Some pts ->
  (2 <= length pts)%nat.
Proof.
  intros H. pose proof (calculateTrajectory_length this params fuel pts H).
  lia.
Qed.

Lemma prediction_has_two_points_witness :
  exists pts : list Point,
    calculateTrajectory 601 newTrajectoryPredictor slowLobDrag = Some pts /\
    (2 <= length pts)%nat.
Proof.
  destruct (calculateTrajectory_returns newTrajectoryPredictor slowLobDrag)
    as (pts & _ & Hrun).
  exists pts. split; [apply Hrun; lia |].
  exact (prediction_has_two_points newTrajectoryPredictor slowLobDrag 601
           pts (Hrun 601%nat ltac:(lia))).
Defined.

Lemma drag_prediction_follows_ticks_witness :
  exists pts : list Point,
    calculateTrajectory 601 newTrajectoryPredictor slowLobDrag = Some pts /\
    (1 < length pts)%nat /\
    hasLanded (flight slowLobDrag 1) = false /\
    nth 1 pts (mkPoint 0 0) = position (flight slowLobDrag 1).
Proof.
  destruct (calculateTrajectory_returns newTrajectoryPredictor slowLobDrag)
    as (pts & _ & Hrun).
  pose proof (Hrun 601%nat ltac:(lia)) as H.
  pose proof (calculateTrajectory_length _ _ _ _ H) as Hlen.
  exists pts. split; [exact H |]. split; [exact Hlen |].
  split; [exact slowLobDrag_first_tick_airborne |].
  exact (drag_prediction_follows_ticks slowLobDrag 601 pts 1 eq_refl eq_refl
           H Hlen slowLobDrag_first_tick_airborne).
Defined.

(** ** Target practice *)

Lemma checkHitLoop_none (px py pr : R) (ts : list Target.t) :
  checkHitLoop ts px py pr = None ->
  Forall (fun t => hittable t px py pr = false) ts.
Proof.
  induction ts as [| t ts IH]; cbn [checkHitLoop]; intros H; [constructor |].
  destruct (Target.hit t) eqn:Hh.
  - destruct (checkHitLoop ts px py pr) as [[rest pts] |];
      [discriminate |].
    constructor; [| now apply IH]. unfold hittable. now rewrite Hh.
  - destruct (inReach t px py pr) eqn:Hr; [discriminate |].
    destruct (checkHitLoop ts px py pr) as [[rest pts] |];
      [discriminate |].
    constructor; [| now apply IH]. unfold hittable. now rewrite Hh, Hr.
Qed.

Lemma checkHitLoop_some (px py pr : R) (ts ts' : list Target.t) (pts : R) :
  checkHitLoop ts px py pr = Some (ts', pts) ->
  exists (l1 : list Target.t) (t : Target.t) (l2 : list Target.t),
    ts = l1 ++ t :: l2 /\
    Forall (fun u => hittable u px py pr = false) l1 /\
    hittable t px py pr = true /\
    ts' = l1 ++ setHit t true :: l2 /\
    pts = Target.points t.
Proof.
  revert ts' pts.
  induction ts as [| t ts IH]; cbn [checkHitLoop]; intros ts' pts H;
    [discriminate |].
  destruct (Target.hit t) eqn:Hh.
  - destruct (checkHitLoop ts px py pr) as [[rest q] |] eqn:E;
      [| discriminate].
    injection H as <- <-.
    destruct (IH rest q eq_refl) as (l1 & u & l2 & -> & F & Hu & -> & ->).
    exists (t :: l1), u, l2. repeat split; auto.
    constructor; [| exact F]. unfold hittable. now rewrite Hh.
  - destruct (inReach t px py pr) eqn:Hr.
    + injection H as <- <-. exists [], t, ts. repeat split; auto.
      unfold hittable. now rewrite Hh, Hr.
    + destruct (checkHitLoop ts px py pr) as [[rest q] |] eqn:E;
        [| discriminate].
      injection H as <- <-.
      destruct (IH rest q eq_refl) as (l1 & u & l2 & -> & F & Hu & -> & ->).
      exists (t :: l1), u, l2. repeat split; auto.
      constructor; [| exact F]. unfold hittable. now rewrite Hh, Hr.
Qed.

(** X11.  [checkHit] returns false exactly when no target is both un-hit
    and in reach, and then it changes nothing.  When it returns true it has
    marked one target, the first in the list that is un-hit and in reach,
    has left every other target as it was, and has added that target's
    points to the score. *)
Theorem checkHit_first_in_reach (this : TargetSystem) (px py pr : R) :
  (fst (checkHit this px py pr) = false ->
   snd (checkHit this px py pr) = this /\
   Forall (fun t => hittable t px py pr = false) (targets this)) /\
  (fst (checkHit this px py pr) = true ->
   exists (l1 : list Target.t) (t : Target.t) (l2 : list Target.t),
     targets this = l1 ++ t :: l2 /\
     Forall (fun u => hittable u px py pr = false) l1 /\
     hittable t px py pr = true /\
     targets (snd (checkHit this px py pr)) = l1 ++ setHit t true :: l2 /\
     score (snd (checkHit this px py pr)) = score this + Target.points t).
Proof.
  unfold checkHit.
  destruct (checkHitLoop (targets this) px py pr) as [[ts' pts] |] eqn:E;
    cbn [fst snd targets score].
  - split; [intros A; discriminate |]. intros _.
    destruct (checkHitLoop_some px py pr _ _ _ E)
      as (l1 & t & l2 & E1 & F & Ht & -> & ->).
    exists l1, t, l2. auto.
  - split; [| intros A; discriminate]. intros _.
    split; [reflexivity | now apply checkHitLoop_none].
Qed.

Lemma inReach_centre (t : Target.t) (pr : R) :
  0 < Target.radius t + pr ->
  inReach t (Target.x t) (Target.y t) pr = true.
Proof.
  intros H. unfold inReach. apply num_lt_true.
  replace ((Target.x t - Target.x t) * (Target.x t - Target.x t)
           + (Target.y t - Target.y t) * (Target.y t - Target.y t))
    with 0 by ring.
  now rewrite sqrt_0.
Qed.

Lemma checkHit_single_target (x0 y0 r pr : R) :
  0 < r + pr ->
  fst (checkHit (addTarget newTargetSystem x0 y0 (Some r)) x0 y0 pr) = true.
Proof.
  intros H. unfold checkHit, addTarget, newTargetSystem.
  cbn [targets app checkHitLoop Target.hit].
  pose proof (inReach_centre (Target.mk x0 y0 r false (floor (100 / r)))
                pr H) as E.
  cbn [Target.x Target.y] in E. rewrite E. reflexivity.
Qed.

Lemma checkHit_first_in_reach_witness :
  fst (checkHit (addTarget newTargetSystem 30 10 (Some 1)) 30 10 0.25)
    = true /\
  exists (l1 : list Target.t) (t : Target.t) (l2 : list Target.t),
    targets (addTarget newTargetSystem 30 10 (Some 1)) = l1 ++ t :: l2 /\
    score (snd (checkHit (addTarget newTargetSystem 30 10 (Some 1))
                  30 10 0.25))
      = score (addTarget newTargetSystem 30 10 (Some 1)) + Target.points t.
Proof.
  assert (H : fst (checkHit (addTarget newTargetSystem 30 10 (Some 1))
                     30 10 0.25) = true)
    by (apply checkHit_single_target; lra).
  split; [exact H |].
  destruct (proj2 (checkHit_first_in_reach
                     (addTarget newTargetSystem 30 10 (Some 1)) 30 10 0.25)
              H) as (l1 & t & l2 & E & _ & _ & _ & S).
  exists l1, t, l2. auto.
Defined.

Lemma hitCount_app (l1 l2 : list Target.t) :
  hitCount (l1 ++ l2) = (hitCount l1 + hitCount l2)%nat.
Proof. unfold hitCount. now rewrite filter_app, length_app. Qed.

Lemma hittable_unhit (t : Target.t) (px py pr : R) :
  hittable t px py pr = true -> Target.hit t = false.
Proof.
  unfold hittable. destruct (Target.hit t); [discriminate | reflexivity].
Qed.

(** X12.  A [checkHit] call keeps the number of targets and raises the
    number of hit targets by one when it returns true and by nothing when
    it returns false, so the animation loop's comparison of the counts
    before and after the call tells exactly what the call returned. *)
Theorem checkHit_hit_count (this : TargetSystem) (px py pr : R) :
  length (targets (snd (checkHit this px py pr))) = length (targets this) /\
  hitCount (targets (snd (checkHit this px py pr)))
  = (hitCount (targets this)
     + (if fst (checkHit this px py pr) then 1 else 0))%nat.
Proof.
  unfold checkHit.
  destruct (checkHitLoop (targets this) px py pr) as [[ts' pts] |] eqn:E;
    cbn [fst snd targets].
  - destruct (checkHitLoop_some px py pr _ _ _ E)
      as (l1 & t & l2 & -> & _ & Ht & -> & _).
    apply hittable_unhit in Ht. split.
    + rewrite !length_app. reflexivity.
    + rewrite !hitCount_app. unfold hitCount. cbn [filter setHit Target.hit].
      rewrite Ht. cbn [length]. lia.
  - split; [reflexivity | lia].
Qed.

Lemma hitPoints_app (l1 l2 : list Target.t) :
  hitPoints (l1 ++ l2) = hitPoints l1 + hitPoints l2.
Proof.
  induction l1 as [| t l1 IH]; cbn [app hitPoints]; [ring |].
  rewrite IH. ring.
Qed.

Lemma hitPoints_reset (ts : list Target.t) :
  hitPoints (map (fun target => setHit target false) ts) = 0.
Proof.
  induction ts as [| t ts IH]; cbn [map hitPoints setHit Target.hit];
    [reflexivity |].
  rewrite IH. ring.
Qed.

Lemma targetCall_score (c : TargetCall) (this : TargetSystem) :
  score this = hitPoints (targets this) ->
  score (targetCall c this) = hitPoints (targets (targetCall c this)).
Proof.
  intros H. destruct c as [x0 y0 r | px py pr | |]; cbn [targetCall].
  - unfold addTarget. cbn [targets score]. rewrite hitPoints_app.
    cbn [hitPoints Target.hit]. rewrite H. ring.
  - unfold checkHit.
    destruct (checkHitLoop (targets this) px py pr) as [[ts' pts] |] eqn:E;
      cbn [snd targets score]; [| exact H].
    destruct (checkHitLoop_some px py pr _ _ _ E)
      as (l1 & t & l2 & E1 & _ & Ht & -> & ->).
    apply hittable_unhit in Ht. rewrite H, E1. rewrite !hitPoints_app.
    cbn [hitPoints setHit Target.hit Target.points]. rewrite Ht. ring.
  - unfold resetTargets. cbn [targets score]. now rewrite hitPoints_reset.
  - reflexivity.
Qed.

(** X13.  Through any sequence of [addTarget], [checkHit], [reset] and
    [clear] calls on a new target system, the score is the sum of the points
    of the targets that are marked hit: no target is ever counted twice. *)
Theorem score_is_sum_of_hit_points (cs : list TargetCall) :
  score (targetRun cs newTargetSystem)
  = hitPoints (targets (targetRun cs newTargetSystem)).
Proof.
  induction cs as [| c cs IH] using rev_ind; [reflexivity |].
  unfold targetRun in *. rewrite fold_left_app. cbn [fold_left].
  now apply targetCall_score.
Qed.

Lemma floor_bounds (r : R) : r - 1 < floor r <= r.
Proof.
  unfold floor. destruct (base_Int_part r) as [A B]. lra.
Qed.

Lemma floor_ge (r : R) (z : Z) : IZR z <= r -> IZR z <= floor r.
Proof.
  intros H. unfold floor. apply IZR_le.
  destruct (base_Int_part r) as [_ B].
  assert (IZR z - 1 < IZR (Int_part r)) by lra.
  rewrite <- minus_IZR in H0. apply lt_IZR in H0. lia.
Qed.

Lemma addTarget_fresh (this : TargetSystem) (a b c : R) :
  0 <= a < 1 -> 0 <= b < 1 -> 0 <= c < 1 ->
  Forall freshRandomTarget (targets this) ->
  Forall freshRandomTarget
    (targets (addTarget this (20 + a * 60) (5 + b * 20)
                (Some (0.5 + c * 1.5)))).
Proof.
  intros Ha Hb Hc F. unfold addTarget. cbn [targets].
  apply Forall_app. split; [exact F |]. constructor; [| constructor].
  unfold freshRandomTarget.
  cbn [Target.hit Target.x Target.y Target.radius Target.points].
  split; [reflexivity |]. split; [lra |]. split; [lra |]. split; [lra |].
  set (r := 0.5 + c * 1.5).
  assert (Hr : 0.5 <= r < 2) by (unfold r; lra).
  assert (Hq : 50 <= 100 / r <= 200).
  { split.
    - apply Rmult_le_reg_r with r; [lra |].
      unfold Rdiv. rewrite Rmult_assoc, Rinv_l by lra. lra.
    - apply Rmult_le_reg_r with r; [lra |].
      unfold Rdiv. rewrite Rmult_assoc, Rinv_l by lra. lra. }
  split.
  - apply (floor_ge (100 / r) 50). lra.
  - pose proof (floor_bounds (100 / r)). lra.
Qed.

Lemma createRandomLoop_spec (count : nat) :
  forall (this : TargetSystem) (random : nat -> R),
    (forall k : nat, 0 <= random k < 1) ->
    Forall freshRandomTarget (targets this) ->
    score (createRandomLoop this count random) = score this /\
    length (targets (createRandomLoop this count random))
      = (length (targets this) + count)%nat /\
    Forall freshRandomTarget (targets (createRandomLoop this count random)).
Proof.
  induction count as [| count IH]; intros this random Hr F;
    cbn [createRandomLoop].
  - split; [reflexivity |]. split; [lia | exact F].
  - destruct (IH (addTarget this (20 + random 0%nat * 60)
                    (5 + random 1%nat * 20)
                    (Some (0.5 + random 2%nat * 1.5)))
                (fun k => random (3 + k)%nat))
      as (Hs & Hl & HF).
    + intros k. apply Hr.
    + apply addTarget_fresh; auto.
    + split; [rewrite Hs; reflexivity |]. split; [| exact HF].
      rewrite Hl. unfold addTarget. cbn [targets].
      rewrite length_app. cbn [length]. lia.
Qed.

(** X14.  [createRandomTargets(count)] replaces the targets by [count] new
    ones and keeps the score as it was, points of replaced targets
    included.  When [Math.random()] returns values in [0, 1), every new
    target is un-hit, lies at [20 <= x < 80], [5 <= y < 25], has a radius
    in [0.5, 2) and is worth between 50 and 200 points. *)
Theorem createRandomTargets_spec (this : TargetSystem) (count : nat)
  (random : nat -> R) :
  (forall k : nat, 0 <= random k < 1) ->
  score (createRandomTargets this count random) = score this /\
  length (targets (createRandomTargets this count random)) = count /\
  Forall freshRandomTarget (targets (createRandomTargets this count random)).
Proof.
  intros Hr. unfold createRandomTargets.
  destruct (createRandomLoop_spec count
              {| targets := []; score := score this |} random Hr
              (Forall_nil _)) as (Hs & Hl & HF).
  split; [exact Hs |]. split; [exact Hl | exact HF].
Qed.

Lemma createRandomTargets_spec_witness :
  (forall k : nat, 0 <= (fun _ : nat => 0.5) k < 1) /\
  score (createRandomTargets
           (mkTargetSystem [Target.mk 30 10 1 true 100] 100) 5
           (fun _ => 0.5)) = 100.
Proof.
  assert (H : forall k : nat, 0 <= (fun _ : nat => 0.5) k < 1)
    by (intros k; cbv beta; lra).
  split; [exact H |].
  exact (proj1 (createRandomTargets_spec
                  (mkTargetSystem [Target.mk 30 10 1 true 100] 100) 5
                  (fun _ => 0.5) H)).
Defined.

(** ** The Euler scheme without drag *)

Lemma eulerSteps_snoc (m d g : R) (air : bool) (w : R) (n : nat) :
  forall s : State,
    eulerSteps m d g air w (S n) s =
    integrateStep newPhysicsEngine (eulerSteps m d g air w n s) m d g air w.
Proof.
  induction n as [| n IH]; intros s; [reflexivity |].
  change (eulerSteps m d g air w (S (S n)) s)
    with (eulerSteps m d g air w (S n)
            (integrateStep newPhysicsEngine s m d g air w)).
  rewrite IH. reflexivity.
Qed.

Lemma specWindForce_calm (d m : R) : specWindForce 0 d / m = 0.
Proof. unfold specWindForce, Rdiv. ring. Qed.

Lemma specAcceleration_dragfree (vx0 vy0 m d g w : R) :
  specAcceleration vx0 vy0 m d g false w
  = (0 + specWindForce w d / m, - g + 0).
Proof.
  unfold specAcceleration. cbn [fst snd].
  destruct (num_neq w 0) eqn:E; [reflexivity |].
  apply num_neq_false in E. subst w.
  now rewrite specWindForce_calm.
Qed.

Lemma eulerSteps_dragfree (m d g w : R) (n : nat) (s : State) :
  eulerSteps m d g false w n s
  = eulerParabola (specWindForce w d / m) g n s.
Proof.
  set (A := specWindForce w d / m). induction n as [| n IH].
  - unfold eulerParabola. cbn [eulerSteps INR]. destruct s as [a b c e].
    cbn [x y vx vy]. apply State_eq; field.
  - rewrite eulerSteps_snoc, IH, integrateStep_spec,
      specAcceleration_dragfree.
    fold A. unfold eulerParabola. cbn [x y vx vy fst snd]. rewrite S_INR.
    apply State_eq; field.
Qed.

(** X15.  Without drag, [n] consecutive [integrateStep] calls move a state
    along the parabola of the constant acceleration
    [(windForce / mass, - g)] as the Euler sums give it.  From a launch
    state and without wind this agrees with the closed form at time
    [0.016 * n] in [x], [vx] and [vy], and lies above it in [y] by exactly
    [g * 0.016 * (0.016 * n) / 2]. *)
Theorem euler_without_drag (m d g w v0 a : R) (n : nat) (s : State) :
  eulerSteps m d g false w n s
    = eulerParabola (specWindForce w d / m) g n s /\
  x (eulerSteps m d g false 0 n (calculateNoAirResistance v0 a g 0))
    = x (calculateNoAirResistance v0 a g (0.016 * INR n)) /\
  vx (eulerSteps m d g false 0 n (calculateNoAirResistance v0 a g 0))
    = vx (calculateNoAirResistance v0 a g (0.016 * INR n)) /\
  vy (eulerSteps m d g false 0 n (calculateNoAirResistance v0 a g 0))
    = vy (calculateNoAirResistance v0 a g (0.016 * INR n)) /\
  y (eulerSteps m d g false 0 n (calculateNoAirResistance v0 a g 0))
    = y (calculateNoAirResistance v0 a g (0.016 * INR n))
      + g * 0.016 * (0.016 * INR n) / 2.
Proof.
  split; [apply eulerSteps_dragfree |].
  rewrite eulerSteps_dragfree, specWindForce_calm. unfold eulerParabola.
  rewrite calculateNoAirResistance_0. unfold calculateNoAirResistance.
  cbn [x y vx vy]. replace 0.5 with (/ 2) by lra.
  repeat split; field.
Qed.

Lemma physicsStep_wind (p : Projectile) :
  airResistance p = false -> windSpeed p <> 0 ->
  physicsStep p =
  integrateStep (physics p) (state p) (mass p) (diameter p) (gravity p)
    false (windSpeed p).
Proof.
  intros Ha Hw. unfold physicsStep. rewrite Ha.
  replace (num_neq (windSpeed p) 0) with true; [reflexivity |].
  symmetry. now apply num_neq_true.
Qed.

Lemma airborne_wind_state (params : Params.t) (w : R) :
  Params.airResistance params = false ->
  Params.windSpeed params = Some w -> w <> 0 ->
  forall n : nat,
    hasLanded (flight params n) = false ->
    state (flight params n)
    = eulerSteps (Params.mass params) (Params.diameter params)
        (Params.gravity params) false w n (state (launched params)).
Proof.
  intros Ha Hw Hw0. induction n as [| n IH]; intros Hl.
  - now rewrite flight_0.
  - pose proof (landed_stays_landed params n Hl) as Hl0.
    pose proof (airborne_isFlying params n Hl0) as Hf.
    rewrite eulerSteps_snoc, <- (IH Hl0).
    pose proof (flight_setup params n) as H.
    unfold setup in H. injection H as _ _ Hm Hd Hg Hair Hws Hp _.
    assert (Hws' : windSpeed (flight params n) = w).
    { rewrite Hws. unfold launched. cbn [windSpeed]. now rewrite Hw. }
    rewrite flight_S in Hl |- *.
    rewrite update_hasLanded in Hl by assumption.
    rewrite update_flying by assumption. cbn [state].
    rewrite physicsStep_wind; [| rewrite Hair; exact Ha | now rewrite Hws'].
    now rewrite Hm, Hd, Hg, Hws', Hp.
Qed.

(** X16.  A flight with wind and without drag, as long as it has not
    landed, is after [n] ticks exactly on the Euler parabola of the constant
    acceleration [(windForce / mass, - g)]: in particular
    [vx = v0x + n * 0.016 * windForce / mass] and
    [vy = v0y - n * 0.016 * g]. *)
Theorem windy_flight_parabola (params : Params.t) (w : R) (n : nat) :
  Params.airResistance params = false ->
  Params.windSpeed params = Some w -> w <> 0 ->
  hasLanded (flight params n) = false ->
  state (flight params n)
  = eulerParabola
      (specWindForce w (Params.diameter params) / Params.mass params)
      (Params.gravity params) n (state (launched params)).
Proof.
  intros Ha Hw Hw0 Hl.
  rewrite (airborne_wind_state params w Ha Hw Hw0 n Hl).
  apply eulerSteps_dragfree.
Qed.

Lemma windyLaunch_first_tick_airborne :
  hasLanded (flight windyLaunch 1) = false.
Proof.
  rewrite flight_1, update_hasLanded by reflexivity.
  unfold landsNow.
  rewrite physicsStep_wind;
    [| reflexivity | unfold launched, windyLaunch; cbn [windSpeed
                       Params.windSpeed]; lra].
  rewrite integrateStep_y. unfold launched, windyLaunch.
  cbn [state y vy physics dt newPhysicsEngine Params.velocity Params.angle].
  destruct trig_45 as [_ Hs].
  replace (num_le (0 + 15 * sin (45 * PI / 180) * 0.016) 0) with false;
    [reflexivity |].
  symmetry. apply num_le_false. nra.
Qed.

Lemma windy_flight_parabola_witness :
  (5 <> 0 /\ hasLanded (flight windyLaunch 1) = false) /\
  state (flight windyLaunch 1)
  = eulerParabola (specWindForce 5 0.5 / 1) 9.81 1
      (state (launched windyLaunch)).
Proof.
  assert (H5 : 5 <> 0) by lra.
  split; [split; [exact H5 | exact windyLaunch_first_tick_airborne] |].
  exact (windy_flight_parabola windyLaunch 5 1 eq_refl eq_refl H5
           windyLaunch_first_tick_airborne).
Defined.

(** ** The tape measure *)

Lemma tapeCall_consistent (c : TapeMeasure.Call) (this : TapeMeasure.t) :
  tapeConsistent this -> tapeConsistent (TapeMeasure.call c this).
Proof.
  intros H. destruct c as [a b | a b | | |]; cbn [TapeMeasure.call].
  - right. split; [reflexivity |]. now exists (mkPoint a b), (mkPoint a b).
  - unfold TapeMeasure.update.
    destruct H as [(Ha & Hs & He) | (Ha & p & q & Hs & He)]; rewrite Ha.
    + left. auto.
    + right. split; [reflexivity |]. exists p, (mkPoint a b). auto.
  - exact H.
  - left. auto.
  - exact H.
Qed.

Lemma tapeRun_consistent (cs : list TapeMeasure.Call) :
  tapeConsistent (TapeMeasure.run cs TapeMeasure.new).
Proof.
  induction cs as [| c cs IH] using rev_ind.
  - left. auto.
  - unfold TapeMeasure.run in *. rewrite fold_left_app. cbn [fold_left].
    now apply tapeCall_consistent.
Qed.

Lemma tape_updates (this : TapeMeasure.t) (a b : Point) (x1 y1 : R) :
  TapeMeasure.isActive this = true ->
  TapeMeasure.startPoint this = Some a ->
  TapeMeasure.getDistance (TapeMeasure.update this x1 y1)
  = pointDistance a (mkPoint x1 y1).
Proof.
  intros Ha Hs. unfold TapeMeasure.update, TapeMeasure.getDistance.
  rewrite Ha. cbn [TapeMeasure.startPoint TapeMeasure.endPoint].
  now rewrite Hs.
Qed.

(** X17.  After any sequence of [start], [update], [finish], [clear] calls
    (and drags) on a new tape measure: [getDistance] is never negative; an
    inactive tape measure reads 0 and ignores [update]; on an active one an
    [update] to a point makes [getDistance] the distance between the point
    given to the last [start] and that point, so that a [start] followed by
    [update]s measures from the start point to the last update. *)
Theorem tape_measure_reads_distance (cs : list TapeMeasure.Call) :
  0 <= TapeMeasure.getDistance (TapeMeasure.run cs TapeMeasure.new) /\
  (TapeMeasure.isActive (TapeMeasure.run cs TapeMeasure.new) = false ->
   TapeMeasure.getDistance (TapeMeasure.run cs TapeMeasure.new) = 0 /\
   forall a b : R,
     TapeMeasure.update (TapeMeasure.run cs TapeMeasure.new) a b
     = TapeMeasure.run cs TapeMeasure.new) /\
  (forall (x0 y0 : R) (us : list (R * R)) (x1 y1 : R),
     TapeMeasure.getDistance
       (TapeMeasure.run
          (cs ++ TapeMeasure.Start x0 y0
              :: map (fun u => TapeMeasure.Update (fst u) (snd u))
                   (us ++ [(x1, y1)]))
          TapeMeasure.new)
     = pointDistance (mkPoint x0 y0) (mkPoint x1 y1)).
Proof.
  pose proof (tapeRun_consistent cs) as H.
  set (t := TapeMeasure.run cs TapeMeasure.new) in *.
  split; [| split].
  - unfold TapeMeasure.getDistance.
    destruct (TapeMeasure.startPoint t), (TapeMeasure.endPoint t);
      try lra; apply sqrt_pos.
  - intros Ha. destruct H as [(_ & Hs & He) | (Hb & _)]; [| congruence].
    split.
    + unfold TapeMeasure.getDistance. now rewrite Hs.
    + intros a b. unfold TapeMeasure.update. now rewrite Ha.
  - intros x0 y0 us x1 y1. unfold t, TapeMeasure.run.
    rewrite fold_left_app. cbn [fold_left TapeMeasure.call].
    rewrite map_app, fold_left_app. cbn [map fold_left TapeMeasure.call fst snd].
    set (s0 := TapeMeasure.start _ x0 y0).
    assert (A : forall l s,
              TapeMeasure.isActive s = true ->
              TapeMeasure.startPoint s = Some (mkPoint x0 y0) ->
              TapeMeasure.isActive
                (fold_left (fun s c => TapeMeasure.call c s)
                   (map (fun u => TapeMeasure.Update (fst u) (snd u)) l) s)
                = true /\
              TapeMeasure.startPoint
                (fold_left (fun s c => TapeMeasure.call c s)
                   (map (fun u => TapeMeasure.Update (fst u) (snd u)) l) s)
                = Some (mkPoint x0 y0)).
    { induction l as [| u l IHl]; intros s Hs1 Hs2; [auto |].
      cbn [map fold_left TapeMeasure.call]. apply IHl.
      - unfold TapeMeasure.update. now rewrite Hs1.
      - unfold TapeMeasure.update. now rewrite Hs1. }
    destruct (A us s0 eq_refl eq_refl) as [A1 A2].
    now apply tape_updates.
Qed.

Lemma tape_measure_reads_distance_witness :
  TapeMeasure.isActive
    (TapeMeasure.run
       [TapeMeasure.Start 1 2; TapeMeasure.Update 4 6; TapeMeasure.Clear]
       TapeMeasure.new) = false /\
  TapeMeasure.getDistance
    (TapeMeasure.run
       [TapeMeasure.Start 1 2; TapeMeasure.Update 4 6; TapeMeasure.Clear]
       TapeMeasure.new) = 0.
Proof.
  split; [reflexivity |].
  exact (proj1 (proj1 (proj2 (tape_measure_reads_distance
                                [TapeMeasure.Start 1 2;
                                 TapeMeasure.Update 4 6;
                                 TapeMeasure.Clear])) eq_refl)).
Defined.

(** ** Particles *)

Lemma Particle_new_at (x y : R) (config : Config.t) (random : nat -> R)
  (i : nat) :
  particleAt x y (fst (Particle.new x y config random i)) /\
  Particle.life (fst (Particle.new x y config random i))
    = orElse (Config.life config) 1.0 /\
  Particle.maxLife (fst (Particle.new x y config random i))
    = orElse (Config.life config) 1.0 /\
  Particle.fadeRate (fst (Particle.new x y config random i))
    = orElse (Config.fadeRate config) 0.02 /\
  (i <= snd (Particle.new x y config random i))%nat.
Proof.
  unfold Particle.new, particleAt, orRandom.
  destruct (Config.vx config) as [r1 |]; [destruct (Req_dec_T r1 0) |];
    (destruct (Config.vy config) as [r2 |]; [destruct (Req_dec_T r2 0) |]);
    cbn; repeat split; lia.
Qed.

Lemma skipn_snoc {A : Type} (n : nat) (l : list A) (a : A) :
  (n <= length l)%nat -> skipn n (l ++ [a]) = skipn n l ++ [a].
Proof.
  intros H. rewrite skipn_app.
  replace (n - length l)%nat with 0%nat by lia. reflexivity.
Qed.

Lemma emit_keeps_newest_from (x y : R) (config : Config.t)
  (random : nat -> R) (count : nat) :
  forall (this : ParticleEmitter.t) (i : nat),
    (length (ParticleEmitter.particles this)
     <= ParticleEmitter.maxParticles this)%nat ->
    (1 <= ParticleEmitter.maxParticles this)%nat ->
    exists news : list Particle.t,
      length news = count /\
      Forall (particleAt x y) news /\
      ParticleEmitter.particles
        (fst (ParticleEmitter.emit this x y count config random i))
      = skipn (length (ParticleEmitter.particles this) + count
               - ParticleEmitter.maxParticles this)
          (ParticleEmitter.particles this ++ news) /\
      ParticleEmitter.maxParticles
        (fst (ParticleEmitter.emit this x y count config random i))
      = ParticleEmitter.maxParticles this /\
      (i <= snd (ParticleEmitter.emit this x y count config random i))%nat.
Proof.
  induction count as [| count IH]; intros this i Hlen Hmax.
  - exists []. cbn [ParticleEmitter.emit fst snd length].
    rewrite Nat.add_0_r, app_nil_r.
    replace (length (ParticleEmitter.particles this)
             - ParticleEmitter.maxParticles this)%nat with 0%nat by lia.
    repeat split; auto.
  - destruct this as [ps M].
    cbn [ParticleEmitter.particles ParticleEmitter.maxParticles] in *.
    cbn [ParticleEmitter.emit].
    destruct (orRandom (Config.vx config) _ random i) as [v1 i1] eqn:E1.
    destruct (orRandom (Config.vy config) _ random i1) as [v2 i2] eqn:E2.
    match goal with
    | |- context [Particle.new x y ?c random i2] =>
      pose proof (Particle_new_at x y c random i2) as (Hat & _ & _ & _ & Hi);
      destruct (Particle.new x y c random i2) as [p i3]
    end.
    cbn [fst snd] in Hat, Hi.
    assert (Hi1 : (i <= i1)%nat).
    { unfold orRandom in E1. destruct (Config.vx config) as [r |];
        [destruct (Req_dec_T r 0) |]; injection E1 as _ <-; lia. }
    assert (Hi2 : (i1 <= i2)%nat).
    { unfold orRandom in E2. destruct (Config.vy config) as [r |];
        [destruct (Req_dec_T r 0) |]; injection E2 as _ <-; lia. }
    cbn [ParticleEmitter.particles ParticleEmitter.maxParticles].
    destruct (Nat.leb_spec M (length ps)) as [Hfull | Hroom].
    + assert (Hps : length ps = M) by lia.
      destruct ps as [| p0 ps']; [cbn in Hps; lia |].
      unfold ParticleEmitter.setParticles.
      cbn [ParticleEmitter.particles ParticleEmitter.maxParticles tl].
      destruct (IH (ParticleEmitter.mk (ps' ++ [p]) M) i3)
        as (news & Hn & Hall & Hp & Hm & Hi3).
      { cbn [ParticleEmitter.particles ParticleEmitter.maxParticles].
        rewrite length_app. cbn [length] in *. lia. }
      { exact Hmax. }
      exists (p :: news). split; [cbn; lia |].
      split; [now constructor |]. split; [| split; [exact Hm | lia]].
      rewrite Hp.
      cbn [ParticleEmitter.particles ParticleEmitter.maxParticles].
      rewrite length_app. cbn [length] in *.
      replace (length ps' + 1 + count - M)%nat with count by lia.
      replace (S (length ps') + S count - M)%nat with (S count) by lia.
      cbn [app skipn]. now rewrite <- app_assoc.
    + unfold ParticleEmitter.setParticles.
      cbn [ParticleEmitter.particles ParticleEmitter.maxParticles].
      destruct (IH (ParticleEmitter.mk (ps ++ [p]) M) i3)
        as (news & Hn & Hall & Hp & Hm & Hi3).
      { cbn [ParticleEmitter.particles ParticleEmitter.maxParticles].
        rewrite length_app. cbn [length]. lia. }
      { exact Hmax. }
      exists (p :: news). split; [cbn; lia |].
      split; [now constructor |]. split; [| split; [exact Hm | lia]].
      rewrite Hp.
      cbn [ParticleEmitter.particles ParticleEmitter.maxParticles].
      rewrite length_app. cbn [length].
      replace (length ps + 1 + count - M)%nat
        with (length ps + S count - M)%nat by lia.
      now rewrite <- app_assoc.
Qed.

(** X18.  [emit(x, y, count, config)] on an emitter that holds at most
    [maxParticles] (at least 1) particles creates [count] particles at
    [(x, y)], appends them in order, and keeps the newest [maxParticles] of
    the whole: the oldest are dropped first, the emitter never holds more
    than [maxParticles], and [maxParticles] itself is unchanged. *)
Theorem emit_keeps_newest (this : ParticleEmitter.t) (x y : R)
  (count : nat) (config : Config.t) (random : nat -> R) (i : nat) :
  (length (ParticleEmitter.particles this)
   <= ParticleEmitter.maxParticles this)%nat ->
  (1 <= ParticleEmitter.maxParticles this)%nat ->
  (exists news : list Particle.t,
     length news = count /\
     Forall (particleAt x y) news /\
     ParticleEmitter.particles
       (fst (ParticleEmitter.emit this x y count config random i))
     = skipn (length (ParticleEmitter.particles this) + count
              - ParticleEmitter.maxParticles this)
         (ParticleEmitter.particles this ++ news)) /\
  ParticleEmitter.getCount
    (fst (ParticleEmitter.emit this x y count config random i))
  = Nat.min (length (ParticleEmitter.particles this) + count)
      (ParticleEmitter.maxParticles this) /\
  ParticleEmitter.maxParticles
    (fst (ParticleEmitter.emit this x y count config random i))
  = ParticleEmitter.maxParticles this.
Proof.
  intros Hlen Hmax.
  destruct (emit_keeps_newest_from x y config random count this i Hlen Hmax)
    as (news & Hn & Hall & Hp & Hm & _).
  split; [exists news; auto |]. split; [| exact Hm].
  unfold ParticleEmitter.getCount. rewrite Hp, length_skipn, length_app, Hn.
  lia.
Qed.

Lemma emit_keeps_newest_witness :
  ParticleEmitter.getCount
    (fst (ParticleEmitter.emit ParticleEmitter.new 3 4 2
            (Config.mk None None None None None None None None None None)
            (fun _ => 0.25) 0))
  = Nat.min (0 + 2) 1000.
Proof.
  exact (proj1 (proj2 (emit_keeps_newest ParticleEmitter.new 3 4 2
                         (Config.mk None None None None None None None None
                            None None)
                         (fun _ => 0.25) 0
                         (Nat.le_0_l 1000) ltac:(cbn; lia)))).
Defined.

Lemma Particle_update_fading (dt : R) (p : Particle.t) :
  fading dt p ->
  fading dt (Particle.update p dt) /\
  0 <= Particle.alpha (Particle.update p dt) <= 1 /\
  0.1 <= Particle.size (Particle.update p dt).
Proof.
  intros (Hm & Hl & Hf). unfold fading, Particle.update.
  cbn [Particle.maxLife Particle.life Particle.fadeRate Particle.alpha
       Particle.size].
  split; [split; [exact Hm | split; [lra | exact Hf]] |].
  split; [| apply Rmax_l].
  split; [apply Rmax_l |].
  apply Rmax_lub; [lra |].
  apply Rmult_le_reg_r with (Particle.maxLife p); [exact Hm |].
  unfold Rdiv. rewrite Rmult_assoc, Rinv_l by lra. lra.
Qed.

Lemma particleUpdates_snoc (dt : R) (n : nat) :
  forall p : Particle.t,
    particleUpdates (S n) p dt
    = Particle.update (particleUpdates n p dt) dt.
Proof.
  induction n as [| n IH]; intros p; [reflexivity |].
  change (particleUpdates (S (S n)) p dt)
    with (particleUpdates (S n) (Particle.update p dt) dt).
  now rewrite IH.
Qed.

Lemma particleUpdates_life (dt : R) (n : nat) (p : Particle.t) :
  Particle.fadeRate (particleUpdates n p dt) = Particle.fadeRate p /\
  Particle.maxLife (particleUpdates n p dt) = Particle.maxLife p /\
  Particle.life (particleUpdates n p dt)
  = Particle.life p - INR n * Particle.fadeRate p * dt.
Proof.
  induction n as [| n (IHf & IHm & IHl)].
  - cbn [particleUpdates INR]. repeat split. ring.
  - rewrite particleUpdates_snoc. unfold Particle.update at 1 2 3.
    cbn [Particle.fadeRate Particle.maxLife Particle.life].
    rewrite IHf, IHm, IHl, S_INR. repeat split. ring.
Qed.

Lemma particleUpdates_fading (dt : R) (n : nat) (p : Particle.t) :
  fading dt p -> fading dt (particleUpdates n p dt).
Proof.
  intros H. induction n as [| n IH]; [exact H |].
  rewrite particleUpdates_snoc. now apply Particle_update_fading.
Qed.

(** X19.  A particle built by [new Particle] from a config whose [life]
    is missing, 0 or positive and whose fade per step is not negative keeps,
    through any number of [update(dt)] calls, [alpha] between 0 and 1 and
    [size] at 0.1 or more, while its [life] falls by [fadeRate * dt] with
    every call. *)
Theorem particle_stays_in_range (x y : R) (config : Config.t)
  (random : nat -> R) (i : nat) (dt : R) (n : nat) :
  0 < orElse (Config.life config) 1.0 ->
  0 <= orElse (Config.fadeRate config) 0.02 * dt ->
  0 <= Particle.alpha
         (particleUpdates (S n) (fst (Particle.new x y config random i)) dt)
    <= 1 /\
  0.1 <= Particle.size
           (particleUpdates (S n) (fst (Particle.new x y config random i))
              dt) /\
  Particle.life
    (particleUpdates (S n) (fst (Particle.new x y config random i)) dt)
  = orElse (Config.life config) 1.0
    - INR (S n) * orElse (Config.fadeRate config) 0.02 * dt.
Proof.
  intros Hl Hf.
  destruct (Particle_new_at x y config random i)
    as (_ & El & Em & Ef & _).
  set (p := fst (Particle.new x y config random i)) in *.
  assert (F : fading dt p).
  { unfold fading. rewrite El, Em, Ef. split; [exact Hl |]. split; [lra |].
    exact Hf. }
  destruct (particleUpdates_life dt (S n) p) as (_ & _ & L).
  rewrite L, El, Ef.
  rewrite particleUpdates_snoc.
  destruct (Particle_update_fading dt (particleUpdates n p dt)
              (particleUpdates_fading dt n p F)) as (_ & Ha & Hs).
  auto.
Qed.

Lemma orElse_missing (b : R) : orElse None b = b.
Proof. reflexivity. Qed.

Lemma particle_stays_in_range_witness :
  0.1 <= Particle.size
           (particleUpdates 1
              (fst (Particle.new 3 4
                      (Config.mk None None None None None None None None
                         None None)
                      (fun _ => 0.25) 0)) 1).
Proof.
  refine (proj1 (proj2 (particle_stays_in_range 3 4
                          (Config.mk None None None None None None None None
                             None None)
                          (fun _ => 0.25) 0 1 0 _ _))).
  - cbn [Config.life]. rewrite orElse_missing. lra.
  - cbn [Config.fadeRate]. rewrite orElse_missing. lra.
Defined.

Lemma updates_particles (dt : R) (n : nat) :
  forall this : ParticleEmitter.t,
    ParticleEmitter.particles (ParticleEmitter.updates n this dt)
    = ageParticlesBy n dt (ParticleEmitter.particles this).
Proof.
  induction n as [| n IH]; intros this; [reflexivity |].
  cbn [ParticleEmitter.updates ageParticlesBy]. rewrite IH. reflexivity.
Qed.

Lemma aged_origin (dt : R) (n : nat) :
  forall (l : list Particle.t) (q : Particle.t),
    In q (ageParticlesBy n dt l) ->
    exists p : Particle.t,
      In p l /\ q = particleUpdates n p dt /\
      ((1 <= n)%nat -> 0 < Particle.life q).
Proof.
  induction n as [| n IH]; intros l q Hq.
  - exists q. split; [exact Hq |]. split; [reflexivity | lia].
  - cbn [ageParticlesBy] in Hq.
    destruct (IH _ _ Hq) as (p' & Hp' & Eq & Hlife).
    unfold ageParticles in Hp'. apply filter_In in Hp'.
    destruct Hp' as [Hin Halive]. apply in_map_iff in Hin.
    destruct Hin as (p & <- & Hp).
    exists p. split; [exact Hp |]. split; [exact Eq |].
    intros _. destruct n as [| n].
    + cbn [particleUpdates] in Eq. subst q.
      unfold Particle.alive in Halive. now apply num_gt_true in Halive.
    + apply Hlife. lia.
Qed.

Lemma fade_horizon (dt : R) (l : list Particle.t) :
  0 < dt ->
  Forall (fun p => 0 < Particle.fadeRate p) l ->
  exists N : nat,
    (1 <= N)%nat /\
    forall n : nat, (N <= n)%nat ->
      Forall (fun p => Particle.life p
                       <= INR n * Particle.fadeRate p * dt) l.
Proof.
  intros Hdt F. induction F as [| p l Hp F (N & HN & IH)].
  - exists 1%nat. split; [lia | constructor].
  - destruct (INR_unbounded
                (Particle.life p / (Particle.fadeRate p * dt))) as [k Hk].
    assert (Hfd : 0 < Particle.fadeRate p * dt) by nra.
    assert (Hlk : Particle.life p < INR k * (Particle.fadeRate p * dt)).
    { apply Rmult_lt_compat_r with (r := Particle.fadeRate p * dt) in Hk;
        [| exact Hfd].
      unfold Rdiv in Hk. rewrite Rmult_assoc, Rinv_l in Hk by lra. lra. }
    exists (Nat.max N k). split; [lia |]. intros n Hn. constructor.
    + assert (INR k <= INR n) by (apply le_INR; lia). nra.
    + apply IH. lia.
Qed.

(** X20.  [ParticleEmitter.update(dt)] never adds a particle and keeps
    only particles whose [life] is positive; and when [dt] is positive and
    every particle has a positive [fadeRate], a fixed number of updates
    empties the emitter for good. *)
Theorem particles_die_out (this : ParticleEmitter.t) (dt : R) :
  (ParticleEmitter.getCount (ParticleEmitter.update this dt)
   <= ParticleEmitter.getCount this)%nat /\
  Forall (fun p => 0 < Particle.life p)
    (ParticleEmitter.particles (ParticleEmitter.update this dt)) /\
  (0 < dt ->
   Forall (fun p => 0 < Particle.fadeRate p)
     (ParticleEmitter.particles this) ->
   exists N : nat,
     forall n : nat, (N <= n)%nat ->
       ParticleEmitter.getCount (ParticleEmitter.updates n this dt)
       = 0%nat).
Proof.
  split; [| split].
  - unfold ParticleEmitter.getCount, ParticleEmitter.update.
    cbn [ParticleEmitter.particles ParticleEmitter.setParticles].
    eapply Nat.le_trans; [apply filter_length_le |].
    now rewrite length_map.
  - unfold ParticleEmitter.update.
    cbn [ParticleEmitter.particles ParticleEmitter.setParticles].
    apply Forall_forall. intros q Hq. apply filter_In in Hq.
    destruct Hq as [_ Hq]. unfold Particle.alive in Hq.
    now apply num_gt_true in Hq.
  - intros Hdt F.
    destruct (fade_horizon dt _ Hdt F) as (N & HN & H).
    exists N. intros n Hn. unfold ParticleEmitter.getCount.
    rewrite updates_particles.
    destruct (ageParticlesBy n dt (ParticleEmitter.particles this))
      as [| q rest] eqn:E; [reflexivity |].
    exfalso.
    destruct (aged_origin dt n (ParticleEmitter.particles this) q)
      as (p & Hp & Eq & Hlife).
    { rewrite E. now left. }
    specialize (Hlife ltac:(lia)).
    specialize (H n Hn). rewrite Forall_forall in H. specialize (H p Hp).
    destruct (particleUpdates_life dt n p) as (_ & _ & L).
    rewrite Eq, L in Hlife. lra.
Qed.

Lemma particles_die_out_witness :
  0 < 1 /\
  exists N : nat,
    forall n : nat, (N <= n)%nat ->
      ParticleEmitter.getCount
        (ParticleEmitter.updates n
           (ParticleEmitter.setParticles ParticleEmitter.new
              [fst (Particle.new 3 4
                      (Config.mk None None None None None None None None
                         None None)
                      (fun _ => 0.25) 0)]) 1)
      = 0%nat.
Proof.
  assert (H1 : 0 < 1) by lra.
  split; [exact H1 |].
  refine (proj2 (proj2 (particles_die_out _ 1)) H1 _).
  unfold ParticleEmitter.setParticles.
  cbn [ParticleEmitter.particles].
  constructor; [| constructor].
  match goal with
  | |- 0 < Particle.fadeRate (fst (Particle.new ?a ?b ?c ?r ?j)) =>
    destruct (Particle_new_at a b c r j) as (_ & _ & _ & Ef & _);
    rewrite Ef
  end.
  cbn [Config.fadeRate]. unfold orElse. lra.
Defined.

(** ** Screen and world coordinates *)

Lemma Point_eq (a b c d : R) : a = c -> b = d -> mkPoint a b = mkPoint c d.
Proof. intros -> ->. reflexivity. Qed.

Lemma screen_world_inverse (this : Renderer.t) (a b : R) :
  Renderer.scale this <> 0 ->
  Renderer.screenToWorld this
    (px (Renderer.worldToScreen this a b))
    (py (Renderer.worldToScreen this a b)) = mkPoint a b /\
  Renderer.worldToScreen this
    (px (Renderer.screenToWorld this a b))
    (py (Renderer.screenToWorld this a b)) = mkPoint a b.
Proof.
  intros Hs. unfold Renderer.screenToWorld, Renderer.worldToScreen.
  cbn [px py]. split; apply Point_eq; field; exact Hs.
Qed.

(** X21.  With a scale other than 0, [Renderer.screenToWorld] and
    [Renderer.worldToScreen] are inverse to each other, whatever the
    origin is. *)
Theorem screen_world_round_trip (this : Renderer.t) (a b : R) :
  Renderer.scale this <> 0 ->
  Renderer.screenToWorld this
    (px (Renderer.worldToScreen this a b))
    (py (Renderer.worldToScreen this a b)) = mkPoint a b /\
  Renderer.worldToScreen this
    (px (Renderer.screenToWorld this a b))
    (py (Renderer.screenToWorld this a b)) = mkPoint a b.
Proof. exact (screen_world_inverse this a b). Qed.

Lemma screen_world_round_trip_witness :
  Renderer.scale (Renderer.new 800 600) <> 0 /\
  Renderer.screenToWorld (Renderer.new 800 600)
    (px (Renderer.worldToScreen (Renderer.new 800 600) 3 4))
    (py (Renderer.worldToScreen (Renderer.new 800 600) 3 4))
  = mkPoint 3 4.
Proof.
  assert (H : Renderer.scale (Renderer.new 800 600) <> 0).
  { unfold Renderer.new. cbn [Renderer.scale]. lra. }
  split; [exact H |].
  exact (proj1 (screen_world_round_trip (Renderer.new 800 600) 3 4 H)).
Defined.




(** ** The tape measure under the mouse *)

Lemma mousemove_dragging (this : App.t) (a b : R) :
  App.tapeMeasureActive this = true ->
  TapeMeasure.isDragging (App.tapeMeasure this) = true ->
  TapeMeasure.isActive (App.tapeMeasure this) = true ->
  App.mousemove this a b
  = App.setTapeMeasure this
      {| TapeMeasure.isActive := true;
         TapeMeasure.startPoint :=
           TapeMeasure.startPoint (App.tapeMeasure this);
         TapeMeasure.endPoint :=
           Some (Renderer.screenToWorld (App.renderer this) a b);
         TapeMeasure.isDragging := true |}.
Proof.
  intros Ha Hd Hi. unfold App.mousemove, TapeMeasure.update.
  rewrite Ha, Hd, Hi. reflexivity.
Qed.

Lemma mousemoves_dragging (ms : list (R * R)) :
  forall (this : App.t) (a b : R),
    App.tapeMeasureActive this = true ->
    TapeMeasure.isDragging (App.tapeMeasure this) = true ->
    TapeMeasure.isActive (App.tapeMeasure this) = true ->
    App.mousemoves (ms ++ [(a, b)]) this
    = App.setTapeMeasure this
        {| TapeMeasure.isActive := true;
           TapeMeasure.startPoint :=
             TapeMeasure.startPoint (App.tapeMeasure this);
           TapeMeasure.endPoint :=
             Some (Renderer.screenToWorld (App.renderer this) a b);
           TapeMeasure.isDragging := true |}.
Proof.
  induction ms as [| [c d] ms IH]; intros this a b Ha Hd Hi.
  - exact (mousemove_dragging this a b Ha Hd Hi).
  - change (App.mousemoves (((c, d) :: ms) ++ [(a, b)]) this)
      with (App.mousemoves (ms ++ [(a, b)]) (App.mousemove this c d)).
    rewrite (mousemove_dragging this c d Ha Hd Hi).
    rewrite IH; [reflexivity | exact Ha | reflexivity | reflexivity].
Qed.

Lemma sqrt_scaled (u s : R) : 0 < s -> sqrt (u / (s * s)) * s = sqrt u.
Proof.
  intros Hs. rewrite sqrt_div_alt by nra.
  rewrite sqrt_square by lra. field. lra.
Qed.

Lemma mousedown_active (this : App.t) (a b : R) :
  App.tapeMeasureActive this = true ->
  App.mousedown this a b
  = App.setTapeMeasure this
      {| TapeMeasure.isActive := true;
         TapeMeasure.startPoint :=
           Some (Renderer.screenToWorld (App.renderer this) a b);
         TapeMeasure.endPoint :=
           Some (Renderer.screenToWorld (App.renderer this) a b);
         TapeMeasure.isDragging := true |}.
Proof.
  intros Ha. unfold App.mousedown. rewrite Ha. reflexivity.
Qed.

(** X23.  While the tape-measure mode is on and the scale is positive, a
    press of the mouse at one screen point followed by moves that end at
    another leaves a tape measure whose [getDistance()] times the scale is
    the distance of the two screen points in pixels, and whose drawn line
    joins exactly these two screen points; once the button is released,
    moves of the mouse change nothing; and switching the mode off sets the
    distance back to 0. *)
Theorem mouse_drag_measures_pixels (this : App.t) (x0 y0 x1 y1 : R)
  (ms : list (R * R)) :
  App.tapeMeasureActive this = true ->
  0 < Renderer.scale (App.renderer this) ->
  let dragged :=
    App.mousemoves (ms ++ [(x1, y1)]) (App.mousedown this x0 y0) in
  TapeMeasure.getDistance (App.tapeMeasure dragged)
  * Renderer.scale (App.renderer this)
  = pointDistance (mkPoint x0 y0) (mkPoint x1 y1) /\
  App.drawnSegment dragged = Some (mkPoint x0 y0, mkPoint x1 y1) /\
  (forall a b : R,
     App.mousemove (App.mouseup dragged) a b = App.mouseup dragged) /\
  TapeMeasure.getDistance
    (App.tapeMeasure (App.tapeMeasureChange dragged false)) = 0.
Proof.
  intros Ha Hs dragged.
  assert (E : dragged
              = App.setTapeMeasure this
                  {| TapeMeasure.isActive := true;
                     TapeMeasure.startPoint :=
                       Some (Renderer.screenToWorld (App.renderer this)
                               x0 y0);
                     TapeMeasure.endPoint :=
                       Some (Renderer.screenToWorld (App.renderer this)
                               x1 y1);
                     TapeMeasure.isDragging := true |}).
  { unfold dragged. rewrite (mousedown_active this x0 y0 Ha).
    rewrite mousemoves_dragging; [reflexivity | exact Ha | reflexivity
                                 | reflexivity]. }
  clearbody dragged. subst dragged.
  set (s := Renderer.scale (App.renderer this)) in *.
  split; [| split; [| split]].
  - unfold TapeMeasure.getDistance, App.setTapeMeasure, pointDistance,
      Renderer.screenToWorld.
    cbn [App.tapeMeasure TapeMeasure.startPoint TapeMeasure.endPoint px py].
    fold s.
    rewrite <- (sqrt_scaled
                  ((x1 - x0) * (x1 - x0) + (y1 - y0) * (y1 - y0)) s Hs).
    f_equal. f_equal. field. lra.
  - unfold App.drawnSegment, App.setTapeMeasure.
    cbn [App.tapeMeasure App.renderer TapeMeasure.isActive
         TapeMeasure.startPoint TapeMeasure.endPoint negb].
    assert (Hs0 : Renderer.scale (App.renderer this) <> 0)
      by (fold s; lra).
    destruct (screen_world_inverse (App.renderer this) x0 y0 Hs0)
      as [_ E0].
    destruct (screen_world_inverse (App.renderer this) x1 y1 Hs0)
      as [_ E1].
    now rewrite E0, E1.
  - intros a b. unfold App.mouseup, App.setTapeMeasure.
    cbn [App.tapeMeasure TapeMeasure.isDragging].
    unfold App.mousemove.
    cbn [App.tapeMeasure App.tapeMeasureActive TapeMeasure.finish
         TapeMeasure.isDragging negb].
    now rewrite orb_true_r.
  - unfold App.tapeMeasureChange, TapeMeasure.getDistance.
    cbn [App.tapeMeasure negb TapeMeasure.clear TapeMeasure.startPoint].
    reflexivity.
Qed.

Lemma mouse_drag_measures_pixels_witness :
  TapeMeasure.getDistance
    (App.tapeMeasure
       (App.mousemoves ([(100, 100)] ++ [(130, 140)])
          (App.mousedown
             (App.mk (Renderer.new 800 600) TapeMeasure.new true) 100 100)))
  * Renderer.scale
      (App.renderer (App.mk (Renderer.new 800 600) TapeMeasure.new true))
  = pointDistance (mkPoint 100 100) (mkPoint 130 140).
Proof.
  refine (proj1 (mouse_drag_measures_pixels
                   (App.mk (Renderer.new 800 600) TapeMeasure.new true)
                   100 100 130 140 [(100, 100)] eq_refl _)).
  unfold Renderer.new. cbn [App.renderer Renderer.scale]. lra.
Defined.

(** ** The camera *)

(** The zoom of a camera and its target are within the limits of
    [setZoom], and the smoothing is the constructor's. *)
Lemma camera_call_in_range (c : CameraSystem.Call) (this : CameraSystem.t) :
  CameraSystem.smoothing this = 0.1 /\
  0.5 <= CameraSystem.zoom this <= 2 /\
  0.5 <= CameraSystem.targetZoom this <= 2 ->
  CameraSystem.smoothing (CameraSystem.call c this) = 0.1 /\
  0.5 <= CameraSystem.zoom (CameraSystem.call c this) <= 2 /\
  0.5 <= CameraSystem.targetZoom (CameraSystem.call c this) <= 2.
Proof.
  intros (Hs & Hz & Ht).
  destruct c as [| z | a b | a b |]; cbn [CameraSystem.call].
  - unfold CameraSystem.update.
    cbn [CameraSystem.smoothing CameraSystem.zoom CameraSystem.targetZoom].
    rewrite Hs. repeat split; lra.
  - unfold CameraSystem.setZoom.
    cbn [CameraSystem.smoothing CameraSystem.zoom CameraSystem.targetZoom].
    split; [exact Hs |]. split; [exact Hz |]. split; [apply Rmax_l |].
    apply Rmax_lub; [lra | pose proof (Rmin_l 2.0 z); lra].
  - unfold CameraSystem.setOffset, CameraSystem.setTargetOffset.
    cbn [CameraSystem.smoothing CameraSystem.zoom CameraSystem.targetZoom].
    repeat split; lra.
  - unfold CameraSystem.trackProjectile, CameraSystem.setTargetOffset.
    destruct (negb (CameraSystem.autoTrack this));
      [repeat split; lra |].
    destruct (num_gt _ _); [| destruct (num_lt _ _)];
      cbn [CameraSystem.smoothing CameraSystem.zoom
           CameraSystem.targetZoom];
      repeat split; lra.
  - unfold CameraSystem.reset.
    cbn [CameraSystem.smoothing CameraSystem.zoom CameraSystem.targetZoom].
    split; [exact Hs |]. split; lra.
Qed.

Lemma camera_run_snoc (cs : list CameraSystem.Call) (c : CameraSystem.Call)
  (this : CameraSystem.t) :
  CameraSystem.run (cs ++ [c]) this
  = CameraSystem.call c (CameraSystem.run cs this).
Proof. unfold CameraSystem.run. now rewrite fold_left_app. Qed.

(** X24.  Whatever is called on a new camera ([update], [setZoom],
    [setOffset], [trackProjectile], [reset]), the zoom and the target zoom
    stay between 0.5 and 2. *)
Theorem camera_zoom_in_range (cs : list CameraSystem.Call)
  (width height : R) :
  0.5 <= CameraSystem.zoom
           (CameraSystem.run cs (CameraSystem.new width height)) <= 2 /\
  0.5 <= CameraSystem.targetZoom
           (CameraSystem.run cs (CameraSystem.new width height)) <= 2.
Proof.
  enough (H : CameraSystem.smoothing
                (CameraSystem.run cs (CameraSystem.new width height)) = 0.1 /\
              0.5 <= CameraSystem.zoom
                       (CameraSystem.run cs (CameraSystem.new width height))
                <= 2 /\
              0.5 <= CameraSystem.targetZoom
                       (CameraSystem.run cs (CameraSystem.new width height))
                <= 2) by tauto.
  induction cs as [| c cs IH] using rev_ind.
  - unfold CameraSystem.run, CameraSystem.new.
    cbn [fold_left CameraSystem.smoothing CameraSystem.zoom
         CameraSystem.targetZoom].
    repeat split; lra.
  - rewrite camera_run_snoc. apply camera_call_in_range. exact IH.
Qed.

Lemma camera_updates_snoc (n : nat) :
  forall this : CameraSystem.t,
    CameraSystem.updates (S n) this
    = CameraSystem.update (CameraSystem.updates n this).
Proof.
  induction n as [| n IH]; intros this; [reflexivity |].
  change (CameraSystem.updates (S (S n)) this)
    with (CameraSystem.updates (S n) (CameraSystem.update this)).
  now rewrite IH.
Qed.

(** X25.  [n] calls of [update()] leave the targets of a camera as they
    are and multiply the distance of the zoom and of the offset from their
    targets by [(1 - smoothing) ^ n]. *)
Theorem camera_update_geometric (this : CameraSystem.t) (n : nat) :
  CameraSystem.targetZoom (CameraSystem.updates n this)
  = CameraSystem.targetZoom this /\
  CameraSystem.targetOffset (CameraSystem.updates n this)
  = CameraSystem.targetOffset this /\
  CameraSystem.zoom (CameraSystem.updates n this)
  - CameraSystem.targetZoom this
  = (1 - CameraSystem.smoothing this) ^ n
    * (CameraSystem.zoom this - CameraSystem.targetZoom this) /\
  px (CameraSystem.offset (CameraSystem.updates n this))
  - px (CameraSystem.targetOffset this)
  = (1 - CameraSystem.smoothing this) ^ n
    * (px (CameraSystem.offset this)
       - px (CameraSystem.targetOffset this)) /\
  py (CameraSystem.offset (CameraSystem.updates n this))
  - py (CameraSystem.targetOffset this)
  = (1 - CameraSystem.smoothing this) ^ n
    * (py (CameraSystem.offset this)
       - py (CameraSystem.targetOffset this)).
Proof.
  enough (H : CameraSystem.smoothing (CameraSystem.updates n this)
              = CameraSystem.smoothing this /\
              CameraSystem.targetZoom (CameraSystem.updates n this)
              = CameraSystem.targetZoom this /\
              CameraSystem.targetOffset (CameraSystem.updates n this)
              = CameraSystem.targetOffset this /\
              CameraSystem.zoom (CameraSystem.updates n this)
              - CameraSystem.targetZoom this
              = (1 - CameraSystem.smoothing this) ^ n
                * (CameraSystem.zoom this - CameraSystem.targetZoom this) /\
              px (CameraSystem.offset (CameraSystem.updates n this))
              - px (CameraSystem.targetOffset this)
              = (1 - CameraSystem.smoothing this) ^ n
                * (px (CameraSystem.offset this)
                   - px (CameraSystem.targetOffset this)) /\
              py (CameraSystem.offset (CameraSystem.updates n this))
              - py (CameraSystem.targetOffset this)
              = (1 - CameraSystem.smoothing this) ^ n
                * (py (CameraSystem.offset this)
                   - py (CameraSystem.targetOffset this))) by tauto.
  induction n as [| n (Hs & Ht & Ho & Hz & Hx & Hy)].
  - cbn [CameraSystem.updates pow]. repeat split; ring.
  - rewrite camera_updates_snoc. unfold CameraSystem.update.
    cbn [CameraSystem.smoothing CameraSystem.targetZoom
         CameraSystem.targetOffset CameraSystem.zoom CameraSystem.offset
         px py].
    rewrite Hs, Ht, Ho.
    set (z := CameraSystem.zoom (CameraSystem.updates n this)) in *.
    set (o := CameraSystem.offset (CameraSystem.updates n this)) in *.
    set (q := (1 - CameraSystem.smoothing this) ^ n) in *.
    assert (Eq : (1 - CameraSystem.smoothing this) ^ S n
                 = (1 - CameraSystem.smoothing this) * q) by reflexivity.
    rewrite Eq.
    split; [reflexivity |]. split; [reflexivity |].
    split; [reflexivity |].
    split; [| split].
    + replace (z + (CameraSystem.targetZoom this - z)
                   * CameraSystem.smoothing this
               - CameraSystem.targetZoom this)
        with ((1 - CameraSystem.smoothing this)
              * (z - CameraSystem.targetZoom this)) by ring.
      rewrite Hz. ring.
    + replace (px o + (px (CameraSystem.targetOffset this) - px o)
                      * CameraSystem.smoothing this
               - px (CameraSystem.targetOffset this))
        with ((1 - CameraSystem.smoothing this)
              * (px o - px (CameraSystem.targetOffset this))) by ring.
      rewrite Hx. ring.
    + replace (py o + (py (CameraSystem.targetOffset this) - py o)
                      * CameraSystem.smoothing this
               - py (CameraSystem.targetOffset this))
        with ((1 - CameraSystem.smoothing this)
              * (py o - py (CameraSystem.targetOffset this))) by ring.
      rewrite Hy. ring.
Qed.

(** ** The data of a graph *)

Lemma ceil_ge (r : R) : r <= ceil r.
Proof. unfold ceil. pose proof (floor_bounds (- r)). lra. Qed.

Lemma graph_run_snoc (cs : list Graph.Call) (c : Graph.Call)
  (this : Graph.t) :
  Graph.run (cs ++ [c]) this = Graph.call c (Graph.run cs this).
Proof. unfold Graph.run. now rewrite fold_left_app. Qed.

Lemma addDataPoint_fits (this : Graph.t) (x y : R) :
  graphFits this ->
  graphFits (Graph.addDataPoint this x y) /\
  Graph.xMax this <= Graph.xMax (Graph.addDataPoint this x y) /\
  x <= Graph.xMax (Graph.addDataPoint this x y).
Proof.
  intros (Hm & Hd & Hl).
  assert (Hx : Graph.xMax this
               <= Graph.xMax (Graph.addDataPoint this x y) /\
               x <= Graph.xMax (Graph.addDataPoint this x y)).
  { unfold Graph.addDataPoint. cbn [Graph.xMax].
    unfold num_gt, num_lt. destruct (Rlt_dec (Graph.xMax this) x) as [H | H].
    - pose proof (ceil_ge (x / 5)). lra.
    - lra. }
  destruct Hx as [Hx1 Hx2]. split; [| split; assumption].
  unfold graphFits. split; [| split].
  - unfold Graph.addDataPoint in *. cbn [Graph.xMin Graph.xMax] in *. lra.
  - assert (Hall : Forall
                     (fun p => px p
                               <= Graph.xMax (Graph.addDataPoint this x y))
                     (Graph.data this ++ [{| px := x; py := y |}])).
    { apply Forall_app. split.
      - eapply Forall_impl; [| exact Hd]. cbn beta. intros p Hp. lra.
      - constructor; [exact Hx2 | constructor]. }
    unfold Graph.addDataPoint at 2. cbn [Graph.data].
    destruct (_ <? _)%nat; [| exact Hall].
    destruct (Graph.data this ++ [{| px := x; py := y |}]) as [| p l];
      [constructor |].
    cbn [tl]. now inversion Hall.
  - unfold Graph.addDataPoint. cbn [Graph.data Graph.maxDataPoints].
    destruct (Nat.ltb_spec (Graph.maxDataPoints this)
                (length (Graph.data this ++ [{| px := x; py := y |}])))
      as [H | H]; [| exact H].
    rewrite length_app in H. cbn [length] in H.
    destruct (Graph.data this) as [| p l]; cbn [app tl length] in *;
      [lia |].
    rewrite length_app. cbn [length]. lia.
Qed.

Lemma graph_call_fits (c : Graph.Call) (this : Graph.t) :
  graphFits this ->
  graphFits (Graph.call c this) /\
  Graph.xMin (Graph.call c this) = Graph.xMin this /\
  Graph.marginLeft (Graph.call c this) = Graph.marginLeft this /\
  Graph.plotWidth (Graph.call c this) = Graph.plotWidth this.
Proof.
  intros H. destruct c as [x y |]; cbn [Graph.call].
  - split; [exact (proj1 (addDataPoint_fits this x y H)) |].
    repeat split.
  - split; [| repeat split].
    destruct H as (Hm & _ & _). unfold graphFits, Graph.clear.
    cbn [Graph.xMin Graph.xMax Graph.data length].
    split; [exact Hm |]. split; [constructor | lia].
Qed.

Lemma graph_run_fits (cs : list Graph.Call) (this : Graph.t) :
  graphFits this ->
  graphFits (Graph.run cs this) /\
  Graph.xMin (Graph.run cs this) = Graph.xMin this /\
  Graph.marginLeft (Graph.run cs this) = Graph.marginLeft this /\
  Graph.plotWidth (Graph.run cs this) = Graph.plotWidth this.
Proof.
  intros H. induction cs as [| c cs (IH & E1 & E2 & E3)] using rev_ind.
  - split; [exact H | repeat split].
  - rewrite graph_run_snoc.
    destruct (graph_call_fits c _ IH) as (F & F1 & F2 & F3).
    split; [exact F |]. rewrite F1, F2, F3. repeat split; assumption.
Qed.

(** X26.  On a graph whose data fit its axis (the lower end of the axis
    is below the upper end, no point lies right of the upper end, and the
    data are no more than [maxDataPoints]), this stays so through every
    sequence of [addDataPoint] and [clear]; [addDataPoint(x, y)] never
    lowers the upper end and raises it to at least [x]; and every point
    kept that is not left of the lower end is drawn, by [xToScreen], inside
    the plot area when the plot width is not negative. *)
Theorem graph_data_fit_axis (this : Graph.t) (cs : list Graph.Call) :
  graphFits this ->
  0 <= Graph.plotWidth this ->
  graphFits (Graph.run cs this) /\
  (forall x y : R,
     Graph.xMax (Graph.run cs this)
     <= Graph.xMax (Graph.addDataPoint (Graph.run cs this) x y) /\
     x <= Graph.xMax (Graph.addDataPoint (Graph.run cs this) x y)) /\
  Forall (fun p =>
            Graph.xMin this <= px p ->
            Graph.marginLeft this
            <= Graph.xToScreen (Graph.run cs this) (px p)
            <= Graph.marginLeft this + Graph.plotWidth this)
    (Graph.data (Graph.run cs this)).
Proof.
  intros H Hw. destruct (graph_run_fits cs this H) as (F & E1 & E2 & E3).
  split; [exact F |]. split.
  - intros x y. exact (proj2 (addDataPoint_fits _ x y F)).
  - destruct F as (Hm & Hd & _).
    eapply Forall_impl; [| exact Hd]. cbn beta. intros p Hp Hlo.
    unfold Graph.xToScreen. rewrite E1, E2, E3. rewrite E1 in Hm.
    set (m := Graph.xMax (Graph.run cs this)) in *.
    set (l := Graph.xMin this) in *.
    assert (Hq : 0 <= (px p - l) / (m - l) <= 1).
    { split.
      - apply Rmult_le_pos; [lra |].
        left. apply Rinv_0_lt_compat. lra.
      - apply Rmult_le_reg_r with (m - l); [lra |].
        unfold Rdiv. rewrite Rmult_assoc, Rinv_l by lra. lra. }
    set (q := (px p - l) / (m - l)) in *. nra.
Qed.

Lemma graph_data_fit_axis_witness :
  graphFits (Graph.mk 0 10 [] 1000 60 500) /\
  0 <= Graph.plotWidth (Graph.mk 0 10 [] 1000 60 500) /\
  graphFits
    (Graph.run [Graph.AddDataPoint 12 3; Graph.AddDataPoint 2 1]
       (Graph.mk 0 10 [] 1000 60 500)).
Proof.
  assert (H : graphFits (Graph.mk 0 10 [] 1000 60 500)).
  { unfold graphFits. cbn [Graph.xMin Graph.xMax Graph.data
                            Graph.maxDataPoints length].
    split; [lra |]. split; [constructor | lia]. }
  assert (W : 0 <= Graph.plotWidth (Graph.mk 0 10 [] 1000 60 500)).
  { cbn [Graph.plotWidth]. lra. }
  split; [exact H |]. split; [exact W |].
  exact (proj1 (graph_data_fit_axis (Graph.mk 0 10 [] 1000 60 500)
                  [Graph.AddDataPoint 12 3; Graph.AddDataPoint 2 1] H W)).
Defined.

(** ** The leaderboard *)

Lemma insertByScore_front (e : Leaderboard.Item) (l : list Leaderboard.Item) :
  Forall (fun e' => Leaderboard.score (snd e')
                    <= Leaderboard.score (snd e)) (firstn 1 l) ->
  Leaderboard.insertByScore e l = e :: l.
Proof.
  destruct l as [| e' l]; [reflexivity |].
  cbn [firstn Leaderboard.insertByScore]. intros H. inversion_clear H.
  unfold num_le. destruct (Rle_dec _ _); [reflexivity | contradiction].
Qed.

Lemma insertByScore_behind (e : Leaderboard.Item)
  (a b : list Leaderboard.Item) :
  Forall (fun e' => Leaderboard.score (snd e)
                    < Leaderboard.score (snd e')) a ->
  Leaderboard.insertByScore e (a ++ b)
  = a ++ Leaderboard.insertByScore e b.
Proof.
  induction 1 as [| e' a H _ IH]; [reflexivity |].
  cbn [app Leaderboard.insertByScore]. unfold num_le.
  destruct (Rle_dec _ _); [lra |]. now rewrite IH.
Qed.

Lemma insertByScore_before (e y : Leaderboard.Item)
  (a b : list Leaderboard.Item) :
  Leaderboard.score (snd y) <= Leaderboard.score (snd e) ->
  Leaderboard.insertByScore e (a ++ y :: b)
  = Leaderboard.insertByScore e a ++ y :: b.
Proof.
  intros H. induction a as [| e' a IH].
  - cbn [app Leaderboard.insertByScore]. unfold num_le.
    destruct (Rle_dec _ _); [reflexivity | contradiction].
  - cbn [app Leaderboard.insertByScore].
    destruct (num_le _ _); [reflexivity |]. now rewrite IH.
Qed.

Lemma insertByScore_Forall (P : Leaderboard.Item -> Prop)
  (e : Leaderboard.Item) (l : list Leaderboard.Item) :
  P e -> Forall P l -> Forall P (Leaderboard.insertByScore e l).
Proof.
  intros He. induction 1 as [| e' l H F IH]; cbn [Leaderboard.insertByScore].
  - now constructor.
  - destruct (num_le _ _); repeat constructor; assumption.
Qed.

Lemma insertByScore_length (e : Leaderboard.Item)
  (l : list Leaderboard.Item) :
  length (Leaderboard.insertByScore e l) = S (length l).
Proof.
  induction l as [| e' l IH]; cbn [Leaderboard.insertByScore length];
    [reflexivity |].
  destruct (num_le _ _); cbn [length]; [reflexivity | now rewrite IH].
Qed.

Lemma insertByScore_falling (e : Leaderboard.Item)
  (l : list Leaderboard.Item) :
  fallingScores (map snd l) ->
  fallingScores (map snd (Leaderboard.insertByScore e l)).
Proof.
  induction l as [| e' l IH]; cbn [Leaderboard.insertByScore map].
  - intros _. cbn [fallingScores]. split; [constructor | exact I].
  - intros [F H]. unfold num_le.
    destruct (Rle_dec _ _) as [Hle | Hgt]; cbn [map fallingScores].
    + split; [| split; assumption].
      constructor; [exact Hle |].
      eapply Forall_impl; [| exact F]. cbn beta. intros a Ha. lra.
    + split; [| exact (IH H)].
      rewrite Forall_map in *.
      apply insertByScore_Forall; [lra | exact F].
Qed.

Lemma sortByScore_falling (l : list Leaderboard.Item) :
  fallingScores (map snd (Leaderboard.sortByScore l)).
Proof.
  induction l as [| e l IH]; cbn [Leaderboard.sortByScore];
    [exact I | now apply insertByScore_falling].
Qed.

Lemma sortByScore_length (l : list Leaderboard.Item) :
  length (Leaderboard.sortByScore l) = length l.
Proof.
  induction l as [| e l IH]; cbn [Leaderboard.sortByScore length];
    [reflexivity |].
  now rewrite insertByScore_length, IH.
Qed.

Lemma In_firstn {A : Type} (n : nat) (l : list A) (a : A) :
  In a (firstn n l) -> In a l.
Proof.
  intros H. rewrite <- (firstn_skipn n l). apply in_or_app. now left.
Qed.

Lemma fallingScores_firstn (n : nat) :
  forall l : list Leaderboard.Entry,
    fallingScores l -> fallingScores (firstn n l).
Proof.
  induction n as [| n IH]; intros [| e l]; cbn [firstn fallingScores];
    try tauto.
  intros [F H]. split; [| exact (IH l H)].
  rewrite Forall_forall in *. intros a Ha. apply F.
  eapply In_firstn. exact Ha.
Qed.

(** The array sorted by [addScore]: the entries with at least the new
    score in the order of the sort, the new entry, the entries below it. *)
Lemma sortByScore_pushed (e : Leaderboard.Entry) :
  forall l : list Leaderboard.Entry,
    exists a b : list Leaderboard.Item,
      Leaderboard.sortByScore (map (pair false) l ++ [(true, e)])
      = a ++ (true, e) :: b /\
      Forall (fun e' => fst e' = false /\
                        Leaderboard.score e
                        <= Leaderboard.score (snd e')) a /\
      Forall (fun e' => fst e' = false /\
                        Leaderboard.score (snd e')
                        < Leaderboard.score e) b /\
      length a = countAtLeast (Leaderboard.score e) l.
Proof.
  induction l as [| x l (a & b & E & Fa & Fb & La)].
  - exists [], []. repeat split; constructor.
  - cbn [map app Leaderboard.sortByScore]. rewrite E.
    unfold countAtLeast. cbn [filter]. fold (countAtLeast (Leaderboard.score e) l).
    unfold num_le at 1.
    destruct (Rle_dec (Leaderboard.score e) (Leaderboard.score x))
      as [Hle | Hgt].
    + exists (Leaderboard.insertByScore (false, x) a), b.
      split; [apply insertByScore_before; exact Hle |].
      split; [apply insertByScore_Forall; [split; [reflexivity | exact Hle]
                                          | exact Fa] |].
      split; [exact Fb |].
      rewrite insertByScore_length. cbn [length]. now rewrite La.
    + exists a, (Leaderboard.insertByScore (false, x) b).
      split.
      * rewrite insertByScore_behind.
        -- cbn [Leaderboard.insertByScore snd]. unfold num_le.
           destruct (Rle_dec _ _); [lra | reflexivity].
        -- eapply Forall_impl; [| exact Fa]. cbn beta.
           intros e' [_ H]. cbn [snd]. lra.
      * split; [exact Fa |].
        split; [| exact La].
        apply insertByScore_Forall; [split; [reflexivity | cbn [snd]; lra]
                                    | exact Fb].
Qed.

Lemma findIndex_none {A : Type} (f : A -> bool) (l : list A) :
  Forall (fun a => f a = false) l -> findIndex f l = (-1)%Z.
Proof.
  induction 1 as [| a l H _ IH]; cbn [findIndex]; [reflexivity |].
  rewrite H, IH. reflexivity.
Qed.

Lemma findIndex_behind {A : Type} (f : A -> bool) (a : list A) (x : A)
  (b : list A) :
  Forall (fun e => f e = false) a -> f x = true ->
  findIndex f (a ++ x :: b) = Z.of_nat (length a).
Proof.
  intros F Hx. induction F as [| e a H _ IH]; cbn [app findIndex length].
  - now rewrite Hx.
  - rewrite H, IH.
    destruct (Z.ltb_spec (Z.of_nat (length a)) 0); lia.
Qed.

Lemma firstn_pushed {A : Type} (n : nat) (a : list A) (x : A) (b : list A) :
  (length a < n)%nat ->
  firstn n (a ++ x :: b) = a ++ x :: firstn (n - S (length a)) b.
Proof.
  intros H. rewrite firstn_app.
  rewrite (firstn_all2 (n := n) a) by lia.
  replace (n - length a)%nat with (S (n - S (length a))) by lia.
  reflexivity.
Qed.

Lemma addScore_storage (this : Leaderboard.t) (s h tot : R)
  (pn pr : option String.string) :
  Leaderboard.storage (fst (Leaderboard.addScore this s h tot pn pr))
  = map snd
      (firstn (Leaderboard.maxEntries this)
         (Leaderboard.sortByScore
            (map (pair false) (Leaderboard.storage this)
             ++ [(true, Leaderboard.newEntry s h tot pn pr)]))) /\
  Leaderboard.maxEntries (fst (Leaderboard.addScore this s h tot pn pr))
  = Leaderboard.maxEntries this /\
  snd (Leaderboard.addScore this s h tot pn pr)
  = (findIndex fst
       (firstn (Leaderboard.maxEntries this)
          (Leaderboard.sortByScore
             (map (pair false) (Leaderboard.storage this)
              ++ [(true, Leaderboard.newEntry s h tot pn pr)]))) + 1)%Z.
Proof. split; [| split]; reflexivity. Qed.

Lemma newEntry_score (s h tot : R) (pn pr : option String.string) :
  Leaderboard.score (Leaderboard.newEntry s h tot pn pr) = s.
Proof. reflexivity. Qed.

Lemma addScore_rank_sorted (this : Leaderboard.t) (s h tot : R)
  (pn pr : option String.string) :
  snd (Leaderboard.addScore this s h tot pn pr)
  = (if (countAtLeast s (Leaderboard.storage this)
         <? Leaderboard.maxEntries this)%nat
     then Z.of_nat (countAtLeast s (Leaderboard.storage this)) + 1
     else 0)%Z /\
  length (Leaderboard.storage
            (fst (Leaderboard.addScore this s h tot pn pr)))
  = Nat.min (length (Leaderboard.storage this) + 1)
      (Leaderboard.maxEntries this) /\
  fallingScores
    (Leaderboard.storage (fst (Leaderboard.addScore this s h tot pn pr))) /\
  Leaderboard.maxEntries (fst (Leaderboard.addScore this s h tot pn pr))
  = Leaderboard.maxEntries this.
Proof.
  destruct (addScore_storage this s h tot pn pr) as (Es & Em & Er).
  split; [| split; [| split; [| exact Em]]].
  - rewrite Er.
    destruct (sortByScore_pushed (Leaderboard.newEntry s h tot pn pr)
                (Leaderboard.storage this))
      as (a & b & E & Fa & Fb & La).
    rewrite newEntry_score in La. rewrite E, <- La.
    destruct (Nat.ltb_spec (length a) (Leaderboard.maxEntries this))
      as [Hlt | Hge].
    + rewrite firstn_pushed by exact Hlt.
      rewrite findIndex_behind; [reflexivity | | reflexivity].
      eapply Forall_impl; [| exact Fa]. cbn beta. tauto.
    + rewrite firstn_app.
      replace (Leaderboard.maxEntries this - length a)%nat with 0%nat
        by lia.
      cbn [firstn]. rewrite app_nil_r.
      rewrite findIndex_none; [reflexivity |].
      apply Forall_forall. intros e' He'.
      apply In_firstn in He'.
      rewrite Forall_forall in Fa. exact (proj1 (Fa e' He')).
  - rewrite Es, length_map, length_firstn, sortByScore_length, length_app,
      length_map.
    cbn [length]. lia.
  - rewrite Es, <- firstn_map. apply fallingScores_firstn.
    apply sortByScore_falling.
Qed.

(** X27.  [addScore] returns as rank one more than the number of stored
    entries whose score is at least the new score, so that a new entry
    stands behind the entries it ties with; it returns 0 when that number
    is [maxEntries] or more, and the new entry is then not kept.  What it
    stores has one entry more than before, but never more than
    [maxEntries], and is sorted by falling score whatever was stored
    before. *)
Theorem addScore_rank (this : Leaderboard.t) (s h tot : R)
  (pn pr : option String.string) :
  snd (Leaderboard.addScore this s h tot pn pr)
  = (if (countAtLeast s (Leaderboard.storage this)
         <? Leaderboard.maxEntries this)%nat
     then Z.of_nat (countAtLeast s (Leaderboard.storage this)) + 1
     else 0)%Z /\
  length (Leaderboard.storage
            (fst (Leaderboard.addScore this s h tot pn pr)))
  = Nat.min (length (Leaderboard.storage this) + 1)
      (Leaderboard.maxEntries this) /\
  fallingScores
    (Leaderboard.storage (fst (Leaderboard.addScore this s h tot pn pr))) /\
  Leaderboard.maxEntries (fst (Leaderboard.addScore this s h tot pn pr))
  = Leaderboard.maxEntries this.
Proof. exact (addScore_rank_sorted this s h tot pn pr). Qed.

Lemma countAtLeast_cons (s : R) (x : Leaderboard.Entry)
  (l : list Leaderboard.Entry) :
  countAtLeast s (x :: l)
  = if Rle_dec s (Leaderboard.score x) then S (countAtLeast s l)
    else countAtLeast s l.
Proof.
  unfold countAtLeast. cbn [filter]. unfold num_le.
  destruct (Rle_dec _ _); reflexivity.
Qed.

Lemma countAtLeast_below (s : R) (l : list Leaderboard.Entry) :
  Forall (fun e => Leaderboard.score e < s) l -> countAtLeast s l = 0%nat.
Proof.
  induction 1 as [| x l H _ IH]; [reflexivity |].
  rewrite countAtLeast_cons. destruct (Rle_dec _ _); [lra | exact IH].
Qed.

(** The array sorted by [addScore] when the stored entries are sorted
    already. *)
Lemma sortByScore_pushed_falling (e : Leaderboard.Entry) :
  forall l : list Leaderboard.Entry,
    fallingScores l ->
    Leaderboard.sortByScore (map (pair false) l ++ [(true, e)])
    = map (pair false) (firstn (countAtLeast (Leaderboard.score e) l) l)
      ++ (true, e)
      :: map (pair false) (skipn (countAtLeast (Leaderboard.score e) l) l)
    /\ Forall (fun e' => Leaderboard.score e <= Leaderboard.score e')
         (firstn (countAtLeast (Leaderboard.score e) l) l)
    /\ Forall (fun e' => Leaderboard.score e' < Leaderboard.score e)
         (skipn (countAtLeast (Leaderboard.score e) l) l).
Proof.
  induction l as [| x l IH]; intros Hl.
  - cbn. repeat split; constructor.
  - destruct Hl as [F H]. destruct (IH H) as (E & Fa & Fb).
    cbn [map app Leaderboard.sortByScore]. rewrite E.
    rewrite countAtLeast_cons.
    destruct (Rle_dec (Leaderboard.score e) (Leaderboard.score x))
      as [Hle | Hgt].
    + cbn [firstn skipn map app].
      split; [| split; [constructor; assumption | exact Fb]].
      apply insertByScore_front.
      destruct (firstn (countAtLeast (Leaderboard.score e) l) l)
        as [| y ys] eqn:Ey; cbn [map app firstn].
      * constructor; [exact Hle | constructor].
      * constructor; [| constructor]. cbn [snd].
        rewrite Forall_forall in F. apply F.
        apply (In_firstn (countAtLeast (Leaderboard.score e) l)).
        rewrite Ey. now left.
    + assert (Fl : Forall (fun e' => Leaderboard.score e'
                                     < Leaderboard.score e) l).
      { eapply Forall_impl; [| exact F]. cbn beta. intros a Ha. lra. }
      rewrite (countAtLeast_below _ _ Fl).
      cbn [firstn skipn map app Leaderboard.insertByScore snd].
      unfold num_le at 1.
      destruct (Rle_dec (Leaderboard.score e) (Leaderboard.score x));
        [contradiction |].
      split; [| split; [constructor | constructor; [lra | exact Fl]]].
      f_equal. apply insertByScore_front.
      destruct l as [| y ys]; cbn [map firstn]; constructor;
        [| constructor].
      cbn [snd]. now inversion_clear F.
Qed.

Lemma addScore_behind_ties (this : Leaderboard.t) (s h tot : R)
  (pn pr : option String.string) :
  fallingScores (Leaderboard.storage this) ->
  Leaderboard.storage (fst (Leaderboard.addScore this s h tot pn pr))
  = firstn (Leaderboard.maxEntries this)
      (firstn (countAtLeast s (Leaderboard.storage this))
         (Leaderboard.storage this)
       ++ Leaderboard.newEntry s h tot pn pr
       :: skipn (countAtLeast s (Leaderboard.storage this))
            (Leaderboard.storage this)) /\
  Forall (fun e => s <= Leaderboard.score e)
    (firstn (countAtLeast s (Leaderboard.storage this))
       (Leaderboard.storage this)) /\
  Forall (fun e => Leaderboard.score e < s)
    (skipn (countAtLeast s (Leaderboard.storage this))
       (Leaderboard.storage this)).
Proof.
  intros Hl.
  destruct (addScore_storage this s h tot pn pr) as (Es & _ & _).
  destruct (sortByScore_pushed_falling
              (Leaderboard.newEntry s h tot pn pr)
              (Leaderboard.storage this) Hl) as (E & Fa & Fb).
  rewrite newEntry_score in E, Fa, Fb.
  split; [| split; assumption].
  rewrite Es, E, <- firstn_map, map_app. cbn [map snd].
  rewrite !map_map. cbn [snd]. now rewrite !map_id.
Qed.

(** X28.  On a leaderboard whose stored entries are sorted by falling
    score, [addScore] puts the new entry behind the stored entries that
    have at least its score and before the ones below it, keeps the order
    of the stored entries, and cuts the result to [maxEntries]. *)
Theorem addScore_inserts_behind_ties (this : Leaderboard.t) (s h tot : R)
  (pn pr : option String.string) :
  fallingScores (Leaderboard.storage this) ->
  Leaderboard.storage (fst (Leaderboard.addScore this s h tot pn pr))
  = firstn (Leaderboard.maxEntries this)
      (firstn (countAtLeast s (Leaderboard.storage this))
         (Leaderboard.storage this)
       ++ Leaderboard.newEntry s h tot pn pr
       :: skipn (countAtLeast s (Leaderboard.storage this))
            (Leaderboard.storage this)) /\
  Forall (fun e => s <= Leaderboard.score e)
    (firstn (countAtLeast s (Leaderboard.storage this))
       (Leaderboard.storage this)) /\
  Forall (fun e => Leaderboard.score e < s)
    (skipn (countAtLeast s (Leaderboard.storage this))
       (Leaderboard.storage this)).
Proof. exact (addScore_behind_ties this s h tot pn pr). Qed.

Lemma addScore_inserts_behind_ties_witness :
  fallingScores
    (Leaderboard.storage
       (Leaderboard.new
          [Leaderboard.mkEntry String.EmptyString 30 3 5 60;
           Leaderboard.mkEntry String.EmptyString 10 1 5 20])) /\
  Leaderboard.storage
    (fst (Leaderboard.addScore
            (Leaderboard.new
               [Leaderboard.mkEntry String.EmptyString 30 3 5 60;
                Leaderboard.mkEntry String.EmptyString 10 1 5 20])
            20 2 5 None None))
  = firstn 10
      (firstn
         (countAtLeast 20
            [Leaderboard.mkEntry String.EmptyString 30 3 5 60;
             Leaderboard.mkEntry String.EmptyString 10 1 5 20])
         [Leaderboard.mkEntry String.EmptyString 30 3 5 60;
          Leaderboard.mkEntry String.EmptyString 10 1 5 20]
       ++ Leaderboard.newEntry 20 2 5 None None
       :: skipn
            (countAtLeast 20
               [Leaderboard.mkEntry String.EmptyString 30 3 5 60;
                Leaderboard.mkEntry String.EmptyString 10 1 5 20])
            [Leaderboard.mkEntry String.EmptyString 30 3 5 60;
             Leaderboard.mkEntry String.EmptyString 10 1 5 20]).
Proof.
  assert (H : fallingScores
                (Leaderboard.storage
                   (Leaderboard.new
                      [Leaderboard.mkEntry String.EmptyString 30 3 5 60;
                       Leaderboard.mkEntry String.EmptyString 10 1 5 20]))).
  { unfold Leaderboard.new.
    cbn [Leaderboard.storage fallingScores Leaderboard.score].
    split; [constructor; [cbn [Leaderboard.score]; lra | constructor] |].
    split; [constructor | exact I]. }
  split; [exact H |].
  exact (proj1 (addScore_inserts_behind_ties _ 20 2 5 None None H)).
Defined.

(** What holds of a leaderboard after the submissions [ss], from an empty
    storage. *)
Lemma submitAll_snoc (ss : list Leaderboard.Submission)
  (s : Leaderboard.Submission) (this : Leaderboard.t) :
  Leaderboard.submitAll (ss ++ [s]) this
  = Leaderboard.submit s (Leaderboard.submitAll ss this).
Proof. unfold Leaderboard.submitAll. now rewrite fold_left_app. Qed.

Lemma submitAll_top (ss : list Leaderboard.Submission) :
  Leaderboard.maxEntries
    (Leaderboard.submitAll ss (Leaderboard.new [])) = 10%nat /\
  fallingScores
    (Leaderboard.storage (Leaderboard.submitAll ss (Leaderboard.new []))) /\
  length (Leaderboard.storage
            (Leaderboard.submitAll ss (Leaderboard.new [])))
  = Nat.min (length ss) 10 /\
  Forall (fun s => Leaderboard.subScore s
                   <= Leaderboard.getTopScore
                        (Leaderboard.submitAll ss (Leaderboard.new []))) ss /\
  match ss with
  | [] => Leaderboard.storage
            (Leaderboard.submitAll ss (Leaderboard.new [])) = []
  | _ :: _ =>
    exists s : Leaderboard.Submission,
      In s ss /\
      Leaderboard.getTopScore
        (Leaderboard.submitAll ss (Leaderboard.new []))
      = Leaderboard.subScore s
  end.
Proof.
  induction ss as [| s ss (Hm & Hf & Hl & Ht & Hx)] using rev_ind.
  - cbn. repeat split; constructor.
  - rewrite submitAll_snoc.
    set (l := Leaderboard.submitAll ss (Leaderboard.new [])) in *.
    unfold Leaderboard.submit.
    destruct (addScore_rank_sorted l (Leaderboard.subScore s)
                (Leaderboard.subTargetsHit s)
                (Leaderboard.subTotalTargets s)
                (Leaderboard.subPlayerName s) (Leaderboard.subPrompted s))
      as (_ & Hl' & Hf' & Hm').
    destruct (addScore_behind_ties l (Leaderboard.subScore s)
                (Leaderboard.subTargetsHit s)
                (Leaderboard.subTotalTargets s)
                (Leaderboard.subPlayerName s) (Leaderboard.subPrompted s) Hf)
      as (Es & Fa & Fb).
    set (l' := fst (Leaderboard.addScore l (Leaderboard.subScore s)
                      (Leaderboard.subTargetsHit s)
                      (Leaderboard.subTotalTargets s)
                      (Leaderboard.subPlayerName s)
                      (Leaderboard.subPrompted s))) in *.
    set (e := Leaderboard.newEntry (Leaderboard.subScore s)
                (Leaderboard.subTargetsHit s)
                (Leaderboard.subTotalTargets s)
                (Leaderboard.subPlayerName s)
                (Leaderboard.subPrompted s)) in *.
    split; [congruence |]. split; [exact Hf' |].
    split; [rewrite Hl', Hl, Hm, length_app; cbn [length]; lia |].
    rewrite Hm in Es.
    assert (Top : (Leaderboard.getTopScore l' = Leaderboard.subScore s /\
                   Forall (fun e' => Leaderboard.score e'
                                     < Leaderboard.subScore s)
                     (Leaderboard.storage l)) \/
                  (Leaderboard.getTopScore l' = Leaderboard.getTopScore l /\
                   Leaderboard.subScore s <= Leaderboard.getTopScore l /\
                   Leaderboard.storage l <> [])).
    { unfold Leaderboard.getTopScore, Leaderboard.getLeaderboard.
      rewrite Es.
      destruct (countAtLeast (Leaderboard.subScore s)
                  (Leaderboard.storage l)) as [| k] eqn:Ek.
      - left. cbn [firstn skipn app] in *. split; [reflexivity | exact Fb].
      - right. destruct (Leaderboard.storage l) as [| y st];
          [discriminate Ek |].
        cbn [firstn skipn app] in *.
        split; [reflexivity |]. split; [| discriminate].
        now inversion_clear Fa. }
    assert (Old : ss <> [] ->
                  Leaderboard.storage l <> [] /\
                  exists s0 : Leaderboard.Submission,
                    In s0 ss /\
                    Leaderboard.getTopScore l = Leaderboard.subScore s0).
    { destruct ss as [| s1 ss1]; [congruence |]. intros _.
      split; [| exact Hx].
      intros E. rewrite E in Hl. cbn [length] in Hl. lia. }
    split.
    + apply Forall_app. split.
      * destruct Top as [[E Fl] | (E & _ & _)]; rewrite E;
          [| exact Ht].
        destruct ss as [| s1 ss1]; [constructor |].
        destruct Old as (Hne & s0 & _ & E0); [discriminate |].
        eapply Forall_impl; [| exact Ht]. cbn beta. intros a Ha.
        unfold Leaderboard.getTopScore, Leaderboard.getLeaderboard in Ha.
        destruct (Leaderboard.storage l) as [| y st]; [congruence |].
        inversion_clear Fl. lra.
      * constructor; [| constructor].
        destruct Top as [[E _] | (E & Hle & _)]; rewrite E; lra.
    + destruct (ss ++ [s]) as [| s1 ss1] eqn:Ess;
        [destruct ss; discriminate Ess |].
      rewrite <- Ess.
      destruct Top as [[E _] | (E & _ & Hne)].
      * exists s. split; [apply in_or_app; right; now left | exact E].
      * destruct ss as [| s2 ss2]; [contradiction |].
        destruct Old as (_ & s0 & Hin & E0); [discriminate |].
        exists s0. split; [apply in_or_app; now left | congruence].
Qed.

(** X29.  After any submissions to a leaderboard that started with an
    empty storage, the stored entries are sorted by falling score, they
    are as many as the submissions but at most 10, and [getTopScore()] is
    the highest score submitted (0 when there was none). *)
Theorem leaderboard_top_score (ss : list Leaderboard.Submission) :
  fallingScores
    (Leaderboard.storage (Leaderboard.submitAll ss (Leaderboard.new []))) /\
  length (Leaderboard.storage
            (Leaderboard.submitAll ss (Leaderboard.new [])))
  = Nat.min (length ss) 10 /\
  Forall (fun s => Leaderboard.subScore s
                   <= Leaderboard.getTopScore
                        (Leaderboard.submitAll ss (Leaderboard.new []))) ss /\
  match ss with
  | [] => Leaderboard.getTopScore
            (Leaderboard.submitAll ss (Leaderboard.new [])) = 0
  | _ :: _ =>
    exists s : Leaderboard.Submission,
      In s ss /\
      Leaderboard.getTopScore
        (Leaderboard.submitAll ss (Leaderboard.new []))
      = Leaderboard.subScore s
  end.
Proof.
  destruct (submitAll_top ss) as (_ & Hf & Hl & Ht & Hx).
  split; [exact Hf |]. split; [exact Hl |]. split; [exact Ht |].
  destruct ss as [| s ss]; [reflexivity | exact Hx].
Qed.




